(** * LoA worker: the message-to-case workflow engine

    A shallow embedding of the core of the LoA worker (case state machine,
    field tracker, pre-filter, action handlers, router and pipeline
    orchestrator) together with the properties its specification states.

    Conventions of the embedding.
    - Python enums are inductive types; pydantic models are records, one
      module per model so that the fields keep their source names.
    - A Python [dict] with string keys is a [gmap string _]; a [set] of
      strings is a [gset string].
    - [datetime.utcnow()] reads a clock kept in the world; the clock ticks
      at every read, so two readings never coincide.
    - Python floats that only hold ratios (confidence, percentages) are
      rationals [Q]; rounding of the float arithmetic is not modelled.
    - Code that may raise lives in a state-and-exception monad [M S]; the
      state survives a raised exception, as mutations do in Python.
    - The Firestore collections are finite maps and lists held in the
      world.  Every call to the database may fail: the world carries the
      list [outages] of the outcomes of the coming calls. *)

From stdpp Require Import gmap strings list fin_maps pretty.
From Stdlib Require Import Ascii QArith.

Close Scope Q_scope.
Local Open Scope string_scope.

(** ** core/enums.py *)

Inductive SourceType := EMAIL | TEAMS | TRANSCRIPT | DOCUMENT | UNKNOWN.

Inductive MessageCategory :=
  CLIENT_TASK | LOA_CHASE | LOA_MISSING_INFO | LOA_RESPONSE | ADMIN | IRRELEVANT.

Inductive ActionType :=
  CREATE_CASE | UPDATE_CASE | COMPLETE_CASE | CANCEL_CASE
| CREATE_TASK | COMPLETE_TASK | DRAFT_FOLLOWUP_EMAIL | INITIATE_LOA_CHASE
| IGNORE.

Inductive CaseType := LOA | GENERAL | ANNUAL_REVIEW.

Inductive CaseStatus := OPEN | IN_PROGRESS | AWAITING_INFO | COMPLETE | CANCELLED.

Inductive ProcessingStatus := PENDING | PROCESSING | PROCESSED | FAILED | SKIPPED.

#[global] Instance MessageCategory_eq_dec : EqDecision MessageCategory.
Proof. solve_decision. Defined.
#[global] Instance ActionType_eq_dec : EqDecision ActionType.
Proof. solve_decision. Defined.
#[global] Instance CaseType_eq_dec : EqDecision CaseType.
Proof. solve_decision. Defined.
#[global] Instance CaseStatus_eq_dec : EqDecision CaseStatus.
Proof. solve_decision. Defined.
#[global] Instance ProcessingStatus_eq_dec : EqDecision ProcessingStatus.
Proof. solve_decision. Defined.

(** The [.value] of the string-valued enums. *)
Definition category_value (c : MessageCategory) : string :=
  match c with
  | CLIENT_TASK => "CLIENT_TASK" | LOA_CHASE => "LOA_CHASE"
  | LOA_MISSING_INFO => "LOA_MISSING_INFO" | LOA_RESPONSE => "LOA_RESPONSE"
  | ADMIN => "ADMIN" | IRRELEVANT => "IRRELEVANT"
  end.

Definition action_type_value (a : ActionType) : string :=
  match a with
  | CREATE_CASE => "CREATE_CASE" | UPDATE_CASE => "UPDATE_CASE"
  | COMPLETE_CASE => "COMPLETE_CASE" | CANCEL_CASE => "CANCEL_CASE"
  | CREATE_TASK => "CREATE_TASK" | COMPLETE_TASK => "COMPLETE_TASK"
  | DRAFT_FOLLOWUP_EMAIL => "DRAFT_FOLLOWUP_EMAIL"
  | INITIATE_LOA_CHASE => "INITIATE_LOA_CHASE" | IGNORE => "IGNORE"
  end.

Definition case_type_value (t : CaseType) : string :=
  match t with
  | LOA => "loa" | GENERAL => "general" | ANNUAL_REVIEW => "annual_review"
  end.

Definition case_status_value (s : CaseStatus) : string :=
  match s with
  | OPEN => "OPEN" | IN_PROGRESS => "IN_PROGRESS"
  | AWAITING_INFO => "AWAITING_INFO" | COMPLETE => "COMPLETE"
  | CANCELLED => "CANCELLED"
  end.

(** [CaseType(s)]: the enum member with that value, if any. *)
Definition case_type_of_value (s : string) : option CaseType :=
  if String.eqb s "loa" then Some LOA
  else if String.eqb s "general" then Some GENERAL
  else if String.eqb s "annual_review" then Some ANNUAL_REVIEW
  else None.

(** ** Python values and strings *)

(** The values found under [Dict[str, Any]] in this code base. *)
#[local] Set Warnings "-register-all".
Inductive PyVal :=
| PyNone
| PyBool (b : bool)
| PyStr (s : string)
| PyList (l : list string)
| PyDict (d : list (string * PyVal)).
#[local] Set Warnings "register-all".

(** Python truthiness ([if x], [not x], [x or y]). *)
Definition truthy (v : PyVal) : bool :=
  match v with
  | PyNone => false
  | PyBool b => b
  | PyStr s => negb (String.eqb s "")
  | PyList l => negb (bool_decide (l = []))
  | PyDict d => match d with [] => false | _ => true end
  end.

Definition truthy_str (o : option string) : bool :=
  match o with
  | Some s => negb (String.eqb s "")
  | None => false
  end.

(** [d.get(k, default)]. *)
Definition dict_get (d : gmap string PyVal) (k : string) (default : PyVal) : PyVal :=
  match d !! k with
  | Some v => v
  | None => default
  end.

Definition is_upper (a : ascii) : bool :=
  let n := nat_of_ascii a in (65 <=? n)%nat && (n <=? 90)%nat.

Definition is_lower (a : ascii) : bool :=
  let n := nat_of_ascii a in (97 <=? n)%nat && (n <=? 122)%nat.

Definition lower_ascii (a : ascii) : ascii :=
  if is_upper a then ascii_of_nat (nat_of_ascii a + 32) else a.

Definition upper_ascii (a : ascii) : ascii :=
  if is_lower a then ascii_of_nat (nat_of_ascii a - 32) else a.

Fixpoint map_string (f : ascii -> ascii) (s : string) : string :=
  match s with
  | EmptyString => EmptyString
  | String a r => String (f a) (map_string f r)
  end.

(** [s.lower()] and [s.upper()] on ASCII text. *)
Definition lower (s : string) : string := map_string lower_ascii s.
Definition upper (s : string) : string := map_string upper_ascii s.

(** [s.replace(a, b)] for one-character [a] and [b]. *)
Definition replace_char (a b : ascii) (s : string) : string :=
  map_string (fun c => if Ascii.eqb c a then b else c) s.

(** [k in text]: [k] occurs in [text] as a substring. *)
Fixpoint contains (text k : string) : bool :=
  String.prefix k text
  || match text with
     | EmptyString => false
     | String _ rest => contains rest k
     end.

(** [any(k in text for k in ks)]. *)
Definition any_in (ks : list string) (text : string) : bool :=
  existsb (contains text) ks.

(** [sum(1 for k in ks if k in text)]. *)
Definition count_in (ks : list string) (text : string) : nat :=
  List.length (filter (fun k => Is_true (contains text k)) ks).

Definition is_space (a : ascii) : bool :=
  let n := nat_of_ascii a in
  (n =? 32)%nat || ((9 <=? n)%nat && (n <=? 13)%nat).

Fixpoint lstrip (s : string) : string :=
  match s with
  | String a r => if is_space a then lstrip r else s
  | EmptyString => EmptyString
  end.

(** [s.strip()]. *)
Definition strip (s : string) : string :=
  String.rev (lstrip (String.rev (lstrip s))).

(** [sep.join(l)]. *)
Fixpoint join (sep : string) (l : list string) : string :=
  match l with
  | [] => ""
  | [x] => x
  | x :: r => x +:+ sep +:+ join sep r
  end.

(** ** core/exceptions.py *)

Inductive Exc :=
| ActionExecutionError (msg : string)
| StorageError (msg : string)
| CaseNotFoundError (msg : string)
| InvalidStateTransitionError (msg : string)
| LLMServiceError (msg : string)
| PyError (msg : string).
(** [PyError] stands for the exceptions of Python itself and of pydantic
    ([AttributeError], [ValueError], [ValidationError], ...), and for the
    errors of the database client. *)

(** [str(e)]. *)
Definition str (e : Exc) : string :=
  match e with
  | ActionExecutionError m | StorageError m | CaseNotFoundError m
  | InvalidStateTransitionError m | LLMServiceError m | PyError m => m
  end.

Definition is_CaseNotFoundError (e : Exc) : bool :=
  match e with CaseNotFoundError _ => true | _ => false end.

(** ** The monad of code that mutates state and may raise *)

Inductive Res (A : Type) :=
| Ok (a : A)
| Raise (e : Exc).
Arguments Ok {A} a.
Arguments Raise {A} e.

Definition M (S A : Type) : Type := S -> Res A * S.

Definition ret {S A} (a : A) : M S A := fun s => (Ok a, s).

Definition bind {S A B} (m : M S A) (k : A -> M S B) : M S B := fun s =>
  match m s with
  | (Ok a, s') => k a s'
  | (Raise e, s') => (Raise e, s')
  end.

Declare Scope M_scope.
Delimit Scope M_scope with M.
Notation "x ← y ; z" := (bind y (fun x => z))
  (at level 20, y at level 100, z at level 200, only parsing) : M_scope.
Notation "' x ← y ; z" := (bind y (fun x => z))
  (at level 20, x pattern, y at level 100, z at level 200, only parsing) : M_scope.
Notation "x ;; z" := (bind x (fun _ => z))
  (at level 100, z at level 200, only parsing, right associativity) : M_scope.
Open Scope M_scope.

Definition raise {S A} (e : Exc) : M S A := fun s => (Raise e, s).

(** [try: m  except Exception as e: h e]; the handler starts from the
    state the body left behind. *)
Definition try_except {S A} (m : M S A) (h : Exc -> M S A) : M S A := fun s =>
  match m s with
  | (Ok a, s') => (Ok a, s')
  | (Raise e, s') => h e s'
  end.

Definition get_state {S} : M S S := fun s => (Ok s, s).
Definition modify {S} (f : S -> S) : M S unit := fun s => (Ok tt, f s).

(** A computation on the world, run by a method of an object [O] whose
    state is threaded next to the world. *)
Definition in_world {O W A} (m : M W A) : M (O * W) A := fun s =>
  let '(r, w') := m s.2 in (r, (s.1, w')).

(** Read and update the object itself. *)
Definition self {O W} : M (O * W) O := fun s => (Ok s.1, s).
Definition update_self {O W} (f : O -> O) : M (O * W) unit :=
  fun s => (Ok tt, (f s.1, s.2)).

(** Call a method that mutates the object held in a local variable: the
    variable is passed in and its new state is handed back with the result.
    When the method raises, the exception leaves the scope of the local. *)
Definition call_on {O W A} (o : O) (m : M (O * W) A) : M W (A * O) := fun w =>
  match m (o, w) with
  | (Ok a, (o', w')) => (Ok (a, o'), w')
  | (Raise e, (_, w')) => (Raise e, w')
  end.

(** Lift a pydantic validation, or any check that raises. *)
Definition lift_res {S A} (r : Res A) : M S A := fun s => (r, s).

(** [repr(v)] and [str(v)]. *)
Definition quoted (s : string) : string := "'" +:+ s +:+ "'".

Fixpoint py_repr (v : PyVal) : string :=
  match v with
  | PyNone => "None"
  | PyBool true => "True"
  | PyBool false => "False"
  | PyStr s => quoted s
  | PyList l => "[" +:+ join ", " (map quoted l) +:+ "]"
  | PyDict d =>
      "{" +:+ join ", " (map (fun kv => quoted kv.1 +:+ ": " +:+ py_repr kv.2) d) +:+ "}"
  end.

Definition py_str (v : PyVal) : string :=
  match v with
  | PyStr s => s
  | _ => py_repr v
  end.

Fixpoint chars (s : string) : list string :=
  match s with
  | EmptyString => []
  | String a r => String a EmptyString :: chars r
  end.

(** [for x in v]: the items of a list, the characters of a string, the keys
    of a dict; anything else is not iterable. *)
Definition py_iter (v : PyVal) : Res (list string) :=
  match v with
  | PyList l => Ok l
  | PyStr s => Ok (chars s)
  | PyDict d => Ok d.*1
  | PyNone => Raise (PyError "'NoneType' object is not iterable")
  | PyBool _ => Raise (PyError "'bool' object is not iterable")
  end.

(** [v.items()]. *)
Definition py_items (v : PyVal) : Res (list (string * PyVal)) :=
  match v with
  | PyDict d => Ok d
  | _ => Raise (PyError "object has no attribute 'items'")
  end.

(** [v.replace(' ', '_')]. *)
Definition py_replace_spaces (v : PyVal) : Res string :=
  match v with
  | PyStr s => Ok (replace_char " " "_" s)
  | _ => Raise (PyError "object has no attribute 'replace'")
  end.

(** A value handed to a pydantic field of type [str], or [List[str]]. *)
Definition as_str (field : string) (v : PyVal) : Res string :=
  match v with
  | PyStr s => Ok s
  | _ => Raise (PyError (field +:+ ": input should be a valid string"))
  end.

Definition as_str_list (field : string) (v : PyVal) : Res (list string) :=
  match v with
  | PyList l => Ok l
  | _ => Raise (PyError (field +:+ ": input should be a valid list"))
  end.

(** ** core/models.py *)

(** A pydantic [Field(ge=0.0, le=1.0)]. *)
Definition in_unit_interval (q : Q) : bool := Qle_bool 0 q && Qle_bool q 1.

Module EmailContent.
Record t := {
  from_address : string;
  to_address : string;
  subject : string;
  body : string;
  cc : option (list string);
  bcc : option (list string);
  attachments : list string;
}.
End EmailContent.

Module TeamsChatMessage.
Record t := { author : string; text : string; timestamp : option nat }.
End TeamsChatMessage.

Module TeamsContent.
Record t := {
  chat_messages : list TeamsChatMessage.t;
  thread_id : option string;
}.
End TeamsContent.

Module TranscriptTurn.
Record t := { speaker : string; text : string; timestamp : option Q }.
End TranscriptTurn.

Module TranscriptContent.
Record t := {
  transcript_turns : list TranscriptTurn.t;
  call_id : option string;
  duration : option nat;
}.
End TranscriptContent.

Module DocumentContent.
Record t := {
  document_title : string;
  document_text : string;
  document_type : option string;
  page_count : option nat;
}.
End DocumentContent.

(** [Union[EmailContent, TeamsContent, TranscriptContent, DocumentContent]]. *)
Inductive MessageContent :=
| Email (c : EmailContent.t)
| Teams (c : TeamsContent.t)
| Transcript (c : TranscriptContent.t)
| Document (c : DocumentContent.t).

Definition newline : string := String (ascii_of_nat 10) EmptyString.

Module Message.
Record t := {
  id : string;
  timestamp : nat;
  source_type : SourceType;
  content : MessageContent;
  metadata : gmap string PyVal;
  processing_status : ProcessingStatus;
}.

Definition set_processing_status (s : ProcessingStatus) (m : t) : t :=
  {| id := id m; timestamp := timestamp m; source_type := source_type m;
     content := content m; metadata := metadata m; processing_status := s |}.

Definition get_text_content (m : t) : string :=
  match content m with
  | Email c => EmailContent.subject c +:+ newline +:+ EmailContent.body c
  | Teams c =>
      join newline
        (map (fun msg => TeamsChatMessage.author msg +:+ ": " +:+ TeamsChatMessage.text msg)
             (TeamsContent.chat_messages c))
  | Transcript c =>
      join newline
        (map (fun turn => TranscriptTurn.speaker turn +:+ ": " +:+ TranscriptTurn.text turn)
             (TranscriptContent.transcript_turns c))
  | Document c =>
      DocumentContent.document_title c +:+ newline +:+ DocumentContent.document_text c
  end.
End Message.

Module Classification.
Record t := {
  category : MessageCategory;
  confidence : Q;
  reasoning : string;
  is_relevant : bool;
}.

(** The pydantic constructor: [is_relevant] defaults to [True], and the
    only validation is the range of [confidence]. *)
Definition new (category : MessageCategory) (confidence : Q)
    (reasoning : string) (is_relevant : option bool) : Res t :=
  if in_unit_interval confidence then
    Ok {| category := category; confidence := confidence;
          reasoning := reasoning;
          is_relevant := default true is_relevant |}
  else Raise (PyError "confidence: input should be between 0 and 1").

Definition should_process (c : t) : bool :=
  is_relevant c && negb (bool_decide (category c = IRRELEVANT)).
End Classification.

Module ExtractedEntities.
Record t := {
  client_name : option string;
  case_id : option string;
  case_title : option string;
  field_updates : list (string * string);
  missing_fields : list string;
  confidence : Q;
  additional_context : gmap string PyVal;
}.

(** [ExtractedEntities()]. *)
Definition blank : t :=
  {| client_name := None; case_id := None; case_title := None;
     field_updates := []; missing_fields := []; confidence := 1;
     additional_context := ∅ |}.
End ExtractedEntities.

Module Action.
Record t := {
  id : string;
  type : ActionType;
  case_id : option string;
  parameters : gmap string PyVal;
  triggered_by : string;
  created_at : nat;
  executed_at : option nat;
  success : option bool;
  error_message : option string;
}.

Definition set_case_id (v : option string) (a : t) : t :=
  {| id := id a; type := type a; case_id := v; parameters := parameters a;
     triggered_by := triggered_by a; created_at := created_at a;
     executed_at := executed_at a; success := success a;
     error_message := error_message a |}.

Definition set_parameters (v : gmap string PyVal) (a : t) : t :=
  {| id := id a; type := type a; case_id := case_id a; parameters := v;
     triggered_by := triggered_by a; created_at := created_at a;
     executed_at := executed_at a; success := success a;
     error_message := error_message a |}.

Definition set_executed_at (v : option nat) (a : t) : t :=
  {| id := id a; type := type a; case_id := case_id a;
     parameters := parameters a; triggered_by := triggered_by a;
     created_at := created_at a; executed_at := v; success := success a;
     error_message := error_message a |}.

Definition set_success (v : option bool) (a : t) : t :=
  {| id := id a; type := type a; case_id := case_id a;
     parameters := parameters a; triggered_by := triggered_by a;
     created_at := created_at a; executed_at := executed_at a; success := v;
     error_message := error_message a |}.

(** [action.parameters[k] = v]. *)
Definition set_parameter (k : string) (v : PyVal) (a : t) : t :=
  set_parameters (<[k := v]> (parameters a)) a.
End Action.

Module FieldValue.
Record t := {
  field_name : string;
  value : string;
  received_at : nat;
  source_message_id : string;
  confidence : Q;
}.

(** The pydantic constructor: [value] must be a string and [confidence]
    must lie in the unit interval. *)
Definition new (field_name : string) (value : PyVal) (received_at : nat)
    (source_message_id : string) (confidence : Q) : Res t :=
  match value with
  | PyStr value =>
      if in_unit_interval confidence then
        Ok {| field_name := field_name; value := value;
              received_at := received_at;
              source_message_id := source_message_id;
              confidence := confidence |}
      else Raise (PyError "confidence: input should be between 0 and 1")
  | _ => Raise (PyError "value: input should be a valid string")
  end.
End FieldValue.

Module Case.
Record t := {
  id : string;
  client_name : string;
  case_title : string;
  case_type : CaseType;
  status : CaseStatus;
  required_fields : list string;
  received_fields : gmap string FieldValue.t;
  created_at : nat;
  updated_at : nat;
  completed_at : option nat;
  assigned_to : option string;
  tags : list string;
  notes : string;
  metadata : gmap string PyVal;
}.

Definition set_id (v : string) (c : t) : t :=
  {| id := v; client_name := client_name c; case_title := case_title c;
     case_type := case_type c; status := status c;
     required_fields := required_fields c;
     received_fields := received_fields c; created_at := created_at c;
     updated_at := updated_at c; completed_at := completed_at c;
     assigned_to := assigned_to c; tags := tags c; notes := notes c;
     metadata := metadata c |}.

Definition set_status (v : CaseStatus) (c : t) : t :=
  {| id := id c; client_name := client_name c; case_title := case_title c;
     case_type := case_type c; status := v;
     required_fields := required_fields c;
     received_fields := received_fields c; created_at := created_at c;
     updated_at := updated_at c; completed_at := completed_at c;
     assigned_to := assigned_to c; tags := tags c; notes := notes c;
     metadata := metadata c |}.

Definition set_received_fields (v : gmap string FieldValue.t) (c : t) : t :=
  {| id := id c; client_name := client_name c; case_title := case_title c;
     case_type := case_type c; status := status c;
     required_fields := required_fields c;
     received_fields := v; created_at := created_at c;
     updated_at := updated_at c; completed_at := completed_at c;
     assigned_to := assigned_to c; tags := tags c; notes := notes c;
     metadata := metadata c |}.

Definition set_updated_at (v : nat) (c : t) : t :=
  {| id := id c; client_name := client_name c; case_title := case_title c;
     case_type := case_type c; status := status c;
     required_fields := required_fields c;
     received_fields := received_fields c; created_at := created_at c;
     updated_at := v; completed_at := completed_at c;
     assigned_to := assigned_to c; tags := tags c; notes := notes c;
     metadata := metadata c |}.

Definition set_completed_at (v : option nat) (c : t) : t :=
  {| id := id c; client_name := client_name c; case_title := case_title c;
     case_type := case_type c; status := status c;
     required_fields := required_fields c;
     received_fields := received_fields c; created_at := created_at c;
     updated_at := updated_at c; completed_at := v;
     assigned_to := assigned_to c; tags := tags c; notes := notes c;
     metadata := metadata c |}.

(** [set(self.required_fields)] and [set(self.received_fields.keys())]. *)
Definition required (c : t) : gset string := list_to_set (required_fields c).
Definition received (c : t) : gset string := dom (received_fields c).

Definition is_complete (c : t) : bool :=
  if negb (bool_decide (case_type c = LOA)) then
    bool_decide (status c = COMPLETE)
  else
    bool_decide (required c ⊆ received c).

Definition get_missing_fields (c : t) : list string :=
  elements (required c ∖ received c).

Definition get_completion_percentage (c : t) : Q :=
  match required_fields c with
  | [] => 100%Q
  | _ =>
      let received_count :=
        List.length
          (filter (fun f => is_Some (received_fields c !! f)) (required_fields c)) in
      (inject_Z (Z.of_nat received_count)
         / inject_Z (Z.of_nat (List.length (required_fields c))) * 100)%Q
  end.
End Case.

Module Task.
Record t := {
  id : string;
  case_id : option string;
  title : string;
  description : string;
  status : CaseStatus;
  created_at : nat;
  updated_at : nat;
  completed_at : option nat;
  assigned_to : option string;
  due_date : option nat;
}.

Definition set_id (v : string) (k : t) : t :=
  {| id := v; case_id := case_id k; title := title k;
     description := description k; status := status k;
     created_at := created_at k; updated_at := updated_at k;
     completed_at := completed_at k; assigned_to := assigned_to k;
     due_date := due_date k |}.

Definition set_status (v : CaseStatus) (k : t) : t :=
  {| id := id k; case_id := case_id k; title := title k;
     description := description k; status := v;
     created_at := created_at k; updated_at := updated_at k;
     completed_at := completed_at k; assigned_to := assigned_to k;
     due_date := due_date k |}.

Definition set_updated_at (v : nat) (k : t) : t :=
  {| id := id k; case_id := case_id k; title := title k;
     description := description k; status := status k;
     created_at := created_at k; updated_at := v;
     completed_at := completed_at k; assigned_to := assigned_to k;
     due_date := due_date k |}.

Definition set_completed_at (v : option nat) (k : t) : t :=
  {| id := id k; case_id := case_id k; title := title k;
     description := description k; status := status k;
     created_at := created_at k; updated_at := updated_at k;
     completed_at := v; assigned_to := assigned_to k;
     due_date := due_date k |}.
End Task.

(** A state snapshot of an audit entry ([Dict[str, Any]]): a literal dict,
    or the [model_dump()] of a case or of a task.  The empty dict [{}] is
    [StateDict []]; a model dump is never empty. *)
Inductive StateDump :=
| StateDict (d : list (string * PyVal))
| CaseDump (c : Case.t)
| TaskDump (k : Task.t).

Definition empty_state : StateDump := StateDict [].

Module AuditLog.
Record t := {
  id : string;
  timestamp : nat;
  case_id : string;
  action_type : ActionType;
  before_state : StateDump;
  after_state : StateDump;
  triggered_by : string;
  success : bool;
  error_message : option string;
  metadata : gmap string PyVal;
}.

Definition set_id (v : string) (l : t) : t :=
  {| id := v; timestamp := timestamp l; case_id := case_id l;
     action_type := action_type l; before_state := before_state l;
     after_state := after_state l; triggered_by := triggered_by l;
     success := success l; error_message := error_message l;
     metadata := metadata l |}.
End AuditLog.

Module ProcessingResult.
Record t := {
  message_id : string;
  success : bool;
  classification : option Classification.t;
  extracted_entities : option ExtractedEntities.t;
  actions_taken : list Action.t;
  error_message : option string;
  processing_time_ms : option nat;
}.
End ProcessingResult.

Module BatchProcessingResult.
Record t := {
  total_messages : nat;
  processed : nat;
  failed : nat;
  skipped : nat;
  results : list ProcessingResult.t;
  total_time_ms : nat;
}.

Definition get_success_rate (b : t) : Q :=
  if (total_messages b =? 0)%nat then 0%Q
  else (inject_Z (Z.of_nat (processed b))
          / inject_Z (Z.of_nat (total_messages b)) * 100)%Q.
End BatchProcessingResult.

(** ** The world: database, clock, language model *)

Record World := {
  cases : gmap string Case.t;
      (** collection [cases], by document id *)
  tasks : gmap (option string * string) Task.t;
      (** the [tasks] subcollection of each case and the stand-alone
          [tasks] collection, by owning case and document id *)
  audit_logs : list AuditLog.t;
      (** collection [audit_logs], in write order.  The document ids are
          minted from the ticking clock, so that every write adds a
          document. *)
  clock : nat;
  outages : list bool;
      (** outcome of the coming database calls: [true] is a failed call;
          past the end of the list every call succeeds *)
  llm_calls : nat;
      (** number of calls made to the language-model service so far *)
}.

Definition set_cases (v : gmap string Case.t) (w : World) : World :=
  {| cases := v; tasks := tasks w; audit_logs := audit_logs w;
     clock := clock w; outages := outages w; llm_calls := llm_calls w |}.

Definition set_tasks (v : gmap (option string * string) Task.t) (w : World) : World :=
  {| cases := cases w; tasks := v; audit_logs := audit_logs w;
     clock := clock w; outages := outages w; llm_calls := llm_calls w |}.

Definition set_audit_logs (v : list AuditLog.t) (w : World) : World :=
  {| cases := cases w; tasks := tasks w; audit_logs := v;
     clock := clock w; outages := outages w; llm_calls := llm_calls w |}.

Definition set_clock (v : nat) (w : World) : World :=
  {| cases := cases w; tasks := tasks w; audit_logs := audit_logs w;
     clock := v; outages := outages w; llm_calls := llm_calls w |}.

Definition set_outages (v : list bool) (w : World) : World :=
  {| cases := cases w; tasks := tasks w; audit_logs := audit_logs w;
     clock := clock w; outages := v; llm_calls := llm_calls w |}.

Definition set_llm_calls (v : nat) (w : World) : World :=
  {| cases := cases w; tasks := tasks w; audit_logs := audit_logs w;
     clock := clock w; outages := outages w; llm_calls := v |}.

(** [datetime.utcnow()] (and [time.time()]). *)
Definition utcnow : M World nat := fun w =>
  (Ok (clock w), set_clock (S (clock w)) w).

(** The rendering of a time stamp inside an f-string. *)
Definition timestamp_str (t : nat) : string := pretty t.

(** The same reading, inside a method of an object. *)
Definition utcnow_ {O} : M (O * World) nat := in_world utcnow.

(** One round trip to Firestore. *)
Definition firestore_call : M World unit := fun w =>
  match outages w with
  | [] => (Ok tt, w)
  | false :: rest => (Ok tt, set_outages rest w)
  | true :: rest => (Raise (PyError "Firestore unavailable"), set_outages rest w)
  end.

(** ** state/field_tracker.py *)

Module FieldTracker.
Definition get_missing_fields (c : Case.t) : list string :=
  Case.get_missing_fields c.

Definition get_received_fields (c : Case.t) : list string :=
  (map_to_list (Case.received_fields c)).*1.

Definition calculate_completion_percentage (c : Case.t) : Q :=
  Case.get_completion_percentage c.

Definition is_field_received (c : Case.t) (field_name : string) : bool :=
  bool_decide (is_Some (Case.received_fields c !! field_name)).

(** Mutates the case it is given, and returns that same object. *)
Definition add_field_value (field_name : string) (value : PyVal)
    (source_message_id : string) (confidence : Q) : M (Case.t * World) unit :=
  now ← utcnow_;
  field_value ← lift_res
    (FieldValue.new field_name value now source_message_id confidence);
  update_self (fun c =>
    Case.set_received_fields (<[field_name := field_value]> (Case.received_fields c)) c);;
  now' ← utcnow_;
  update_self (Case.set_updated_at now').

Definition categorize_fields (c : Case.t) : gset string * gset string * gset string :=
  (Case.required c ∩ Case.received c,
   Case.required c ∖ Case.received c,
   Case.received c ∖ Case.required c).

Definition get_field_sources (c : Case.t) : gmap string string :=
  FieldValue.source_message_id <$> Case.received_fields c.

(** The names come in the order of the dict; [threshold] defaults to 0.7. *)
Definition get_low_confidence_fields (c : Case.t) (threshold : Q) : list string :=
  (List.filter
     (fun kv : string * FieldValue.t =>
        negb (Qle_bool threshold (FieldValue.confidence kv.2)))
     (map_to_list (Case.received_fields c))).*1.

Definition suggest_next_action (c : Case.t) : string :=
  let missing := get_missing_fields c in
  match missing with
  | [] => "All required fields received. Case can be completed."
  | [field] => "Chase provider for: " +:+ field
  | _ =>
      if (List.length missing <=? 3)%nat
      then "Chase provider for: " +:+ join ", " missing
      else "Chase provider for " +:+ pretty (List.length missing) +:+ " missing fields"
  end.
End FieldTracker.

(** ** state/case_state.py *)

Module CaseStateMachine.
Definition VALID_TRANSITIONS (s : CaseStatus) : list CaseStatus :=
  match s with
  | OPEN => [IN_PROGRESS; CANCELLED]
  | IN_PROGRESS => [AWAITING_INFO; COMPLETE; CANCELLED]
  | AWAITING_INFO => [IN_PROGRESS; COMPLETE; CANCELLED]
  | COMPLETE => []
  | CANCELLED => []
  end.

Definition can_transition (from_status to_status : CaseStatus) : bool :=
  if bool_decide (from_status = to_status) then true
  else bool_decide (to_status ∈ VALID_TRANSITIONS from_status).

Definition validate_transition (new_status : CaseStatus) : M (Case.t * World) unit :=
  case ← self;
  if negb (can_transition (Case.status case) new_status) then
    raise (InvalidStateTransitionError
             ("Invalid state transition for case " +:+ Case.id case +:+ ": "
              +:+ case_status_value (Case.status case) +:+ " → "
              +:+ case_status_value new_status))
  else ret tt.

(** Mutates the case it is given, and returns that same object. *)
Definition transition (new_status : CaseStatus) (validate : bool) : M (Case.t * World) unit :=
  (if validate then validate_transition new_status else ret tt);;
  update_self (Case.set_status new_status);;
  if bool_decide (new_status = COMPLETE) then
    now ← utcnow_;
    update_self (Case.set_completed_at (Some now))
  else ret tt.

Definition should_auto_transition (case : Case.t) : option CaseStatus :=
  if bool_decide (Case.case_type case = LOA) then
    if bool_decide (Case.status case ∈ [IN_PROGRESS; AWAITING_INFO]) then
      if Case.is_complete case then Some COMPLETE
      else
        match Case.get_missing_fields case with
        | _ :: _ =>
            if negb (bool_decide (Case.status case = AWAITING_INFO))
            then Some AWAITING_INFO
            else None
        | [] => None
        end
    else None
  else None.

Definition get_next_states (current_status : CaseStatus) : list CaseStatus :=
  VALID_TRANSITIONS current_status.

Definition is_terminal_state (status : CaseStatus) : bool :=
  (List.length (VALID_TRANSITIONS status) =? 0)%nat.
End CaseStateMachine.

(** ** storage/case_repository.py *)

Module CaseRepository.
Definition task_key (k : Task.t) : option string * string :=
  ((if truthy_str (Task.case_id k) then Task.case_id k else None), Task.id k).

Definition create_case (case : Case.t) : M World Case.t :=
  try_except
    (case ← (if String.eqb (Case.id case) "" then
               now ← utcnow; ret (Case.set_id ("case_" +:+ timestamp_str now) case)
             else ret case);
     firestore_call;;
     modify (fun w => set_cases (<[Case.id case := case]> (cases w)) w);;
     ret case)
    (fun e => raise (StorageError ("Failed to create case: " +:+ str e))).

Definition get_case (case_id : string) : M World Case.t :=
  try_except
    (firestore_call;;
     w ← get_state;
     match cases w !! case_id with
     | None => raise (CaseNotFoundError ("Case not found: " +:+ case_id))
     | Some case => ret case
     end)
    (fun e =>
       if is_CaseNotFoundError e then raise e
       else raise (StorageError ("Failed to get case: " +:+ str e))).

(** Stamps [updated_at] on the case it is given, and returns that same
    object. *)
Definition update_case (case : Case.t) : M World Case.t :=
  try_except
    (get_case (Case.id case);;
     now ← utcnow;
     let case := Case.set_updated_at now case in
     firestore_call;;
     modify (fun w => set_cases (<[Case.id case := case]> (cases w)) w);;
     ret case)
    (fun e => raise (StorageError ("Failed to update case: " +:+ str e))).

Definition open_statuses : list CaseStatus := [OPEN; IN_PROGRESS; AWAITING_INFO].

(** The query returns the first matching document, in the order of the
    store. *)
Definition find_case_by_client_and_title (client_name : string)
    (case_title : option string) : M World (option Case.t) :=
  try_except
    (firestore_call;;
     w ← get_state;
     ret (head (List.filter
       (fun case =>
          String.eqb (Case.client_name case) client_name
          && (if truthy_str case_title
              then bool_decide (Some (Case.case_title case) = case_title)
              else true)
          && bool_decide (Case.status case ∈ open_statuses))
       (map_to_list (cases w)).*2)))
    (fun e => raise (StorageError ("Failed to find case: " +:+ str e))).

Definition add_field_to_case (case_id : string) (field_value : FieldValue.t)
    : M World Case.t :=
  case ← get_case case_id;
  let case :=
    Case.set_received_fields
      (<[FieldValue.field_name field_value := field_value]> (Case.received_fields case))
      case in
  now ← utcnow;
  let case := Case.set_updated_at now case in
  case ← (if Case.is_complete case && negb (bool_decide (Case.status case = COMPLETE)) then
            let case := Case.set_status COMPLETE case in
            now ← utcnow;
            ret (Case.set_completed_at (Some now) case)
          else ret case);
  update_case case.

Definition create_task (task : Task.t) : M World Task.t :=
  try_except
    (task ← (if String.eqb (Task.id task) "" then
               now ← utcnow; ret (Task.set_id ("task_" +:+ timestamp_str now) task)
             else ret task);
     firestore_call;;
     modify (fun w => set_tasks (<[task_key task := task]> (tasks w)) w);;
     ret task)
    (fun e => raise (StorageError ("Failed to create task: " +:+ str e))).

Definition update_task (task : Task.t) : M World Task.t :=
  try_except
    (now ← utcnow;
     let task := Task.set_updated_at now task in
     firestore_call;;
     modify (fun w => set_tasks (<[task_key task := task]> (tasks w)) w);;
     ret task)
    (fun e => raise (StorageError ("Failed to update task: " +:+ str e))).

Definition find_task_by_title (task_title : PyVal) (case_id : option string)
    : M World (option Task.t) :=
  try_except
    (firestore_call;;
     w ← get_state;
     let collection := if truthy_str case_id then case_id else None in
     ret (head (List.filter
       (fun kt : (option string * string) * Task.t =>
          bool_decide (kt.1.1 = collection)
          && match task_title with
             | PyStr title => String.eqb (Task.title kt.2) title
             | _ => false
             end
          && negb (bool_decide (Task.status kt.2 = COMPLETE)))
       (map_to_list (tasks w))).*2))
    (fun e => raise (StorageError ("Failed to find task: " +:+ str e))).

(** Deleting a document that does not exist succeeds; the [tasks]
    subcollection of the case is not deleted with it. *)
Definition delete_case (case_id : string) : M World unit :=
  try_except
    (firestore_call;;
     modify (fun w => set_cases (delete case_id (cases w)) w))
    (fun e => raise (StorageError ("Failed to delete case: " +:+ str e))).
End CaseRepository.

(** ** storage/audit_repository.py *)

Module AuditRepository.
Definition log_action (audit_log : AuditLog.t) : M World AuditLog.t :=
  try_except
    (audit_log ← (if String.eqb (AuditLog.id audit_log) "" then
                    now ← utcnow;
                    ret (AuditLog.set_id ("audit_" +:+ timestamp_str now) audit_log)
                  else ret audit_log);
     firestore_call;;
     modify (fun w => set_audit_logs (audit_logs w ++ [audit_log]) w);;
     ret audit_log)
    (fun e => raise (StorageError ("Failed to log action: " +:+ str e))).
End AuditRepository.

(** ** The language-model service, as the core sees it (llm/service.py)

    Every method may raise.  The answers of the model are not a function of
    the arguments alone: each method also receives the number of calls made
    so far. *)

Record LLMService := {
  classify_message : nat -> Message.t -> Res Classification.t;
  extract_entities : nat -> Message.t -> Classification.t -> Res ExtractedEntities.t;
  determine_action :
    nat -> Message.t -> Classification.t -> ExtractedEntities.t ->
    option Case.t -> Res Action.t;
  generate_followup_email : nat -> Case.t -> PyVal -> Res string;
}.

Definition llm_call {A} (method : nat -> Res A) : M World A := fun w =>
  (method (llm_calls w), set_llm_calls (S (llm_calls w)) w).

(** ** actions/base.py *)

Module ActionHandler.
(** The methods of a handler run on the action they are given: the state
    is the action and the world. *)
Definition log_action (success : bool) (before_state after_state : StateDump)
    (error_message : option string) : M (Action.t * World) unit :=
  action ← self;
  id ← utcnow_;
  timestamp ← utcnow_;
  let audit_log :=
    {| AuditLog.id := "audit_" +:+ timestamp_str id;
       AuditLog.timestamp := timestamp;
       AuditLog.case_id :=
         (if truthy_str (Action.case_id action)
          then default "unknown" (Action.case_id action) else "unknown");
       AuditLog.action_type := Action.type action;
       AuditLog.before_state := before_state;
       AuditLog.after_state := after_state;
       AuditLog.triggered_by := Action.triggered_by action;
       AuditLog.success := success;
       AuditLog.error_message := error_message;
       AuditLog.metadata := {[ "action_id" := PyStr (Action.id action) ]} |} in
  in_world (AuditRepository.log_action audit_log);;
  ret tt.

(** The frame shared by all handler methods:
    [try: body  except Exception as e: log the failure; raise
    ActionExecutionError(f"{what}{e}")]. *)
Definition audited (what : string) (body : M (Action.t * World) bool)
    : M (Action.t * World) bool :=
  try_except body
    (fun e =>
       log_action false empty_state empty_state (Some (str e));;
       raise (ActionExecutionError (what +:+ str e))).

(** [if not action.case_id: raise ActionExecutionError(...)]. *)
Definition require_case_id (kind : string) : M (Action.t * World) string :=
  action ← self;
  match Action.case_id action with
  | Some case_id =>
      if truthy_str (Some case_id) then ret case_id
      else raise (ActionExecutionError ("Case ID required for " +:+ kind +:+ " action"))
  | None => raise (ActionExecutionError ("Case ID required for " +:+ kind +:+ " action"))
  end.

(** [action.success = True; action.executed_at = datetime.utcnow()]. *)
Definition mark_executed : M (Action.t * World) unit :=
  update_self (Action.set_success (Some true));;
  now ← utcnow_;
  update_self (Action.set_executed_at (Some now)).
End ActionHandler.

(** ** actions/case_actions.py *)

Module CaseActionHandler.
Import ActionHandler.

Definition _create_case : M (Action.t * World) bool :=
  audited "Failed to create case: "
    (action ← self;
     let params := Action.parameters action in
     now ← utcnow_;
     client ← lift_res (py_replace_spaces (dict_get params "client_name" (PyStr "unknown")));
     let case_id := "case_" +:+ timestamp_str now +:+ "_" +:+ client in
     let case_type_str := dict_get params "case_type" (PyStr "general") in
     case_type ← lift_res
       (if truthy case_type_str then
          match case_type_str with
          | PyStr s =>
              match case_type_of_value s with
              | Some t => Ok t
              | None => Raise (PyError (quoted s +:+ " is not a valid CaseType"))
              end
          | v => Raise (PyError (py_repr v +:+ " is not a valid CaseType"))
          end
        else Ok GENERAL);
     client_name ← lift_res (as_str "client_name" (dict_get params "client_name" (PyStr "Unknown")));
     case_title ← lift_res
       (as_str "case_title"
          (dict_get params "case_title"
             (PyStr ("Case: " +:+ py_str (dict_get params "client_name" (PyStr "Unknown"))))));
     required_fields ← lift_res
       (as_str_list "required_fields" (dict_get params "required_fields" (PyList [])));
     notes ← lift_res (as_str "notes" (dict_get params "notes" (PyStr "")));
     created_at ← utcnow_;
     updated_at ← utcnow_;
     let case :=
       {| Case.id := case_id; Case.client_name := client_name;
          Case.case_title := case_title; Case.case_type := case_type;
          Case.status := OPEN; Case.required_fields := required_fields;
          Case.received_fields := ∅; Case.created_at := created_at;
          Case.updated_at := updated_at; Case.completed_at := None;
          Case.assigned_to := None; Case.tags := []; Case.notes := notes;
          Case.metadata := ∅ |} in
     created_case ← in_world (CaseRepository.create_case case);
     update_self (Action.set_case_id (Some (Case.id created_case)));;
     mark_executed;;
     log_action true empty_state (CaseDump created_case) None;;
     ret true).

(** [for field_name, field_value in field_updates.items():
    FieldTracker.add_field_value(case, ...)]. *)
Fixpoint add_fields (field_updates : list (string * PyVal))
    (source_message_id : string) : M (Case.t * World) unit :=
  match field_updates with
  | [] => ret tt
  | (field_name, field_value) :: rest =>
      FieldTracker.add_field_value field_name field_value source_message_id 1;;
      add_fields rest source_message_id
  end.

Definition _update_case : M (Action.t * World) bool :=
  audited "Failed to update case: "
    (case_id ← require_case_id "UPDATE_CASE";
     action ← self;
     case ← in_world (CaseRepository.get_case case_id);
     let before_state := CaseDump case in
     field_updates ← lift_res
       (py_items (dict_get (Action.parameters action) "field_updates" (PyDict [])));
     '(_, case) ← in_world
       (call_on case (add_fields field_updates (Action.triggered_by action)));
     let new_status := CaseStateMachine.should_auto_transition case in
     case ← match new_status with
            | Some new_status =>
                '(_, case) ← in_world
                  (call_on case (CaseStateMachine.transition new_status true));
                ret case
            | None => ret case
            end;
     updated_case ← in_world (CaseRepository.update_case case);
     mark_executed;;
     log_action true before_state (CaseDump updated_case) None;;
     ret true).

(** The transitions of [_complete_case], on the case the handler holds:
    through IN_PROGRESS when the case is OPEN or AWAITING_INFO, then to
    COMPLETE. *)
Definition complete_via_in_progress : M (Case.t * World) unit :=
  case ← self;
  (if bool_decide (Case.status case = OPEN)
   then CaseStateMachine.transition IN_PROGRESS true else ret tt);;
  case ← self;
  (if bool_decide (Case.status case = AWAITING_INFO)
   then CaseStateMachine.transition IN_PROGRESS true else ret tt);;
  CaseStateMachine.transition COMPLETE true.

Definition _complete_case : M (Action.t * World) bool :=
  audited "Failed to complete case: "
    (case_id ← require_case_id "COMPLETE_CASE";
     case ← in_world (CaseRepository.get_case case_id);
     let before_state := CaseDump case in
     '(_, case) ← in_world (call_on case complete_via_in_progress);
     updated_case ← in_world (CaseRepository.update_case case);
     mark_executed;;
     log_action true before_state (CaseDump updated_case) None;;
     ret true).

Definition _cancel_case : M (Action.t * World) bool :=
  audited "Failed to cancel case: "
    (case_id ← require_case_id "CANCEL_CASE";
     case ← in_world (CaseRepository.get_case case_id);
     let before_state := CaseDump case in
     '(_, case) ← in_world
       (call_on case (CaseStateMachine.transition CANCELLED true));
     updated_case ← in_world (CaseRepository.update_case case);
     mark_executed;;
     log_action true before_state (CaseDump updated_case) None;;
     ret true).

Definition execute : M (Action.t * World) bool :=
  action ← self;
  match Action.type action with
  | CREATE_CASE => _create_case
  | UPDATE_CASE => _update_case
  | COMPLETE_CASE => _complete_case
  | CANCEL_CASE => _cancel_case
  | t => raise (ActionExecutionError
                  ("Unsupported action type: ActionType." +:+ action_type_value t))
  end.
End CaseActionHandler.

(** ** actions/task_actions.py *)

Module TaskActionHandler.
Import ActionHandler.

Definition _create_task : M (Action.t * World) bool :=
  audited "Failed to create task: "
    (action ← self;
     let params := Action.parameters action in
     now ← utcnow_;
     let task_id := "task_" +:+ timestamp_str now in
     title ← lift_res (as_str "title" (dict_get params "task_title" (PyStr "Unnamed Task")));
     description ← lift_res
       (as_str "description" (dict_get params "task_description" (PyStr "")));
     created_at ← utcnow_;
     updated_at ← utcnow_;
     let task :=
       {| Task.id := task_id; Task.case_id := Action.case_id action;
          Task.title := title; Task.description := description;
          Task.status := OPEN; Task.created_at := created_at;
          Task.updated_at := updated_at; Task.completed_at := None;
          Task.assigned_to := None; Task.due_date := None |} in
     created_task ← in_world (CaseRepository.create_task task);
     mark_executed;;
     update_self (Action.set_parameter "task_id" (PyStr (Task.id created_task)));;
     log_action true empty_state (TaskDump created_task) None;;
     ret true).

Definition _complete_task : M (Action.t * World) bool :=
  audited "Failed to complete task: "
    (action ← self;
     let task_title := dict_get (Action.parameters action) "task_title" PyNone in
     (if negb (truthy task_title) then
        raise (ActionExecutionError "Task title required for COMPLETE_TASK action")
      else ret tt);;
     found ← in_world
       (CaseRepository.find_task_by_title task_title (Action.case_id action));
     match found with
     | None => raise (ActionExecutionError ("Task not found: " +:+ py_str task_title))
     | Some task =>
         let before_state := TaskDump task in
         let task := Task.set_status COMPLETE task in
         now ← utcnow_;
         let task := Task.set_completed_at (Some now) task in
         updated_task ← in_world (CaseRepository.update_task task);
         mark_executed;;
         log_action true before_state (TaskDump updated_task) None;;
         ret true
     end).

Definition execute : M (Action.t * World) bool :=
  action ← self;
  match Action.type action with
  | CREATE_TASK => _create_task
  | COMPLETE_TASK => _complete_task
  | t => raise (ActionExecutionError
                  ("Unsupported action type: ActionType." +:+ action_type_value t))
  end.
End TaskActionHandler.

(** ** actions/followup_actions.py *)

Module FollowupActionHandler.
Import ActionHandler.

Definition _generate_simple_followup (case : Case.t) (missing_fields : PyVal)
    : Res string :=
  match py_iter missing_fields with
  | Raise e => Raise e
  | Ok fields =>
      let fields_list := join newline (map (fun field => "- " +:+ field) fields) in
      Ok ("Dear Provider," +:+ newline +:+ newline
          +:+ "We are following up on the Letter of Authority for "
          +:+ Case.client_name case +:+ "." +:+ newline +:+ newline
          +:+ "We are still awaiting the following information:" +:+ newline
          +:+ fields_list +:+ newline +:+ newline
          +:+ "Please provide these details at your earliest convenience."
          +:+ newline +:+ newline
          +:+ "Thank you for your assistance." +:+ newline +:+ newline
          +:+ "Best regards" +:+ newline)
  end.

Definition _draft_followup_email (llm_service : option LLMService)
    : M (Action.t * World) bool :=
  audited "Failed to draft follow-up email: "
    (case_id ← require_case_id "DRAFT_FOLLOWUP_EMAIL";
     action ← self;
     case ← in_world (CaseRepository.get_case case_id);
     let missing_fields :=
       dict_get (Action.parameters action) "missing_fields"
                (PyList (Case.get_missing_fields case)) in
     if negb (truthy missing_fields) then
       mark_executed;;
       update_self
         (Action.set_parameter "email_content" (PyStr "No missing fields to follow up on."));;
       log_action true empty_state (StateDict [("status", PyStr "no_action_needed")]) None;;
       ret true
     else
       email_content ← in_world
         (match llm_service with
          | Some service =>
              llm_call (fun n => generate_followup_email service n case missing_fields)
          | None => lift_res (_generate_simple_followup case missing_fields)
          end);
       update_self (Action.set_parameter "email_content" (PyStr email_content));;
       update_self (Action.set_parameter "missing_fields" missing_fields);;
       mark_executed;;
       log_action true empty_state
         (StateDict [("email_drafted", PyBool true); ("missing_fields", missing_fields)])
         None;;
       ret true).

Definition _initiate_loa_chase : M (Action.t * World) bool :=
  audited "Failed to initiate LOA chase: "
    (case_id ← require_case_id "INITIATE_LOA_CHASE";
     case ← in_world (CaseRepository.get_case case_id);
     now ← utcnow_;
     let chase_info :=
       [("case_id", PyStr (Case.id case));
        ("case_title", PyStr (Case.case_title case));
        ("client_name", PyStr (Case.client_name case));
        ("missing_fields", PyList (Case.get_missing_fields case));
        ("chase_initiated_at", PyStr (timestamp_str now))] in
     update_self (Action.set_parameter "chase_info" (PyDict chase_info));;
     mark_executed;;
     log_action true empty_state (StateDict chase_info) None;;
     ret true).

Definition execute (llm_service : option LLMService) : M (Action.t * World) bool :=
  action ← self;
  match Action.type action with
  | DRAFT_FOLLOWUP_EMAIL => _draft_followup_email llm_service
  | INITIATE_LOA_CHASE => _initiate_loa_chase
  | t => raise (ActionExecutionError
                  ("Unsupported action type: ActionType." +:+ action_type_value t))
  end.
End FollowupActionHandler.

(** ** actions/router.py *)

Inductive HandlerClass := CaseActions | TaskActions | FollowupActions.

Module ActionRouter.
Definition ACTION_TYPE_TO_HANDLER (t : ActionType) : option HandlerClass :=
  match t with
  | CREATE_CASE | UPDATE_CASE | COMPLETE_CASE | CANCEL_CASE => Some CaseActions
  | CREATE_TASK | COMPLETE_TASK => Some TaskActions
  | DRAFT_FOLLOWUP_EMAIL | INITIATE_LOA_CHASE => Some FollowupActions
  | IGNORE => None
  end.

(** The router owns one instance of each handler class. *)
Definition handlers (llm_service : option LLMService) (c : HandlerClass)
    : M (Action.t * World) bool :=
  match c with
  | CaseActions => CaseActionHandler.execute
  | TaskActions => TaskActionHandler.execute
  | FollowupActions => FollowupActionHandler.execute llm_service
  end.

Definition route_action (llm_service : option LLMService) : M (Action.t * World) bool :=
  action ← self;
  if bool_decide (Action.type action = IGNORE) then ret true
  else
    match ACTION_TYPE_TO_HANDLER (Action.type action) with
    | None => raise (ActionExecutionError
                       ("No handler for action type: ActionType."
                        +:+ action_type_value (Action.type action)))
    | Some handler_class => handlers llm_service handler_class
    end.

(** Runs the actions in order; an action that raises is recorded as
    failed and the next ones still run. *)
Fixpoint route_actions (llm_service : option LLMService) (actions : list Action.t)
    (results : gmap string bool) (w : World)
    : gmap string bool * list Action.t * World :=
  match actions with
  | [] => (results, [], w)
  | action :: rest =>
      let '(r, (action', w')) := route_action llm_service (action, w) in
      let success := match r with Ok b => b | Raise _ => false end in
      let '(results', rest', w'') :=
        route_actions llm_service rest (<[Action.id action' := success]> results) w' in
      (results', action' :: rest', w'')
  end.
End ActionRouter.

(** ** pipeline/pre_filter.py *)

Module PreFilter.
Definition SPAM_KEYWORDS : gset string :=
  list_to_set
    ["unsubscribe"; "newsletter"; "marketing"; "promotion";
     "discount"; "sale"; "offer"; "click here"; "buy now"].

Definition RELEVANT_KEYWORDS : gset string :=
  list_to_set
    ["loa"; "letter of authority"; "policy"; "plan number";
     "valuation"; "pension"; "investment"; "platform";
     "client"; "case"; "annual review"; "dob"; "date of birth";
     "ni number"; "national insurance"].

Definition SPAM_DOMAINS : gset string :=
  list_to_set ["newsletter.com"; "marketing.com"; "randomcorp.com"].

Definition WHITELIST_DOMAINS : gset string :=
  list_to_set ["firm.com"; "example.com"; "abcplatform.com"].

Record t := {
  spam_keywords : gset string;
  relevant_keywords : gset string;
  spam_domains : gset string;
  whitelist_domains : gset string;
}.

(** [given or fallback]: an absent or empty set gives way to the class
    constant. *)
Definition or_default (given : option (gset string)) (fallback : gset string)
    : gset string :=
  match given with
  | Some s => if decide (s = ∅) then fallback else s
  | None => fallback
  end.

Definition new (spam_keywords relevant_keywords spam_domains whitelist_domains
    : option (gset string)) : t :=
  {| spam_keywords := or_default spam_keywords SPAM_KEYWORDS;
     relevant_keywords := or_default relevant_keywords RELEVANT_KEYWORDS;
     spam_domains := or_default spam_domains SPAM_DOMAINS;
     whitelist_domains := or_default whitelist_domains WHITELIST_DOMAINS |}.

(** [message.content.from_address], when the content has that attribute. *)
Definition from_address_of (message : Message.t) : option string :=
  match Message.content message with
  | Email c => Some (EmailContent.from_address c)
  | _ => None
  end.

Definition whitelisted (f : t) (from_address : string) : bool :=
  any_in (elements (whitelist_domains f)) from_address.

Definition blacklisted (f : t) (from_address : string) : bool :=
  any_in (elements (spam_domains f)) from_address.

Definition spam_score (f : t) (text : string) : nat :=
  count_in (elements (spam_keywords f)) text.

Definition relevant_score (f : t) (text : string) : nat :=
  count_in (elements (relevant_keywords f)) text.

(** The verdict of the sender checks, if they reach one. *)
Definition sender_verdict (f : t) (message : Message.t) : option bool :=
  match from_address_of message with
  | Some from_address =>
      let from_address := lower from_address in
      if whitelisted f from_address then Some true
      else if blacklisted f from_address then Some false
      else None
  | None => None
  end.

Definition should_process (f : t) (message : Message.t) : bool :=
  let text := lower (Message.get_text_content message) in
  match sender_verdict f message with
  | Some verdict => verdict
  | None =>
      if (2 <=? spam_score f text)%nat then false
      else if (1 <=? relevant_score f text)%nat then true
      else true
  end.

(** The dict returned by [get_filter_stats]. *)
Record FilterStats := {
  total : Z;
  to_process : Z;
  filtered : Z;
  filter_rate : Q;
}.

Definition get_filter_stats (f : t) (messages : list Message.t) : FilterStats :=
  let total := Z.of_nat (List.length messages) in
  let to_process := Z.of_nat (List.length (List.filter (should_process f) messages)) in
  let filtered := (total - to_process)%Z in
  {| total := total; to_process := to_process; filtered := filtered;
     filter_rate :=
       if (0 <? total)%Z then (inject_Z filtered / inject_Z total * 100)%Q else 0%Q |}.
End PreFilter.

(** ** llm/llm_client.py: the retry loop of [generate_text] *)

Module LLMClient.
(** What one [asyncio.wait_for(_generate_text(), timeout)] comes to: the
    text of the reply, a time-out, or any other exception. *)
Inductive Attempt :=
| Returned (text : string)
| TimedOut
| Failed (e : Exc).

(** [while max_tries > 0: ...] from the attempt number [k] on.  A reply is
    returned and an exception other than a time-out propagates; a time-out
    takes one off [max_tries] and goes round again.  Past the loop the
    function ends without a [return]: its value is [None]. *)
Fixpoint retry (attempt : nat -> Attempt) (k : nat) (max_tries : nat)
    : Res (option string) :=
  match max_tries with
  | O => Ok None
  | S max_tries =>
      match attempt k with
      | Returned text => Ok (Some text)
      | TimedOut => retry attempt (S k) max_tries
      | Failed e => Raise e
      end
  end.

Definition generate_text (attempt : nat -> Attempt) (max_tries : Z)
    : Res (option string) :=
  retry attempt 0 (Z.to_nat max_tries).
End LLMClient.

(** ** llm/service.py: the default classification *)

(** What [json.loads] returns. *)
#[local] Set Warnings "-register-all".
Inductive Json :=
| JNull
| JBool (b : bool)
| JNum (q : Q)
| JStr (s : string)
| JArr (l : list Json)
| JObj (d : list (string * Json)).
#[local] Set Warnings "register-all".

Definition json_truthy (v : Json) : bool :=
  match v with
  | JNull => false
  | JBool b => b
  | JNum q => negb (Qeq_bool q 0)
  | JStr s => negb (String.eqb s "")
  | JArr l => match l with [] => false | _ => true end
  | JObj d => match d with [] => false | _ => true end
  end.

(** [parsed.get(k)]: the last binding of a repeated key wins. *)
Fixpoint json_get (d : list (string * Json)) (k : string) : Json :=
  match d with
  | [] => JNull
  | (k', v) :: rest =>
      if existsb (String.eqb k) rest.*1 then json_get rest k
      else if String.eqb k' k then v
      else JNull
  end.

Definition category_of_value (s : string) : option MessageCategory :=
  if String.eqb s "CLIENT_TASK" then Some CLIENT_TASK
  else if String.eqb s "LOA_CHASE" then Some LOA_CHASE
  else if String.eqb s "LOA_MISSING_INFO" then Some LOA_MISSING_INFO
  else if String.eqb s "LOA_RESPONSE" then Some LOA_RESPONSE
  else if String.eqb s "ADMIN" then Some ADMIN
  else if String.eqb s "IRRELEVANT" then Some IRRELEVANT
  else None.

(** Regular expressions and dicts of llm/service.py. *)

Definition is_digit (a : ascii) : bool :=
  let n := nat_of_ascii a in (48 <=? n)%nat && (n <=? 57)%nat.

(** The class [[0-9A-Za-z]]. *)
Definition is_alnum (a : ascii) : bool := is_digit a || is_upper a || is_lower a.

(** [re.sub(r"C+", "_", s)] for a character class [C]: every maximal run
    of characters of the class becomes one underscore.  [in_run] tells
    that the character before was in the class. *)
Fixpoint sub_runs (in_class : ascii -> bool) (in_run : bool) (s : string) : string :=
  match s with
  | EmptyString => EmptyString
  | String a r =>
      if in_class a then
        if in_run then sub_runs in_class true r
        else String "_" (sub_runs in_class true r)
      else String a (sub_runs in_class false r)
  end.

Fixpoint lstrip_chars (in_chars : ascii -> bool) (s : string) : string :=
  match s with
  | String a r => if in_chars a then lstrip_chars in_chars r else s
  | EmptyString => EmptyString
  end.

(** [s.strip(chars)]. *)
Definition strip_chars (in_chars : ascii -> bool) (s : string) : string :=
  String.rev (lstrip_chars in_chars (String.rev (lstrip_chars in_chars s))).

(** [d[k] = v] on a dict kept as the list of its items: the value of a
    key that is there is replaced in place, a new key goes to the end. *)
Fixpoint assoc_set {V} (k : string) (v : V) (d : list (string * V)) : list (string * V) :=
  match d with
  | [] => [(k, v)]
  | (k', v') :: rest =>
      if String.eqb k' k then (k, v) :: rest else (k', v') :: assoc_set k v rest
  end.

(** [d.setdefault(k, v)]. *)
Definition setdefault (k : string) (v : PyVal) (d : gmap string PyVal) : gmap string PyVal :=
  match d !! k with
  | Some _ => d
  | None => <[k := v]> d
  end.

Definition py_optional_str (o : option string) : PyVal :=
  match o with
  | Some s => PyStr s
  | None => PyNone
  end.

Module DefaultLLMService.
Section Client.
(** The client of the model provider and the JSON reader are outside
    the core: [from_llm_name n] is the construction of the client at
    the [n]-th call, which may raise; [generate_text n system text] is
    the reply to the prompt, an exception, or no text;
    [parse_first_json_object] yields the first JSON object of a reply
    when there is one; [float_of_str] is Python's [float] on strings
    and [str_of_json] is Python's [str].

    The system prompt is formatted from
    [MessageCategory.get_all_values()] and
    [MessageCategory.get_all_enums()].  core/enums.py defines neither
    method, so [system_message] is a parameter: with the enum as it
    stands it is the [AttributeError] of the first lookup. *)
Variable from_llm_name : nat -> Res unit.
Variable system_message : Res string.
Variable generate_text : nat -> string -> string -> Res (option string).
Variable parse_first_json_object : string -> option (list (string * Json)).
Variable float_of_str : string -> option Q.
Variable str_of_json : Json -> string.

Definition _clamp_float (value : Json) (default : Q) : Q :=
  let f :=
    match value with
    | JNum q => Some q
    | JBool b => Some (if b then 1%Q else 0%Q)
    | JStr s => float_of_str s
    | _ => None
    end in
  match f with
  | None => default
  | Some f =>
      if Qlt_le_dec f 0 then 0%Q
      else if Qlt_le_dec 1 f then 1%Q
      else f
  end.

Definition normalise (value : string) : string :=
  replace_char " " "_" (replace_char "-" "_" (upper value)).

Definition _safe_category (value : string) : option MessageCategory :=
  let value := normalise value in
  let value :=
    if String.eqb value "MISSING_INFO" then "LOA_MISSING_INFO"
    else if String.eqb value "CHASE" then "LOA_CHASE"
    else if String.eqb value "RESPONSE" then "LOA_RESPONSE"
    else value in
  category_of_value value.

Definition _heuristic_classification (text fallback_reason : string)
    : Res Classification.t :=
  let lower := lower text in
  let '(category, is_relevant) :=
    if any_in ["unsubscribe"; "out of office"; "newsletter"; "meeting";
               "invoice"; "billing"] lower
    then (ADMIN, false)
    else if any_in ["missing"; "provide"; "required"; "need more";
                    "can't process"; "insufficient"] lower
    then (LOA_MISSING_INFO, true)
    else if any_in ["attached"; "signed loa"; "authorised"; "policy";
                    "plan number"; "dob"; "ni number"; "national insurance"] lower
    then (LOA_RESPONSE, true)
    else if any_in ["follow up"; "chase"; "status"; "update on"; "when can";
                    "awaiting"] lower
    then (LOA_CHASE, true)
    else if any_in ["open a case"; "create case"; "start loa"; "onboard";
                    "annual review"; "task"] lower
    then (CLIENT_TASK, true)
    else (IRRELEVANT, false) in
  Classification.new category (if is_relevant then 0.6%Q else 0.5%Q)
    fallback_reason (Some is_relevant).

(** The part of [classify_message] that reads the reply of the model. *)
Definition classify_reply (text : string) (response : option string)
    : Res Classification.t :=
  let unparsed :=
    _heuristic_classification text "Unable to parse LLM response" in
  match response with
  | None => unparsed
  | Some response =>
      if String.eqb response "" then unparsed
      else
        match parse_first_json_object response with
        | None => unparsed
        | Some parsed =>
            match
              (match json_get parsed "category" with
               | JStr s => Ok s
               | v => if json_truthy v
                      then Raise (PyError "object has no attribute 'upper'")
                      else Ok ""
               end)
            with
            | Raise e => Raise e
            | Ok cat_val =>
                let cat_val := normalise cat_val in
                let category := _safe_category cat_val in
                let confidence := _clamp_float (json_get parsed "confidence") 0.6%Q in
                let reasoning :=
                  let r := json_get parsed "reasoning" in
                  String.substring 0 200
                    (strip (if json_truthy r
                            then match r with JStr s => s | v => str_of_json v end
                            else "No reasoning provided")) in
                let is_relevant := json_truthy (json_get parsed "is_relevant") in
                match category with
                | Some category =>
                    let is_relevant :=
                      if bool_decide (category = IRRELEVANT)
                         || bool_decide (category = ADMIN)
                      then false else is_relevant in
                    Classification.new category confidence reasoning (Some is_relevant)
                | None => unparsed
                end
            end
        end
  end.

Definition classify_message (n : nat) (message : Message.t) : Res Classification.t :=
  let text := strip (Message.get_text_content message) in
  if String.eqb text "" then
    Classification.new IRRELEVANT 1 "Empty message content" (Some false)
  else
    match from_llm_name n with
    | Raise e => Raise e
    | Ok _ =>
        match system_message with
        | Raise e => Raise e
        | Ok system_message =>
            match generate_text n system_message text with
            | Raise e =>
                _heuristic_classification text ("LLM error: " +:+ str e)
            | Ok response => classify_reply text response
            end
        end
    end.

Definition _to_snake (s : string) : string :=
  let s := sub_runs (fun a => negb (is_alnum a)) false (strip s) in
  let s := sub_runs (Ascii.eqb "_") false s in
  lower (strip_chars (Ascii.eqb "_") s).

(** The four [if key in {...}: key = ...] of [_canonicalize_field_updates],
    in their order. *)
Definition canonical_key (key : string) : string :=
  let key :=
    if bool_decide (key ∈ ["dob"; "dateofbirth"]) then "date_of_birth" else key in
  let key :=
    if bool_decide (key ∈ ["ni"; "ni_number"; "nationalinsurancenumber";
                           "national_insurance"])
    then "national_insurance_number" else key in
  let key :=
    if bool_decide (key ∈ ["policy_number"; "policynumber"; "plan"; "plannumber"])
    then "plan_number" else key in
  if bool_decide (key ∈ ["provider"; "providername"]) then "provider_name" else key.

(** [updates] holds the items of the dict, in its order. *)
Definition _canonicalize_field_updates (updates : list (string * Json))
    : list (string * string) :=
  foldl
    (fun canonical kv =>
       let key := _to_snake kv.1 in
       let val :=
         match kv.2 with
         | JNull => ""
         | JStr s => strip s
         | v => strip (str_of_json v)
         end in
       assoc_set (canonical_key key) val canonical)
    [] updates.

Definition followup_system_message : string :=
  "You draft clear, professional, concise emails to financial providers." +:+ newline
  +:+ "Return plain text only, no greetings beyond the email body, no signatures unless asked."
  +:+ newline
  +:+ "Keep tone polite and direct. UK English. 120-200 words. Include list formatting for missing fields.".

Definition followup_user_prompt (case : Case.t) (fields_list : string) : string :=
  "Draft a follow-up email to the provider about an LoA case." +:+ newline +:+ newline
  +:+ "Client name: " +:+ Case.client_name case +:+ newline
  +:+ "Case title: " +:+ Case.case_title case +:+ newline
  +:+ "Missing fields (bullet list):" +:+ newline
  +:+ fields_list +:+ newline +:+ newline
  +:+ "Constraints:" +:+ newline
  +:+ "- Ask for the specific missing information above" +:+ newline
  +:+ "- Reference the case succinctly" +:+ newline
  +:+ "- Thank the recipient and request a response" +:+ newline
  +:+ "- Return plain text only".

Definition followup_fallback (case : Case.t) (fields_list : string) : string :=
  "Dear Provider," +:+ newline +:+ newline
  +:+ "We are following up on the Letter of Authority for " +:+ Case.client_name case
  +:+ " (Case: " +:+ Case.case_title case +:+ ")." +:+ newline +:+ newline
  +:+ "We are still awaiting the following information:" +:+ newline
  +:+ fields_list +:+ newline +:+ newline
  +:+ "Please provide these details at your earliest convenience to complete our records."
  +:+ newline +:+ newline
  +:+ "Kind regards," +:+ newline
  +:+ "LoA Team".

(** The client is built outside the [try]: when that fails the
    exception goes to the caller, template or not. *)
Definition generate_followup_email (n : nat) (case : Case.t) (missing_fields : PyVal)
    : Res string :=
  match py_iter missing_fields with
  | Raise e => Raise e
  | Ok fields =>
      let fields_list := join newline (map (fun f => "- " +:+ f) fields) in
      match from_llm_name n with
      | Raise e => Raise e
      | Ok _ =>
          match generate_text n followup_system_message
                  (followup_user_prompt case fields_list) with
          | Ok (Some email) =>
              let email := strip email in
              if String.eqb email "" then Ok (followup_fallback case fields_list)
              else Ok email
          | Ok None => Ok (followup_fallback case fields_list)
          | Raise _ => Ok (followup_fallback case fields_list)
          end
      end
  end.
End Client.

(** [Action(type=..., case_id=..., parameters=..., triggered_by=...)]:
    the id and the creation time come from the clock. *)
Definition new_action (type : ActionType) (case_id : option string)
    (parameters : gmap string PyVal) (triggered_by : string) : M World Action.t :=
  id ← utcnow;
  created_at ← utcnow;
  ret {| Action.id := "action_" +:+ timestamp_str id; Action.type := type;
         Action.case_id := case_id; Action.parameters := parameters;
         Action.triggered_by := triggered_by; Action.created_at := created_at;
         Action.executed_at := None; Action.success := None;
         Action.error_message := None |}.

Definition LOA_REQUIRED_FIELDS : list string :=
  ["date_of_birth"; "national_insurance_number"; "plan_number"; "provider_name"].

Definition determine_action (message : Message.t) (classification : Classification.t)
    (entities : ExtractedEntities.t) (existing_case : option Case.t) : M World Action.t :=
  let category := Classification.category classification in
  let case_id := Case.id <$> existing_case in
  if bool_decide (category ∈ [IRRELEVANT; ADMIN]) then
    new_action IGNORE case_id ∅ (Message.id message)
  else
    let field_updates := ExtractedEntities.field_updates entities in
    let missing_fields := ExtractedEntities.missing_fields entities in
    let has_updates := match field_updates with [] => false | _ => true end in
    let is_loa_related :=
      bool_decide (category ∈ [LOA_CHASE; LOA_MISSING_INFO; LOA_RESPONSE]) in
    let case_type := if is_loa_related then LOA else GENERAL in
    let '(action_type, missing_fields) :=
      match existing_case with
      | Some existing =>
          if bool_decide (category = LOA_RESPONSE) && has_updates then
            (UPDATE_CASE, missing_fields)
          else if bool_decide (category = LOA_MISSING_INFO) then
            (DRAFT_FOLLOWUP_EMAIL,
             match missing_fields with
             | [] => Case.get_missing_fields existing
             | _ => missing_fields
             end)
          else if bool_decide (category = CLIENT_TASK) then (CREATE_TASK, missing_fields)
          else if bool_decide (category = LOA_CHASE) then (INITIATE_LOA_CHASE, missing_fields)
          else ((if has_updates then UPDATE_CASE else IGNORE), missing_fields)
      | None =>
          if bool_decide (category ∈ [CLIENT_TASK; LOA_RESPONSE; LOA_MISSING_INFO]) then
            (CREATE_CASE, missing_fields)
          else if bool_decide (category = LOA_CHASE) then (CREATE_CASE, missing_fields)
          else (IGNORE, missing_fields)
      end in
    let parameters : gmap string PyVal :=
      <["missing_fields" := PyList missing_fields]>
        (<["field_updates" := PyDict (map (fun kv => (kv.1, PyStr kv.2)) field_updates)]>
           (<["case_title" := py_optional_str (ExtractedEntities.case_title entities)]>
              {[ "client_name" := py_optional_str (ExtractedEntities.client_name entities) ]})) in
    let parameters :=
      if bool_decide (action_type = CREATE_CASE) then
        let parameters := <["case_type" := PyStr (case_type_value case_type)]> parameters in
        if bool_decide (case_type = LOA)
        then setdefault "required_fields" (PyList LOA_REQUIRED_FIELDS) parameters
        else parameters
      else parameters in
    let parameters :=
      if bool_decide (action_type ∈ [CREATE_TASK; COMPLETE_TASK]) then
        setdefault "task_description"
          (PyStr (String.substring 0 500 (Message.get_text_content message)))
          (setdefault "task_title"
             (PyStr (let title := ExtractedEntities.case_title entities in
                     if truthy_str title then default "Client task" title
                     else "Client task"))
             parameters)
      else parameters in
    new_action action_type case_id parameters (Message.id message).
End DefaultLLMService.

(** ** llm/mock_service.py: the mock classification *)

Module MockLLMService.
Definition classify_message (n : nat) (message : Message.t) : Res Classification.t :=
  let expected_category := dict_get (Message.metadata message) "expected_category" PyNone in
  if truthy expected_category then
    match
      (match expected_category with
       | PyStr s => category_of_value s
       | _ => None
       end)
    with
    | None => Raise (PyError (py_repr expected_category +:+ " is not a valid MessageCategory"))
    | Some category =>
        let is_relevant := negb (bool_decide (category = IRRELEVANT)) in
        Classification.new category 1
          ("Mock classification: Message categorized as " +:+ category_value category)
          (Some is_relevant)
    end
  else
    Classification.new IRRELEVANT 0.5%Q
      "Mock classification: No expected category in metadata" (Some false).
End MockLLMService.

(** ** pipeline/orchestrator.py *)

(** The dict returned by [validate_result]. *)
Module Validation.
Record t := {
  message_id : string;
  passed : bool;
  errors : list string;
}.

(** [validation["passed"] = False; validation["errors"].append(error)]. *)
Definition fail (error : string) (v : t) : t :=
  {| message_id := message_id v; passed := false;
     errors := (errors v ++ [error])%list |}.
End Validation.

(** [actual != expected], for a string and a value of the metadata. *)
Definition differs (actual : string) (expected : PyVal) : bool :=
  match expected with
  | PyStr s => negb (String.eqb actual s)
  | _ => true
  end.

Module PipelineOrchestrator.
Section Orchestrator.
Variable llm_service : LLMService.
Variable pre_filter : PreFilter.t.

Definition elapsed_ms (start_time end_time : nat) : option nat :=
  Some ((end_time - start_time) * 1000).

(** The body of the [try] of [process_message]; the state is the
    message and the world. *)
Definition process_message_body (start_time : nat)
    : M (Message.t * World) ProcessingResult.t :=
  message ← self;
  (* Step 1: pre-filter *)
  if negb (PreFilter.should_process pre_filter message) then
    classification ← lift_res
      (Classification.new IRRELEVANT 1
         "Filtered out by pre-filter (spam/marketing)" (Some false));
    end_time ← utcnow_;
    ret {| ProcessingResult.message_id := Message.id message;
           ProcessingResult.success := true;
           ProcessingResult.classification := Some classification;
           ProcessingResult.extracted_entities := None;
           ProcessingResult.actions_taken := [];
           ProcessingResult.error_message := None;
           ProcessingResult.processing_time_ms := elapsed_ms start_time end_time |}
  else
    (* Step 2: classify *)
    classification ← in_world
      (llm_call (fun n => classify_message llm_service n message));
    if negb (Classification.should_process classification) then
      end_time ← utcnow_;
      ret {| ProcessingResult.message_id := Message.id message;
             ProcessingResult.success := true;
             ProcessingResult.classification := Some classification;
             ProcessingResult.extracted_entities := None;
             ProcessingResult.actions_taken := [];
             ProcessingResult.error_message := None;
             ProcessingResult.processing_time_ms := elapsed_ms start_time end_time |}
    else
      (* Step 3: extract entities *)
      entities ← in_world
        (llm_call (fun n => extract_entities llm_service n message classification));
      (* Step 4: find the existing case, if one is referenced *)
      existing_case ←
        (match ExtractedEntities.client_name entities with
         | Some client_name =>
             if truthy_str (Some client_name) then
               in_world (CaseRepository.find_case_by_client_and_title
                           client_name (ExtractedEntities.case_title entities))
             else ret None
         | None => ret None
         end);
      (* Step 5: determine the action *)
      action ← in_world
        (llm_call (fun n =>
           determine_action llm_service n message classification entities existing_case));
      let action :=
        match existing_case with
        | Some case =>
            if negb (truthy_str (Action.case_id action))
            then Action.set_case_id (Some (Case.id case)) action
            else action
        | None => action
        end in
      (* Step 6: execute the action *)
      actions_taken ←
        (if negb (String.eqb (action_type_value (Action.type action)) "IGNORE") then
           '(success, action) ← in_world
             (call_on action (ActionRouter.route_action (Some llm_service)));
           ret [Action.set_success (Some success) action]
         else ret []);
      (* Step 7: update the status of the message *)
      update_self (Message.set_processing_status PROCESSED);;
      end_time ← utcnow_;
      ret {| ProcessingResult.message_id := Message.id message;
             ProcessingResult.success := true;
             ProcessingResult.classification := Some classification;
             ProcessingResult.extracted_entities := Some entities;
             ProcessingResult.actions_taken := actions_taken;
             ProcessingResult.error_message := None;
             ProcessingResult.processing_time_ms := elapsed_ms start_time end_time |}.

(** The [except Exception as e] of [process_message]. *)
Definition process_message_failed (start_time : nat) (e : Exc)
    : M (Message.t * World) ProcessingResult.t :=
  message ← self;
  update_self (Message.set_processing_status FAILED);;
  end_time ← utcnow_;
  ret {| ProcessingResult.message_id := Message.id message;
         ProcessingResult.success := false;
         ProcessingResult.classification := None;
         ProcessingResult.extracted_entities := None;
         ProcessingResult.actions_taken := [];
         ProcessingResult.error_message := Some (str e);
         ProcessingResult.processing_time_ms := elapsed_ms start_time end_time |}.

(** Mutates the message it is given: the message is handed back with
    the result. *)
Definition process_message (message : Message.t)
    : M World (ProcessingResult.t * Message.t) :=
  start_time ← utcnow;
  call_on message
    (try_except (process_message_body start_time)
                (process_message_failed start_time)).

(** Whether a successful result counts as processed. *)
Definition counts_as_processed (result : ProcessingResult.t) : bool :=
  match ProcessingResult.classification result with
  | Some classification => Classification.should_process classification
  | None => false
  end.

(** The counters of [process_batch]. *)
Record Tally := {
  results_so_far : list ProcessingResult.t;
  processed_count : nat;
  failed_count : nat;
  skipped_count : nat;
}.

Definition tally (result : ProcessingResult.t) (t : Tally) : Tally :=
  let results := (results_so_far t ++ [result])%list in
  if ProcessingResult.success result then
    if counts_as_processed result then
      {| results_so_far := results; processed_count := processed_count t + 1;
         failed_count := failed_count t; skipped_count := skipped_count t |}
    else
      {| results_so_far := results; processed_count := processed_count t;
         failed_count := failed_count t; skipped_count := skipped_count t + 1 |}
  else
    {| results_so_far := results; processed_count := processed_count t;
       failed_count := failed_count t + 1; skipped_count := skipped_count t |}.

(** [for message in messages: ...]; the messages are handed back in
    their new state. *)
Fixpoint process_each (messages : list Message.t) (t : Tally)
    : M World (Tally * list Message.t) :=
  match messages with
  | [] => ret (t, [])
  | message :: rest =>
      '(result, message) ← process_message message;
      '(t, rest) ← process_each rest (tally result t);
      ret (t, message :: rest)
  end.

Definition process_batch (messages : list Message.t)
    : M World (BatchProcessingResult.t * list Message.t) :=
  start_time ← utcnow;
  '(t, messages') ← process_each messages
    {| results_so_far := []; processed_count := 0;
       failed_count := 0; skipped_count := 0 |};
  end_time ← utcnow;
  ret ({| BatchProcessingResult.total_messages := List.length messages;
          BatchProcessingResult.processed := processed_count t;
          BatchProcessingResult.failed := failed_count t;
          BatchProcessingResult.skipped := skipped_count t;
          BatchProcessingResult.results := results_so_far t;
          BatchProcessingResult.total_time_ms := (end_time - start_time) * 1000 |},
       messages').

Definition validate_result (message : Message.t) (result : ProcessingResult.t)
    : Validation.t :=
  let validation :=
    {| Validation.message_id := Message.id message; Validation.passed := true;
       Validation.errors := [] |} in
  let metadata := Message.metadata message in
  (* the classification *)
  let expected_category := dict_get metadata "expected_category" PyNone in
  let validation :=
    if truthy expected_category then
      match ProcessingResult.classification result with
      | Some classification =>
          let actual := category_value (Classification.category classification) in
          if differs actual expected_category then
            Validation.fail
              ("Category mismatch: expected " +:+ py_str expected_category
               +:+ ", got " +:+ actual)
              validation
          else validation
      | None => validation
      end
    else validation in
  (* the action *)
  let expected_action := dict_get metadata "expected_action" PyNone in
  let validation :=
    if truthy expected_action then
      match ProcessingResult.actions_taken result with
      | action :: _ =>
          let actual_action := action_type_value (Action.type action) in
          if differs actual_action expected_action then
            Validation.fail
              ("Action mismatch: expected " +:+ py_str expected_action
               +:+ ", got " +:+ actual_action)
              validation
          else validation
      | [] =>
          Validation.fail ("No action taken, expected " +:+ py_str expected_action)
            validation
      end
    else validation in
  (* the client name *)
  let expected_client := dict_get metadata "expected_client_name" PyNone in
  if truthy expected_client then
    match ProcessingResult.extracted_entities result with
    | Some entities =>
        let actual_client := ExtractedEntities.client_name entities in
        if match actual_client with
           | Some name => differs name expected_client
           | None => true
           end
        then
          Validation.fail
            ("Client name mismatch: expected " +:+ py_str expected_client
             +:+ ", got " +:+ default "None" actual_client)
            validation
        else validation
    | None => validation
    end
  else validation.
End Orchestrator.
End PipelineOrchestrator.

(** ** Vocabulary of the statements *)

(** The entry that [log_action] writes for an action at a given time. *)
Definition audit_entry (action : Action.t) (now : nat) (success : bool)
    (before_state after_state : StateDump) (error_message : option string) : AuditLog.t :=
  {| AuditLog.id := "audit_" +:+ timestamp_str now;
     AuditLog.timestamp := S now;
     AuditLog.case_id :=
       (if truthy_str (Action.case_id action)
        then default "unknown" (Action.case_id action) else "unknown");
     AuditLog.action_type := Action.type action;
     AuditLog.before_state := before_state;
     AuditLog.after_state := after_state;
     AuditLog.triggered_by := Action.triggered_by action;
     AuditLog.success := success;
     AuditLog.error_message := error_message;
     AuditLog.metadata := {[ "action_id" := PyStr (Action.id action) ]} |}.

(** The derived rule on relevance: a classification in category ADMIN or
    IRRELEVANT is not relevant. *)
Definition normalised (c : Classification.t) : Prop :=
  Classification.category c = ADMIN \/ Classification.category c = IRRELEVANT ->
  Classification.is_relevant c = false.

(** A computation that leaves a part of the state as it found it, whatever
    its outcome; [part] reads that part off the state. *)
Definition preserves {S T A} (part : S -> T) (m : M S A) : Prop :=
  forall s, part (m s).2 = part s.

(** A computation whose results, when it returns, all satisfy [P]. *)
Definition returns {S A} (P : A -> Prop) (m : M S A) : Prop :=
  forall s a s', m s = (Ok a, s') -> P a.

Definition trail_of {O} (s : O * World) : list AuditLog.t := audit_logs s.2.

(** A handler body that writes one entry when it returns, a successful one,
    and none when it raises. *)
Definition logs_once (body : M (Action.t * World) bool) : Prop :=
  forall s,
    match body s with
    | (Ok b, s') =>
        b = true
        /\ exists entry,
             trail_of s' = (trail_of s ++ [entry])%list
             /\ AuditLog.success entry = true
    | (Raise _, s') => trail_of s' = trail_of s
    end.

(** What an audited execution leaves behind, from the trail [before] to the
    trail [after], by outcome. *)
Definition audited_outcome (r : Res bool) (before after : list AuditLog.t) : Prop :=
  match r with
  | Ok b =>
      b = true
      /\ exists entry,
           after = (before ++ [entry])%list /\ AuditLog.success entry = true
  | Raise (ActionExecutionError msg) =>
      exists entry what cause,
        after = (before ++ [entry])%list
        /\ AuditLog.success entry = false
        /\ AuditLog.before_state entry = empty_state
        /\ AuditLog.after_state entry = empty_state
        /\ AuditLog.error_message entry = Some cause
        /\ msg = what +:+ cause
  | Raise (StorageError _) => after = before
  | Raise _ => False
  end.

(** How [process_batch] counts a result. *)
Definition is_processed (result : ProcessingResult.t) : bool :=
  ProcessingResult.success result && PipelineOrchestrator.counts_as_processed result.

Definition is_skipped (result : ProcessingResult.t) : bool :=
  ProcessingResult.success result
  && negb (PipelineOrchestrator.counts_as_processed result).

Definition is_failed (result : ProcessingResult.t) : bool :=
  negb (ProcessingResult.success result).

Definition count (f : ProcessingResult.t -> bool) (results : list ProcessingResult.t) : nat :=
  List.length (List.filter f results).

(** A computation whose exceptions, when it raises, all satisfy [P]. *)
Definition raises_only {S A} (P : Exc -> Prop) (m : M S A) : Prop :=
  forall s e s', m s = (Raise e, s') -> P e.

Definition is_storage_error (e : Exc) : Prop := exists msg, e = StorageError msg.

(** The query of [find_case_by_client_and_title]. *)
Definition case_matches (client_name : string) (case_title : option string)
    (case : Case.t) : Prop :=
  Case.client_name case = client_name
  /\ (truthy_str case_title = true -> Some (Case.case_title case) = case_title)
  /\ Case.status case ∈ [OPEN; IN_PROGRESS; AWAITING_INFO].

(** A part of the world, and a part of the object, read off the state of
    a method. *)
Definition on_world {O T} (part : World -> T) (s : O * World) : T := part s.2.
Definition on_self {O W T} (part : O -> T) (s : O * W) : T := part s.1.

(** Every case document sits under its own id, and every task document
    under its own key. *)
Definition keyed_by_id (w : World) : Prop :=
  forall k case, cases w !! k = Some case -> Case.id case = k.

Definition tasks_keyed (w : World) : Prop :=
  forall k task, tasks w !! k = Some task -> CaseRepository.task_key task = k.

(** A computation that keeps an invariant of the state, whatever its
    outcome. *)
Definition maintains {S A} (I : S -> Prop) (m : M S A) : Prop :=
  forall s, I s -> I (m s).2.

(** An invariant of the world that survives each kind of change the code
    makes to the world: a tick of the clock, a call to the database, a call
    to the language model, the write of a case under its id, the write of
    a task under its key, a new audit entry. *)
Record stable (I : World -> Prop) : Prop := {
  stable_clock : forall w, I w -> I (set_clock (S (clock w)) w);
  stable_outages : forall rest w, I w -> I (set_outages rest w);
  stable_llm_calls : forall w, I w -> I (set_llm_calls (S (llm_calls w)) w);
  stable_case :
    forall case w, I w -> I (set_cases (<[Case.id case := case]> (cases w)) w);
  stable_task :
    forall task w,
      I w -> I (set_tasks (<[CaseRepository.task_key task := task]> (tasks w)) w);
  stable_audit :
    forall entry w, I w -> I (set_audit_logs (audit_logs w ++ [entry]) w);
}.

(** A computation that makes a measure of the state grow by [n] at most,
    whatever its outcome. *)
Definition adds_at_most {S A} (size : S -> nat) (n : nat) (m : M S A) : Prop :=
  forall s, size (m s).2 <= size s + n.

(** The number of audit entries. *)
Definition trail_length (w : World) : nat := List.length (audit_logs w).

(** The actions a result may list: none, or one that was executed. *)
Definition executed_actions (actions : list Action.t) : Prop :=
  actions = []
  \/ exists action,
       actions = [action] /\ Action.type action <> IGNORE
       /\ Action.success action = Some true.

(** The spellings of a category, once in capitals and underscores. *)
Definition spellings (category : MessageCategory) : list string :=
  category_value category
  :: match category with
     | LOA_MISSING_INFO => ["MISSING_INFO"]
     | LOA_CHASE => ["CHASE"]
     | LOA_RESPONSE => ["RESPONSE"]
     | _ => []
     end.

(** The names [_canonicalize_field_updates] replaces. *)
Definition FIELD_ALIASES : list string :=
  ["dob"; "dateofbirth";
   "ni"; "ni_number"; "nationalinsurancenumber"; "national_insurance";
   "policy_number"; "policynumber"; "plan"; "plannumber";
   "provider"; "providername"].

(** The key and the value [_canonicalize_field_updates] makes of an item. *)
Definition canonical_name (key : string) : string :=
  DefaultLLMService.canonical_key (DefaultLLMService._to_snake key).

Definition canonical_value (str_of_json : Json -> string) (value : Json) : string :=
  match value with
  | JNull => ""
  | JStr s => strip s
  | v => strip (str_of_json v)
  end.

(** ** Sample data *)

Definition sample_case (status : CaseStatus) (required : list string) : Case.t :=
  {| Case.id := "case_1"; Case.client_name := "Jane Smith";
     Case.case_title := "LoA Case"; Case.case_type := LOA; Case.status := status;
     Case.required_fields := required; Case.received_fields := ∅;
     Case.created_at := 0; Case.updated_at := 0; Case.completed_at := None;
     Case.assigned_to := None; Case.tags := []; Case.notes := "";
     Case.metadata := ∅ |}.

Definition sample_world (case : Case.t) (outages : list bool) : World :=
  {| cases := {[ Case.id case := case ]}; tasks := ∅; audit_logs := [];
     clock := 10; outages := outages; llm_calls := 0 |}.

Definition sample_email (from_address subject body : string) : Message.t :=
  {| Message.id := "msg_1"; Message.timestamp := 0; Message.source_type := EMAIL;
     Message.content :=
       Email {| EmailContent.from_address := from_address;
                EmailContent.to_address := "advisor@firm.com";
                EmailContent.subject := subject; EmailContent.body := body;
                EmailContent.cc := None; EmailContent.bcc := None;
                EmailContent.attachments := [] |};
     Message.metadata := ∅; Message.processing_status := PENDING |}.

Definition default_filter : PreFilter.t := PreFilter.new None None None None.

Definition sample_action (type : ActionType) (case_id : option string) : Action.t :=
  {| Action.id := "action_1"; Action.type := type; Action.case_id := case_id;
     Action.parameters := ∅; Action.triggered_by := "msg_1"; Action.created_at := 1;
     Action.executed_at := None; Action.success := None;
     Action.error_message := None |}.

(** A language-model service for the examples: it fails to classify the
    message [msg_bad], and asks to complete the case [case_1] on the message
    [msg_late] and to chase on any other message. *)
Definition sample_service : LLMService :=
  {| classify_message := fun _ message =>
       if String.eqb (Message.id message) "msg_bad"
       then Raise (LLMServiceError "model unavailable")
       else Classification.new LOA_CHASE 0.9%Q "Status request" (Some true);
     extract_entities := fun _ _ _ =>
       Ok {| ExtractedEntities.client_name := None;
             ExtractedEntities.case_id := None;
             ExtractedEntities.case_title := None;
             ExtractedEntities.field_updates := [];
             ExtractedEntities.missing_fields := [];
             ExtractedEntities.confidence := 1;
             ExtractedEntities.additional_context := ∅ |};
     determine_action := fun _ message _ _ _ =>
       Ok (sample_action
             (if String.eqb (Message.id message) "msg_late"
              then COMPLETE_CASE else INITIATE_LOA_CHASE)
             (Some "case_1"));
     generate_followup_email := fun _ _ _ => Ok "" |}.

Definition sample_message (id : string) (text : string) : Message.t :=
  {| Message.id := id; Message.timestamp := 0; Message.source_type := DOCUMENT;
     Message.content :=
       Document {| DocumentContent.document_title := "Note";
                   DocumentContent.document_text := text;
                   DocumentContent.document_type := None;
                   DocumentContent.page_count := None |};
     Message.metadata := ∅; Message.processing_status := PENDING |}.

Definition sample_batch : list Message.t :=
  [ sample_message "msg_spam" "Newsletter: unsubscribe here";
    sample_message "msg_bad" "Any update on the pension?";
    sample_message "msg_ok" "Any update on the pension?";
    sample_message "msg_late" "Please close the case" ].

Definition sample_field (field_name value : string) : FieldValue.t :=
  {| FieldValue.field_name := field_name; FieldValue.value := value;
     FieldValue.received_at := 3; FieldValue.source_message_id := "msg_1";
     FieldValue.confidence := 1 |}.

(** A LoA case that requires DOB and NI and has received DOB only. *)
Definition half_filled_case (status : CaseStatus) : Case.t :=
  Case.set_received_fields {[ "DOB" := sample_field "DOB" "01/01/1980" ]}
    (sample_case status ["DOB"; "NI"]).

(** A case completed at time 5. *)
Definition completed_case : Case.t :=
  Case.set_completed_at (Some 5) (sample_case COMPLETE []).

Definition sample_classification (category : MessageCategory) : Classification.t :=
  {| Classification.category := category; Classification.confidence := 1;
     Classification.reasoning := "Sample"; Classification.is_relevant := true |}.

Definition sample_action_with (type : ActionType) (case_id : option string)
    (parameters : gmap string PyVal) : Action.t :=
  Action.set_parameters parameters (sample_action type case_id).

(** * Properties *)

(** ** Running the monad *)

Lemma bind_ok {S A B} (m : M S A) (k : A -> M S B) (s s' : S) (a : A) :
  m s = (Ok a, s') -> bind m k s = k a s'.
Proof. intros H. unfold bind. by rewrite H. Qed.

Lemma bind_raise {S A B} (m : M S A) (k : A -> M S B) (s s' : S) (e : Exc) :
  m s = (Raise e, s') -> bind m k s = (Raise e, s').
Proof. intros H. unfold bind. by rewrite H. Qed.

Lemma try_except_ok {S A} (m : M S A) (h : Exc -> M S A) (s s' : S) (a : A) :
  m s = (Ok a, s') -> try_except m h s = (Ok a, s').
Proof. intros H. unfold try_except. by rewrite H. Qed.

Lemma try_except_raise {S A} (m : M S A) (h : Exc -> M S A) (s s' : S) (e : Exc) :
  m s = (Raise e, s') -> try_except m h s = h e s'.
Proof. intros H. unfold try_except. by rewrite H. Qed.

Lemma in_world_run {O W A} (m : M W A) (o : O) (w w' : W) (r : Res A) :
  m w = (r, w') -> in_world m (o, w) = (r, (o, w')).
Proof. intros H. unfold in_world. cbn. by rewrite H. Qed.

Lemma call_on_ok {O W A} (m : M (O * W) A) (o o' : O) (w w' : W) (a : A) :
  m (o, w) = (Ok a, (o', w')) -> call_on o m w = (Ok (a, o'), w').
Proof. intros H. unfold call_on. by rewrite H. Qed.

Lemma call_on_raise {O W A} (m : M (O * W) A) (o o' : O) (w w' : W) (e : Exc) :
  m (o, w) = (Raise e, (o', w')) -> call_on o m w = (Raise e, w').
Proof. intros H. unfold call_on. by rewrite H. Qed.

(** ** State machine *)

Lemma can_transition_table (from_status to_status : CaseStatus) :
  CaseStateMachine.can_transition from_status to_status = true <->
  from_status = to_status \/ to_status ∈ CaseStateMachine.VALID_TRANSITIONS from_status.
Proof.
  unfold CaseStateMachine.can_transition.
  case_bool_decide as Hsame; [tauto|].
  rewrite bool_decide_eq_true. tauto.
Qed.

(** A refused transition raises and leaves the case object and the world as
    they were. *)
Lemma transition_refused (case : Case.t) (new_status : CaseStatus) (w : World) :
  Case.status case <> new_status ->
  new_status ∉ CaseStateMachine.VALID_TRANSITIONS (Case.status case) ->
  exists msg,
    CaseStateMachine.transition new_status true (case, w)
    = (Raise (InvalidStateTransitionError msg), (case, w)).
Proof.
  intros Hne Hnot.
  assert (CaseStateMachine.can_transition (Case.status case) new_status = false) as Hcan.
  { apply not_true_is_false. rewrite can_transition_table. tauto. }
  unfold CaseStateMachine.transition, CaseStateMachine.validate_transition, bind, self.
  cbn. rewrite Hcan. cbn. eauto.
Qed.

(** An accepted transition sets the status, and stamps the completion time
    exactly when the new status is COMPLETE. *)
Lemma transition_accepted (case : Case.t) (new_status : CaseStatus) (w : World) :
  CaseStateMachine.can_transition (Case.status case) new_status = true ->
  CaseStateMachine.transition new_status true (case, w)
  = if bool_decide (new_status = COMPLETE) then
      (Ok tt, (Case.set_completed_at (Some (clock w)) (Case.set_status new_status case),
               set_clock (S (clock w)) w))
    else (Ok tt, (Case.set_status new_status case, w)).
Proof.
  intros Hcan.
  unfold CaseStateMachine.transition, CaseStateMachine.validate_transition, bind, self.
  cbn. rewrite Hcan. cbn.
  case_bool_decide; reflexivity.
Qed.

Lemma set_status_same (case : Case.t) : Case.set_status (Case.status case) case = case.
Proof. by destruct case. Qed.

(** A same-state transition succeeds and keeps the status; away from
    COMPLETE it changes nothing at all. *)
Lemma transition_same_state (case : Case.t) (w : World) :
  exists case' w',
    CaseStateMachine.transition (Case.status case) true (case, w) = (Ok tt, (case', w'))
    /\ Case.status case' = Case.status case
    /\ (Case.status case <> COMPLETE -> case' = case /\ w' = w).
Proof.
  rewrite transition_accepted by (apply can_transition_table; auto).
  case_bool_decide as Hs.
  - eexists _, _. split; [reflexivity|]. split; [by destruct case|]. congruence.
  - eexists _, _. split; [reflexivity|]. rewrite set_status_same. auto.
Qed.

(** C1, where the code departs from the claim: a same-state transition on
    a case that is already COMPLETE succeeds with the status unchanged, but
    it is not a no-op.  The completion time recorded on the case is
    overwritten with the current time. *)
Theorem transition_complete_to_complete_restamps (case : Case.t) (w : World) :
  Case.status case = COMPLETE ->
  Case.completed_at case <> Some (clock w) ->
  exists case',
    CaseStateMachine.transition COMPLETE true (case, w)
    = (Ok tt, (case', set_clock (S (clock w)) w))
    /\ Case.status case' = COMPLETE
    /\ Case.completed_at case' = Some (clock w)
    /\ case' <> case.
Proof.
  intros Hs Hold.
  rewrite transition_accepted by (rewrite Hs; reflexivity).
  rewrite bool_decide_eq_true_2 by reflexivity.
  eexists. split; [reflexivity|]. cbn. repeat split.
  intros Heq. apply Hold. rewrite <- Heq. reflexivity.
Qed.

(** ** Completeness of a case *)

Lemma required_subseteq_received (case : Case.t) :
  Case.required case ⊆ Case.received case <->
  forall f, f ∈ Case.required_fields case -> is_Some (Case.received_fields case !! f).
Proof.
  unfold Case.required, Case.received. split.
  - intros Hsub f Hf. apply elem_of_dom, Hsub, elem_of_list_to_set, Hf.
  - intros Hall f Hf. apply elem_of_dom, Hall. by apply elem_of_list_to_set in Hf.
Qed.

Lemma is_complete_loa (case : Case.t) :
  Case.case_type case = LOA ->
  (Case.is_complete case = true <->
   forall f, f ∈ Case.required_fields case -> is_Some (Case.received_fields case !! f)).
Proof.
  intros Hloa. unfold Case.is_complete.
  rewrite bool_decide_eq_true_2 by done. cbn.
  rewrite bool_decide_eq_true. apply required_subseteq_received.
Qed.

Lemma is_complete_not_loa (case : Case.t) :
  Case.case_type case <> LOA ->
  (Case.is_complete case = true <-> Case.status case = COMPLETE).
Proof.
  intros Hno. unfold Case.is_complete.
  rewrite bool_decide_eq_false_2 by done. cbn.
  apply bool_decide_eq_true.
Qed.

(** C3.  For a LoA case [is_complete] holds exactly when every required
    field name is a key of the received fields, whatever the status; for
    any other case exactly when the status is COMPLETE; and with no
    required field the completion percentage is 100 and a LoA case is
    complete. *)
Theorem is_complete_characterised (case : Case.t) :
  (Case.case_type case = LOA ->
     (Case.is_complete case = true <->
      list_to_set (Case.required_fields case) ⊆@{gset string} dom (Case.received_fields case))
     /\ (Case.is_complete case = true <->
         forall f, f ∈ Case.required_fields case ->
                   is_Some (Case.received_fields case !! f))
     /\ forall status, Case.is_complete (Case.set_status status case) = Case.is_complete case)
  /\ (Case.case_type case <> LOA ->
        (Case.is_complete case = true <-> Case.status case = COMPLETE))
  /\ (Case.required_fields case = [] ->
        Case.get_completion_percentage case = 100%Q
        /\ (Case.case_type case = LOA -> Case.is_complete case = true)).
Proof.
  split; [|split].
  - intros Hloa. split_and!.
    + rewrite (is_complete_loa case Hloa). symmetry. apply required_subseteq_received.
    + apply (is_complete_loa case Hloa).
    + intros status. unfold Case.is_complete. cbn.
      rewrite !bool_decide_eq_true_2 by done. reflexivity.
  - apply is_complete_not_loa.
  - intros Hnone. split.
    + unfold Case.get_completion_percentage. by rewrite Hnone.
    + intros Hloa. apply (is_complete_loa case Hloa).
      intros f Hf. rewrite Hnone in Hf. by apply elem_of_nil in Hf.
Qed.

(** ** Suggested transitions *)

Lemma missing_fields_nil (case : Case.t) :
  Case.get_missing_fields case = [] <-> Case.required case ⊆ Case.received case.
Proof.
  unfold Case.get_missing_fields. rewrite elements_empty_iff.
  generalize (Case.required case) (Case.received case). intros X Y.
  split.
  - intros H x Hx. destruct (decide (x ∈ Y)); [done|]. exfalso.
    assert (x ∈ X ∖ Y) as H1 by (apply elem_of_difference; done).
    rewrite H in H1. by apply not_elem_of_empty in H1.
  - intros H. apply set_equiv. intros x. rewrite elem_of_difference.
    split; [|by intros ?%not_elem_of_empty]. intros [H1 H2]. destruct H2. by apply H.
Qed.

Lemma missing_field_not_complete (case : Case.t) (f : string) :
  Case.case_type case = LOA ->
  f ∈ Case.required_fields case ->
  Case.received_fields case !! f = None ->
  Case.is_complete case = false.
Proof.
  intros Hloa Hreq Hnone. apply not_true_is_false. rewrite (is_complete_loa case Hloa).
  intros Hall. destruct (Hall f Hreq) as [v Hv]. congruence.
Qed.

(** C8.  [should_auto_transition] suggests COMPLETE for a LoA case that is
    IN_PROGRESS or AWAITING_INFO and has every required field; it suggests
    AWAITING_INFO for a LoA case that is IN_PROGRESS and misses a required
    field; it suggests nothing for a LoA case that misses a field while
    AWAITING_INFO, for a case of another type, and for any other status. *)
Theorem should_auto_transition_characterised (case : Case.t) :
  (Case.case_type case = LOA ->
   Case.status case = IN_PROGRESS \/ Case.status case = AWAITING_INFO ->
   (forall f, f ∈ Case.required_fields case -> is_Some (Case.received_fields case !! f)) ->
   CaseStateMachine.should_auto_transition case = Some COMPLETE)
  /\ (Case.case_type case = LOA ->
      Case.status case = IN_PROGRESS ->
      (exists f, f ∈ Case.required_fields case /\ Case.received_fields case !! f = None) ->
      CaseStateMachine.should_auto_transition case = Some AWAITING_INFO)
  /\ (Case.case_type case = LOA ->
      Case.status case = AWAITING_INFO ->
      (exists f, f ∈ Case.required_fields case /\ Case.received_fields case !! f = None) ->
      CaseStateMachine.should_auto_transition case = None)
  /\ (Case.case_type case <> LOA ->
      CaseStateMachine.should_auto_transition case = None)
  /\ (Case.status case <> IN_PROGRESS -> Case.status case <> AWAITING_INFO ->
      CaseStateMachine.should_auto_transition case = None).
Proof.
  unfold CaseStateMachine.should_auto_transition.
  split; [|split; [|split; [|split]]].
  - intros Hloa Hst Hall.
    rewrite bool_decide_eq_true_2 by done.
    rewrite bool_decide_eq_true_2 by (destruct Hst as [-> | ->]; set_solver).
    by rewrite (proj2 (is_complete_loa case Hloa) Hall).
  - intros Hloa Hst (f & Hreq & Hnone).
    rewrite bool_decide_eq_true_2 by done.
    rewrite bool_decide_eq_true_2 by (rewrite Hst; set_solver).
    pose proof (missing_field_not_complete case f Hloa Hreq Hnone) as Hinc.
    rewrite Hinc.
    destruct (Case.get_missing_fields case) eqn:Hmiss.
    + apply missing_fields_nil in Hmiss.
      pose proof (proj1 (required_subseteq_received case) Hmiss) as Hall.
      apply (is_complete_loa case Hloa) in Hall. congruence.
    + rewrite Hst. reflexivity.
  - intros Hloa Hst (f & Hreq & Hnone).
    rewrite bool_decide_eq_true_2 by done.
    rewrite bool_decide_eq_true_2 by (rewrite Hst; set_solver).
    rewrite (missing_field_not_complete case f Hloa Hreq Hnone).
    destruct (Case.get_missing_fields case); [reflexivity|].
    rewrite Hst. reflexivity.
  - intros Hno. by rewrite bool_decide_eq_false_2.
  - intros H1 H2. destruct (bool_decide (Case.case_type case = LOA)); [|reflexivity].
    rewrite bool_decide_eq_false_2; [reflexivity|].
    rewrite !elem_of_cons, elem_of_nil. tauto.
Qed.

(** ** Field tracking *)

Lemma add_field_value_ok (case : Case.t) (w : World) (field_name value source : string)
    (confidence : Q) :
  in_unit_interval confidence = true ->
  FieldTracker.add_field_value field_name (PyStr value) source confidence (case, w)
  = (Ok tt,
     (Case.set_updated_at (S (clock w))
        (Case.set_received_fields
           (<[field_name :=
                {| FieldValue.field_name := field_name; FieldValue.value := value;
                   FieldValue.received_at := clock w;
                   FieldValue.source_message_id := source;
                   FieldValue.confidence := confidence |}]>
              (Case.received_fields case))
           case),
      set_clock (S (S (clock w))) w)).
Proof.
  intros Hconf.
  unfold FieldTracker.add_field_value, bind, utcnow_, in_world, utcnow, lift_res,
    update_self, FieldValue.new.
  cbn. rewrite Hconf. reflexivity.
Qed.

Lemma one_entry_per_key {V} (l : list (string * V)) (k : string) (v : V) :
  NoDup l.*1 -> (k, v) ∈ l ->
  List.length (filter (fun kv => kv.1 = k) l) = 1.
Proof.
  induction l as [|[k' v'] l IH]; intros Hnd Hin.
  - by apply elem_of_nil in Hin.
  - cbn in Hnd. apply NoDup_cons in Hnd as [Hfresh Hnd].
    rewrite filter_cons. cbn. apply elem_of_cons in Hin as [Heq | Hin].
    + injection Heq as <- <-. rewrite decide_True by done. cbn. f_equal.
      destruct (filter (λ kv : string * V, kv.1 = k) l) as [|[k2 v2] rest] eqn:Hf;
        [reflexivity|].
      exfalso.
      assert ((k2, v2) ∈ filter (λ kv : string * V, kv.1 = k) l) as Hin2
        by (rewrite Hf; apply list_elem_of_here).
      apply list_elem_of_filter in Hin2 as [Hk2 Hin2]. cbn in Hk2. subst k2.
      apply Hfresh, list_elem_of_fmap. by exists (k, v2).
    + destruct (decide (k' = k)) as [-> | Hne]; [|by apply IH].
      exfalso. apply Hfresh, list_elem_of_fmap. by exists (k, v).
Qed.

Lemma one_entry_under_key {V} (m : gmap string V) (k : string) (v : V) :
  m !! k = Some v ->
  List.length (filter (fun kv => kv.1 = k) (map_to_list m)) = 1.
Proof.
  intros Hk. apply (one_entry_per_key _ k v).
  - apply NoDup_fst_map_to_list.
  - by apply elem_of_map_to_list.
Qed.

(** C9.  Two calls of [add_field_value] in a row under the same field name
    leave one entry under that name, holding the second value; nothing of
    the first value is retained and the other entries are untouched. *)
Theorem add_field_value_last_write_wins
    (case : Case.t) (w : World) (field_name value1 value2 source1 source2 : string)
    (confidence1 confidence2 : Q) :
  in_unit_interval confidence1 = true ->
  in_unit_interval confidence2 = true ->
  exists case' w' latest,
    (FieldTracker.add_field_value field_name (PyStr value1) source1 confidence1;;
     FieldTracker.add_field_value field_name (PyStr value2) source2 confidence2) (case, w)
    = (Ok tt, (case', w'))
    /\ FieldValue.field_name latest = field_name
    /\ FieldValue.value latest = value2
    /\ FieldValue.source_message_id latest = source2
    /\ Case.received_fields case' = <[field_name := latest]> (Case.received_fields case)
    /\ Case.received_fields case' !! field_name = Some latest
    /\ List.length
         (filter (fun kv => kv.1 = field_name) (map_to_list (Case.received_fields case'))) = 1
    /\ forall other, other <> field_name ->
         Case.received_fields case' !! other = Case.received_fields case !! other.
Proof.
  intros Hc1 Hc2. unfold bind at 1.
  rewrite (add_field_value_ok _ _ _ _ _ _ Hc1), (add_field_value_ok _ _ _ _ _ _ Hc2).
  eexists _, _,
    {| FieldValue.field_name := field_name; FieldValue.value := value2;
       FieldValue.received_at := S (S (clock w));
       FieldValue.source_message_id := source2;
       FieldValue.confidence := confidence2 |}.
  split; [reflexivity|]. cbn.
  rewrite insert_insert_eq.
  split_and!; try reflexivity.
  - apply lookup_insert_eq.
  - eapply one_entry_under_key, lookup_insert_eq.
  - intros other Hne. by rewrite lookup_insert_ne.
Qed.

(** ** The case repository while the database answers *)

Lemma firestore_call_ok (w : World) :
  outages w = [] -> firestore_call w = (Ok tt, w).
Proof. intros H. unfold firestore_call. by rewrite H. Qed.

Lemma get_case_found (w : World) (case_id : string) (case : Case.t) :
  outages w = [] -> cases w !! case_id = Some case ->
  CaseRepository.get_case case_id w = (Ok case, w).
Proof.
  intros Hout Hcase.
  unfold CaseRepository.get_case, try_except, bind, get_state.
  rewrite (firestore_call_ok w Hout), Hcase. reflexivity.
Qed.

Lemma update_case_ok (w : World) (case stored : Case.t) :
  outages w = [] -> cases w !! Case.id case = Some stored ->
  CaseRepository.update_case case w
  = (Ok (Case.set_updated_at (clock w) case),
     set_cases (<[Case.id case := Case.set_updated_at (clock w) case]> (cases w))
       (set_clock (S (clock w)) w)).
Proof.
  intros Hout Hcase.
  unfold CaseRepository.update_case, try_except. unfold bind at 1.
  rewrite (get_case_found w _ _ Hout Hcase).
  unfold bind, utcnow, modify, ret. cbn.
  rewrite firestore_call_ok by done. reflexivity.
Qed.

(** C10.  [add_field_to_case] marks the case COMPLETE and stamps the
    completion time as soon as the added field makes [is_complete] true and
    the status is not COMPLETE yet.  It assigns the status directly: this
    happens from every status, also from OPEN and CANCELLED, from which the
    state machine refuses the transition to COMPLETE. *)
Theorem add_field_to_case_completes_directly
    (w : World) (case_id : string) (case : Case.t) (field_value : FieldValue.t) :
  let with_field :=
    Case.set_received_fields
      (<[FieldValue.field_name field_value := field_value]> (Case.received_fields case))
      case in
  outages w = [] ->
  cases w !! case_id = Some case ->
  Case.id case = case_id ->
  Case.is_complete with_field = true ->
  Case.status case <> COMPLETE ->
  exists case' w',
    CaseRepository.add_field_to_case case_id field_value w = (Ok case', w')
    /\ Case.status case' = COMPLETE
    /\ Case.completed_at case' = Some (S (clock w))
    /\ Case.received_fields case' = Case.received_fields with_field
    /\ cases w' !! case_id = Some case'
    /\ (Case.status case = OPEN \/ Case.status case = CANCELLED ->
        CaseStateMachine.can_transition (Case.status case) COMPLETE = false
        /\ exists msg,
             CaseStateMachine.transition COMPLETE true (with_field, w)
             = (Raise (InvalidStateTransitionError msg), (with_field, w))).
Proof.
  intros with_field Hout Hcase Hid Hcomplete Hstatus.
  unfold CaseRepository.add_field_to_case. unfold bind at 1.
  rewrite (get_case_found w _ _ Hout Hcase).
  unfold bind at 1. unfold utcnow at 1.
  fold with_field.
  assert (Case.is_complete (Case.set_updated_at (clock w) with_field) = true) as ->
    by exact Hcomplete.
  rewrite bool_decide_eq_false_2 by exact Hstatus.
  cbn [andb negb]. unfold bind at 1. unfold bind at 1. unfold utcnow at 1.
  unfold ret at 1.
  erewrite update_case_ok; [|done|cbn; rewrite Hid; exact Hcase].
  eexists _, _. split; [reflexivity|]. cbn.
  split_and!; try reflexivity.
  - rewrite Hid. apply lookup_insert_eq.
  - intros Hforbidden. split.
    + destruct Hforbidden as [-> | ->]; reflexivity.
    + apply transition_refused; [exact Hstatus|].
      cbn. destruct Hforbidden as [-> | ->]; cbn;
        rewrite ?elem_of_cons, elem_of_nil; intuition discriminate.
Qed.

(** ** Handlers while the database answers *)

Lemma require_case_id_ok (kind case_id : string) (action : Action.t) (w : World) :
  Action.case_id action = Some case_id -> case_id <> "" ->
  ActionHandler.require_case_id kind (action, w) = (Ok case_id, (action, w)).
Proof.
  intros Hid Hne. unfold ActionHandler.require_case_id, bind, self. cbn.
  rewrite Hid. cbn. apply String.eqb_neq in Hne. rewrite Hne. reflexivity.
Qed.

Lemma audit_id_not_empty (t : string) : String.eqb ("audit_" +:+ t) "" = false.
Proof. reflexivity. Qed.

Lemma log_action_ok (action : Action.t) (w : World) (success : bool)
    (before_state after_state : StateDump) (error_message : option string) :
  outages w = [] ->
  ActionHandler.log_action success before_state after_state error_message (action, w)
  = (Ok tt,
     (action,
      set_audit_logs
        (audit_logs w
         ++ [audit_entry action (clock w) success before_state after_state error_message])
        (set_clock (S (S (clock w))) w))).
Proof.
  intros Hout.
  unfold ActionHandler.log_action, AuditRepository.log_action, bind, self, utcnow_,
    in_world, utcnow, try_except, modify, ret, firestore_call.
  cbn. rewrite audit_id_not_empty. cbn. rewrite Hout. reflexivity.
Qed.

Lemma complete_via_in_progress_ok (case : Case.t) (w : World) :
  Case.status case ∈ [OPEN; AWAITING_INFO; IN_PROGRESS] ->
  CaseActionHandler.complete_via_in_progress (case, w)
  = (Ok tt,
     (Case.set_completed_at (Some (clock w)) (Case.set_status COMPLETE case),
      set_clock (S (clock w)) w)).
Proof.
  intros Hst.
  assert (Case.status case = OPEN \/ Case.status case = AWAITING_INFO
          \/ Case.status case = IN_PROGRESS) as [H | [H | H]]
    by (revert Hst; rewrite !elem_of_cons, elem_of_nil; tauto);
    destruct case; cbn in H; subst; reflexivity.
Qed.

(** The table allows AWAITING_INFO to COMPLETE directly; the handler goes
    through IN_PROGRESS all the same. *)
Lemma awaiting_info_to_complete_is_allowed :
  CaseStateMachine.can_transition AWAITING_INFO COMPLETE = true
  /\ CaseStateMachine.can_transition OPEN COMPLETE = false.
Proof. split; reflexivity. Qed.

(** C5.  On a case that is OPEN or AWAITING_INFO, COMPLETE_CASE runs the
    validated transition to IN_PROGRESS and then the one to COMPLETE; on a
    case that is IN_PROGRESS it runs the transition to COMPLETE alone.  Each
    of these transitions is allowed by the table, the handler returns, and
    the case it persists is COMPLETE. *)
Theorem complete_case_goes_through_in_progress
    (action : Action.t) (w : World) (case_id : string) (case : Case.t) :
  outages w = [] ->
  Action.case_id action = Some case_id -> case_id <> "" ->
  cases w !! case_id = Some case -> Case.id case = case_id ->
  Case.status case ∈ [OPEN; AWAITING_INFO; IN_PROGRESS] ->
  exists action' w' persisted,
    CaseActionHandler._complete_case (action, w) = (Ok true, (action', w'))
    /\ cases w' !! case_id = Some persisted
    /\ Case.status persisted = COMPLETE
    /\ (Case.status case = OPEN \/ Case.status case = AWAITING_INFO ->
        CaseStateMachine.can_transition (Case.status case) IN_PROGRESS = true
        /\ CaseStateMachine.can_transition IN_PROGRESS COMPLETE = true
        /\ CaseActionHandler.complete_via_in_progress (case, w)
           = (CaseStateMachine.transition IN_PROGRESS true;;
              CaseStateMachine.transition COMPLETE true) (case, w))
    /\ (Case.status case = IN_PROGRESS ->
        CaseStateMachine.can_transition IN_PROGRESS COMPLETE = true
        /\ CaseActionHandler.complete_via_in_progress (case, w)
           = CaseStateMachine.transition COMPLETE true (case, w)).
Proof.
  intros Hout Haid Hne Hcase Hid Hst.
  unfold CaseActionHandler._complete_case, ActionHandler.audited.
  erewrite try_except_ok; cycle 1.
  { erewrite bind_ok by (apply (require_case_id_ok _ _ _ _ Haid Hne)).
    erewrite bind_ok by (apply in_world_run, (get_case_found w _ _ Hout Hcase)).
    cbv zeta.
    erewrite bind_ok
      by (apply in_world_run, call_on_ok, (complete_via_in_progress_ok case w Hst)).
    cbv beta iota.
    erewrite bind_ok; cycle 1.
    { apply in_world_run. apply (update_case_ok _ _ case); [done|].
      cbn. rewrite Hid. exact Hcase. }
    erewrite bind_ok by reflexivity.
    erewrite bind_ok by (apply log_action_ok; done).
    reflexivity. }
  eexists _, _, _. split; [reflexivity|].
  split; [cbn; rewrite Hid; apply lookup_insert_eq|].
  split; [reflexivity|].
  split.
  - intros Hfrom. split; [destruct Hfrom as [-> | ->]; reflexivity|].
    split; [reflexivity|].
    rewrite (complete_via_in_progress_ok case w Hst).
    erewrite bind_ok; cycle 1.
    { rewrite transition_accepted by (destruct Hfrom as [-> | ->]; reflexivity).
      reflexivity. }
    rewrite transition_accepted by reflexivity. reflexivity.
  - intros Hfrom. split; [reflexivity|].
    rewrite (complete_via_in_progress_ok case w Hst).
    rewrite transition_accepted by (rewrite Hfrom; reflexivity). reflexivity.
Qed.

(** ** Pre-filter *)

Lemma sender_verdict_none (f : PreFilter.t) (message : Message.t) :
  (forall a, PreFilter.from_address_of message = Some a ->
     PreFilter.whitelisted f (lower a) = false
     /\ PreFilter.blacklisted f (lower a) = false) ->
  PreFilter.sender_verdict f message = None.
Proof.
  intros H. unfold PreFilter.sender_verdict.
  destruct (PreFilter.from_address_of message) as [a|]; [|reflexivity].
  destruct (H a eq_refl) as [-> ->]. reflexivity.
Qed.

(** C7, as the code has it.  The rules apply in order and the first match
    wins: a whitelisted sender is processed whatever the keywords; a
    blacklisted sender that is not whitelisted is rejected whatever the
    keywords; with no sender match, two spam keywords or more reject the
    message; one spam keyword with a relevant keyword is processed unless
    the sender is blacklisted and not whitelisted; a message that matches
    no rule is processed. *)
Theorem should_process_first_match_wins (f : PreFilter.t) (message : Message.t) :
  let text := lower (Message.get_text_content message) in
  (forall a, PreFilter.from_address_of message = Some a ->
     PreFilter.whitelisted f (lower a) = true ->
     PreFilter.should_process f message = true)
  /\ (forall a, PreFilter.from_address_of message = Some a ->
        PreFilter.whitelisted f (lower a) = false ->
        PreFilter.blacklisted f (lower a) = true ->
        PreFilter.should_process f message = false)
  /\ ((forall a, PreFilter.from_address_of message = Some a ->
         PreFilter.whitelisted f (lower a) = false
         /\ PreFilter.blacklisted f (lower a) = false) ->
      2 <= PreFilter.spam_score f text ->
      PreFilter.relevant_score f text = 0 ->
      PreFilter.should_process f message = false)
  /\ ((forall a, PreFilter.from_address_of message = Some a ->
         PreFilter.whitelisted f (lower a) = true
         \/ PreFilter.blacklisted f (lower a) = false) ->
      PreFilter.spam_score f text = 1 ->
      1 <= PreFilter.relevant_score f text ->
      PreFilter.should_process f message = true)
  /\ ((forall a, PreFilter.from_address_of message = Some a ->
         PreFilter.whitelisted f (lower a) = false
         /\ PreFilter.blacklisted f (lower a) = false) ->
      PreFilter.spam_score f text < 2 ->
      PreFilter.relevant_score f text = 0 ->
      PreFilter.should_process f message = true).
Proof.
  intros text. unfold PreFilter.should_process. fold text.
  split_and!.
  - intros a Ha Hw. unfold PreFilter.sender_verdict. by rewrite Ha, Hw.
  - intros a Ha Hw Hb. unfold PreFilter.sender_verdict. by rewrite Ha, Hw, Hb.
  - intros Hnone Hspam _. rewrite (sender_verdict_none f message Hnone).
    by apply Nat.leb_le in Hspam as ->.
  - intros Hsender Hspam Hrel. unfold PreFilter.sender_verdict.
    rewrite Hspam. change (2 <=? 1)%nat with false. cbv iota.
    destruct (PreFilter.from_address_of message) as [a|].
    + destruct (Hsender a eq_refl) as [-> | Hb]; [reflexivity|].
      rewrite Hb. destruct (PreFilter.whitelisted f (lower a)); [reflexivity|].
      by destruct (1 <=? PreFilter.relevant_score f text)%nat.
    + by destruct (1 <=? PreFilter.relevant_score f text)%nat.
  - intros Hnone Hspam Hrel. rewrite (sender_verdict_none f message Hnone).
    assert ((2 <=? PreFilter.spam_score f text)%nat = false) as ->
      by (apply Nat.leb_gt; lia).
    by destruct (1 <=? PreFilter.relevant_score f text)%nat.
Qed.

(** C7 as stated fails: one spam keyword and one relevant keyword do not
    suffice, since a blacklisted sender is rejected before the keywords are
    looked at. *)
Lemma one_spam_one_relevant_rejected :
  let message := sample_email "promo@newsletter.com" "Sale" "Your pension" in
  let text := lower (Message.get_text_content message) in
  PreFilter.spam_score default_filter text = 1
  /\ 1 <= PreFilter.relevant_score default_filter text
  /\ PreFilter.should_process default_filter message = false.
Proof. vm_compute. split_and!; [reflexivity|lia|reflexivity]. Qed.

Lemma should_process_first_match_wins_witness :
  let spam := sample_email "a.client@example.com" "Sale" "discount offer, buy now" in
  let text := lower (Message.get_text_content spam) in
  3 <= PreFilter.spam_score default_filter text
  /\ PreFilter.should_process default_filter spam = true.
Proof.
  intros spam text. split; [vm_compute; lia|].
  apply (proj1 (should_process_first_match_wins default_filter spam)
           "a.client@example.com"); reflexivity.
Defined.

(** ** Relevance of a classification *)

Lemma new_classification_inv (category : MessageCategory) (confidence : Q)
    (reasoning : string) (is_relevant : option bool) (c : Classification.t) :
  Classification.new category confidence reasoning is_relevant = Ok c ->
  Classification.category c = category
  /\ Classification.is_relevant c = default true is_relevant.
Proof.
  unfold Classification.new. destruct (in_unit_interval confidence); [|discriminate].
  intros [= <-]. split; reflexivity.
Qed.

Lemma heuristic_classification_normalised (text reason : string) (c : Classification.t) :
  DefaultLLMService._heuristic_classification text reason = Ok c -> normalised c.
Proof.
  unfold DefaultLLMService._heuristic_classification.
  repeat (destruct (any_in _ (lower text)));
    intros [Hcat Hrel]%new_classification_inv [H | H];
    rewrite Hcat in H; try discriminate; exact Hrel.
Qed.

Section DefaultClassification.
Variable from_llm_name : nat -> Res unit.
Variable system_message : Res string.
Variable generate_text : nat -> string -> string -> Res (option string).
Variable parse_first_json_object : string -> option (list (string * Json)).
Variable float_of_str : string -> option Q.
Variable str_of_json : Json -> string.

Lemma classify_reply_normalised (text : string) (response : option string)
    (c : Classification.t) :
  DefaultLLMService.classify_reply parse_first_json_object float_of_str str_of_json
    text response = Ok c ->
  normalised c.
Proof.
  unfold DefaultLLMService.classify_reply.
  destruct response as [response|]; [|apply heuristic_classification_normalised].
  destruct (String.eqb response ""); [apply heuristic_classification_normalised|].
  destruct (parse_first_json_object response) as [parsed|];
    [|apply heuristic_classification_normalised].
  match goal with |- context [match ?x with Ok _ => _ | Raise _ => _ end] =>
    destruct x as [cat_val|]; [|discriminate] end.
  destruct (DefaultLLMService._safe_category _) as [category|];
    [|apply heuristic_classification_normalised].
  intros [Hcat Hrel]%new_classification_inv Hadmin.
  rewrite Hrel. rewrite Hcat in Hadmin.
  destruct Hadmin as [-> | ->]; reflexivity.
Qed.

Lemma classify_message_normalised (n : nat) (message : Message.t)
    (c : Classification.t) :
  DefaultLLMService.classify_message from_llm_name system_message generate_text
    parse_first_json_object float_of_str str_of_json n message = Ok c ->
  normalised c.
Proof.
  unfold DefaultLLMService.classify_message.
  destruct (String.eqb _ "").
  - intros [Hcat Hrel]%new_classification_inv _. exact Hrel.
  - destruct (from_llm_name n); [|discriminate].
    destruct system_message as [system|]; [|discriminate].
    destruct (generate_text n system _) as [response|e].
    + apply classify_reply_normalised.
    + apply heuristic_classification_normalised.
Qed.
End DefaultClassification.

Lemma process_message_filtered (llm_service : LLMService) (pre_filter : PreFilter.t)
    (message : Message.t) (w : World) :
  PreFilter.should_process pre_filter message = false ->
  PipelineOrchestrator.process_message llm_service pre_filter message w
  = (Ok ({| ProcessingResult.message_id := Message.id message;
            ProcessingResult.success := true;
            ProcessingResult.classification :=
              Some {| Classification.category := IRRELEVANT;
                      Classification.confidence := 1;
                      Classification.reasoning :=
                        "Filtered out by pre-filter (spam/marketing)";
                      Classification.is_relevant := false |};
            ProcessingResult.extracted_entities := None;
            ProcessingResult.actions_taken := [];
            ProcessingResult.error_message := None;
            ProcessingResult.processing_time_ms := Some 1000 |},
         message),
     set_clock (S (S (clock w))) w).
Proof.
  intros Hfilter.
  unfold PipelineOrchestrator.process_message.
  erewrite bind_ok by reflexivity.
  erewrite call_on_ok; [reflexivity|].
  erewrite try_except_ok; [reflexivity|].
  unfold PipelineOrchestrator.process_message_body.
  erewrite bind_ok by reflexivity. cbn [fst snd].
  rewrite Hfilter. cbn [negb].
  erewrite bind_ok by reflexivity.
  erewrite bind_ok by reflexivity.
  unfold ret, PipelineOrchestrator.elapsed_ms. cbn [fst snd clock set_clock].
  replace (S (clock w) - clock w) with 1 by lia. reflexivity.
Qed.

(** C4, as the code has it.  The default classification of the language
    model service (empty message, parsed answer of the model, heuristic
    fallback) and the classification that the orchestrator makes up for a
    message rejected by the pre-filter are never relevant when their
    category is ADMIN or IRRELEVANT. *)
Theorem producers_normalise_relevance :
  (forall from_llm_name system_message generate_text parse_first_json_object
          float_of_str str_of_json n message c,
     DefaultLLMService.classify_message from_llm_name system_message generate_text
       parse_first_json_object float_of_str str_of_json n message = Ok c ->
     normalised c)
  /\ (forall parse_first_json_object float_of_str str_of_json text response c,
        DefaultLLMService.classify_reply parse_first_json_object float_of_str
          str_of_json text response = Ok c ->
        normalised c)
  /\ (forall text reason c,
        DefaultLLMService._heuristic_classification text reason = Ok c ->
        normalised c)
  /\ (forall llm_service pre_filter message w,
        PreFilter.should_process pre_filter message = false ->
        exists result message' w' c,
          PipelineOrchestrator.process_message llm_service pre_filter message w
          = (Ok (result, message'), w')
          /\ ProcessingResult.classification result = Some c
          /\ Classification.category c = IRRELEVANT
          /\ Classification.is_relevant c = false).
Proof.
  split_and!.
  - intros *. apply classify_message_normalised.
  - intros *. apply classify_reply_normalised.
  - intros *. apply heuristic_classification_normalised.
  - intros llm_service pre_filter message w Hfilter.
    rewrite (process_message_filtered _ _ _ _ Hfilter).
    eexists _, _, _, _. split_and!; reflexivity.
Qed.

(** C4 as stated fails: the model does not enforce the rule.  Built
    directly, with [is_relevant] left to its default, a classification in
    category ADMIN is relevant. *)
Lemma direct_construction_not_normalised :
  exists c,
    Classification.new ADMIN 0.9%Q "Out of office" None = Ok c
    /\ Classification.category c = ADMIN
    /\ Classification.is_relevant c = true
    /\ ~ normalised c.
Proof.
  eexists. split; [reflexivity|]. split_and!; try reflexivity.
  intros H. specialize (H (or_introl eq_refl)). discriminate.
Qed.

(** The mock service clears the flag for IRRELEVANT only: its ADMIN
    classifications are relevant as well. *)
Lemma mock_admin_is_relevant :
  let message :=
    {| Message.id := "msg_3"; Message.timestamp := 0; Message.source_type := EMAIL;
       Message.content := Message.content (sample_email "hr@firm.com" "Out of office" "Away until Monday");
       Message.metadata := {[ "expected_category" := PyStr "ADMIN" ]};
       Message.processing_status := PENDING |} in
  exists c,
    MockLLMService.classify_message 0 message = Ok c
    /\ Classification.category c = ADMIN
    /\ Classification.is_relevant c = true.
Proof. eexists. split; [vm_compute; reflexivity|]. split; reflexivity. Qed.

(** ** The audit trail *)

Section Preserves.
Context {S T : Type} (trail : S -> T).

Lemma preserves_ret {A} (a : A) : preserves trail (ret a).
Proof. by intros s. Qed.

Lemma preserves_raise {A} (e : Exc) : preserves trail (raise (A := A) e).
Proof. by intros s. Qed.

Lemma preserves_lift_res {A} (r : Res A) : preserves trail (lift_res r).
Proof. by intros s. Qed.

Lemma preserves_get_state : preserves trail get_state.
Proof. by intros s. Qed.

Lemma preserves_bind {A B} (m : M S A) (k : A -> M S B) :
  preserves trail m -> (forall a, preserves trail (k a)) ->
  preserves trail (bind m k).
Proof.
  intros Hm Hk s. unfold bind. specialize (Hm s).
  destruct (m s) as [[a | e] s']; cbn in *; [|done].
  by rewrite Hk.
Qed.

Lemma preserves_try_except {A} (m : M S A) (h : Exc -> M S A) :
  preserves trail m -> (forall e, preserves trail (h e)) ->
  preserves trail (try_except m h).
Proof.
  intros Hm Hh s. unfold try_except. specialize (Hm s).
  destruct (m s) as [[a | e] s']; cbn in *; [done|].
  by rewrite Hh.
Qed.
End Preserves.

Lemma preserves_in_world {O A} (m : M World A) :
  preserves audit_logs m -> preserves (trail_of (O := O)) (in_world m).
Proof.
  intros Hm [o w]. unfold in_world, trail_of. cbn. specialize (Hm w).
  by destruct (m w).
Qed.

Lemma preserves_call_on {O A} (o : O) (m : M (O * World) A) :
  preserves trail_of m -> preserves audit_logs (call_on o m).
Proof.
  intros Hm w. unfold call_on. specialize (Hm (o, w)). unfold trail_of in Hm.
  by destruct (m (o, w)) as [[a | e] [o' w']].
Qed.

Lemma preserves_self {O} : preserves (trail_of (O := O)) self.
Proof. by intros s. Qed.

Lemma preserves_update_self {O} (f : O -> O) : preserves trail_of (update_self f).
Proof. by intros s. Qed.

Lemma preserves_utcnow : preserves audit_logs utcnow.
Proof. by intros w. Qed.

Lemma preserves_utcnow_ {O} : preserves (trail_of (O := O)) utcnow_.
Proof. apply preserves_in_world, preserves_utcnow. Qed.

Lemma preserves_firestore_call : preserves audit_logs firestore_call.
Proof. intros w. unfold firestore_call. by destruct (outages w) as [|[] ?]. Qed.

Lemma preserves_llm_call {A} (method : nat -> Res A) : preserves audit_logs (llm_call method).
Proof. by intros w. Qed.

Lemma preserves_modify (f : World -> World) :
  (forall w, audit_logs (f w) = audit_logs w) -> preserves audit_logs (modify f).
Proof. intros Hf w. apply Hf. Qed.

Create HintDb trail.

#[local] Hint Resolve preserves_ret preserves_raise preserves_lift_res
  preserves_get_state preserves_self preserves_update_self preserves_utcnow
  preserves_utcnow_ preserves_firestore_call preserves_llm_call : trail.

(** Breaks a computation down to the steps above, following its syntax. *)
Ltac preserves_step :=
  cbv zeta;
  lazymatch goal with
  | |- forall _, _ => intros
  | |- preserves _ (bind _ _) => apply preserves_bind
  | |- preserves _ (try_except _ _) => apply preserves_try_except
  | |- preserves _ (in_world _) => apply preserves_in_world
  | |- preserves _ (call_on _ _) => apply preserves_call_on
  | |- preserves _ (modify _) => apply preserves_modify; reflexivity
  | |- preserves _ (match ?x with _ => _ end) => destruct x
  | |- _ => solve [auto with trail]
  end.

Ltac preserves_steps := repeat preserves_step.

Lemma preserves_get_case (case_id : string) :
  preserves audit_logs (CaseRepository.get_case case_id).
Proof. unfold CaseRepository.get_case. preserves_steps. Qed.

#[local] Hint Resolve preserves_get_case : trail.

Lemma preserves_update_case (case : Case.t) :
  preserves audit_logs (CaseRepository.update_case case).
Proof.
  unfold CaseRepository.update_case. preserves_steps.
Qed.

Lemma preserves_create_case (case : Case.t) :
  preserves audit_logs (CaseRepository.create_case case).
Proof. unfold CaseRepository.create_case. preserves_steps. Qed.

Lemma preserves_create_task (task : Task.t) :
  preserves audit_logs (CaseRepository.create_task task).
Proof. unfold CaseRepository.create_task. preserves_steps. Qed.

Lemma preserves_update_task (task : Task.t) :
  preserves audit_logs (CaseRepository.update_task task).
Proof. unfold CaseRepository.update_task. preserves_steps. Qed.

Lemma preserves_find_task_by_title (task_title : PyVal) (case_id : option string) :
  preserves audit_logs (CaseRepository.find_task_by_title task_title case_id).
Proof. unfold CaseRepository.find_task_by_title. preserves_steps. Qed.

Lemma preserves_transition (new_status : CaseStatus) (validate : bool) :
  preserves trail_of (CaseStateMachine.transition new_status validate).
Proof.
  unfold CaseStateMachine.transition, CaseStateMachine.validate_transition.
  preserves_steps.
Qed.

Lemma preserves_add_field_value (field_name : string) (value : PyVal)
    (source : string) (confidence : Q) :
  preserves trail_of (FieldTracker.add_field_value field_name value source confidence).
Proof. unfold FieldTracker.add_field_value. preserves_steps. Qed.

Lemma preserves_add_fields (field_updates : list (string * PyVal)) (source : string) :
  preserves trail_of (CaseActionHandler.add_fields field_updates source).
Proof.
  induction field_updates as [|[field_name value] rest IH]; cbn.
  - apply preserves_ret.
  - apply preserves_bind; [apply preserves_add_field_value|]. intros _. exact IH.
Qed.

Lemma preserves_complete_via_in_progress :
  preserves trail_of CaseActionHandler.complete_via_in_progress.
Proof.
  unfold CaseActionHandler.complete_via_in_progress.
  preserves_steps; apply preserves_transition.
Qed.

Lemma preserves_require_case_id (kind : string) :
  preserves trail_of (ActionHandler.require_case_id kind).
Proof. unfold ActionHandler.require_case_id. preserves_steps. Qed.

Lemma preserves_mark_executed : preserves trail_of ActionHandler.mark_executed.
Proof. unfold ActionHandler.mark_executed. preserves_steps. Qed.

#[local] Hint Resolve preserves_get_case preserves_update_case preserves_create_case
  preserves_create_task preserves_update_task preserves_find_task_by_title
  preserves_transition preserves_add_field_value preserves_add_fields
  preserves_complete_via_in_progress preserves_require_case_id
  preserves_mark_executed : trail.

(** [log_action] appends the entry it is asked for, or appends nothing and
    raises a storage error. *)
Lemma log_action_outcome (success : bool) (before_state after_state : StateDump)
    (error_message : option string) (s : Action.t * World) :
  match ActionHandler.log_action success before_state after_state error_message s with
  | (Ok _, s') =>
      exists entry,
        trail_of s' = (trail_of s ++ [entry])%list
        /\ AuditLog.success entry = success
        /\ AuditLog.before_state entry = before_state
        /\ AuditLog.after_state entry = after_state
        /\ AuditLog.error_message entry = error_message
  | (Raise e, s') => trail_of s' = trail_of s /\ exists msg, e = StorageError msg
  end.
Proof.
  destruct s as [action w].
  unfold ActionHandler.log_action, AuditRepository.log_action, bind, self, utcnow_,
    in_world, utcnow, try_except, modify, ret, firestore_call, trail_of, raise.
  cbn. rewrite audit_id_not_empty. cbn.
  destruct (outages w) as [|[] rest]; cbn; eauto 10.
Qed.

Lemma logs_once_bind {A} (m : M (Action.t * World) A) (k : A -> M (Action.t * World) bool) :
  preserves trail_of m -> (forall a, logs_once (k a)) -> logs_once (bind m k).
Proof.
  intros Hm Hk s. unfold bind. specialize (Hm s).
  destruct (m s) as [[a | e] s']; cbn in Hm; [|exact Hm].
  specialize (Hk a s'). destruct (k a s') as [[b | e] s'']; by rewrite <- Hm.
Qed.

Lemma logs_once_raise (e : Exc) : logs_once (raise e).
Proof. by intros s. Qed.

Lemma logs_once_log (before_state after_state : StateDump) :
  logs_once (ActionHandler.log_action true before_state after_state None;; ret true).
Proof.
  intros s. unfold bind.
  pose proof (log_action_outcome true before_state after_state None s) as H.
  destruct (ActionHandler.log_action _ _ _ _ s) as [[[] | e] s']; cbn.
  - destruct H as (entry & Htrail & Hsucc & _). eauto.
  - apply H.
Qed.

(** The frame of the handlers turns a body that logs once into an audited
    execution. *)
Lemma audited_logs (what : string) (body : M (Action.t * World) bool) :
  logs_once body ->
  forall s, audited_outcome (ActionHandler.audited what body s).1
              (trail_of s) (trail_of (ActionHandler.audited what body s).2).
Proof.
  intros Hbody s. unfold ActionHandler.audited, try_except. specialize (Hbody s).
  destruct (body s) as [[b | e] s1]; cbn; [exact Hbody|].
  unfold bind.
  pose proof (log_action_outcome false empty_state empty_state (Some (str e)) s1) as H.
  destruct (ActionHandler.log_action _ _ _ _ s1) as [[[] | e'] s2]; cbn.
  - destruct H as (entry & Htrail & Hsucc & Hbefore & Hafter & Herr).
    exists entry, what, (str e). rewrite <- Hbody. auto 10.
  - destruct H as (Htrail & msg & ->). cbn. by rewrite <- Hbody.
Qed.

(** Breaks a handler body down to its last step, the audit entry. *)
Ltac logs_once_step :=
  cbv zeta;
  lazymatch goal with
  | |- forall _, _ => intros
  | |- logs_once (bind (ActionHandler.log_action _ _ _ _) _) => apply logs_once_log
  | |- logs_once (raise _) => apply logs_once_raise
  | |- logs_once (bind _ _) => apply logs_once_bind; [solve [preserves_steps] |]
  | |- logs_once (match ?x with _ => _ end) => destruct x
  end.

Ltac logs_once_steps := repeat logs_once_step.

Lemma create_case_logs_once (s : Action.t * World) :
  audited_outcome (CaseActionHandler._create_case s).1
    (trail_of s) (trail_of (CaseActionHandler._create_case s).2).
Proof. apply audited_logs. logs_once_steps. Qed.

Lemma update_case_logs_once (s : Action.t * World) :
  audited_outcome (CaseActionHandler._update_case s).1
    (trail_of s) (trail_of (CaseActionHandler._update_case s).2).
Proof. apply audited_logs. logs_once_steps. Qed.

Lemma complete_case_logs_once (s : Action.t * World) :
  audited_outcome (CaseActionHandler._complete_case s).1
    (trail_of s) (trail_of (CaseActionHandler._complete_case s).2).
Proof. apply audited_logs. logs_once_steps. Qed.

Lemma cancel_case_logs_once (s : Action.t * World) :
  audited_outcome (CaseActionHandler._cancel_case s).1
    (trail_of s) (trail_of (CaseActionHandler._cancel_case s).2).
Proof. apply audited_logs. logs_once_steps. Qed.

Lemma create_task_logs_once (s : Action.t * World) :
  audited_outcome (TaskActionHandler._create_task s).1
    (trail_of s) (trail_of (TaskActionHandler._create_task s).2).
Proof. apply audited_logs. logs_once_steps. Qed.

Lemma complete_task_logs_once (s : Action.t * World) :
  audited_outcome (TaskActionHandler._complete_task s).1
    (trail_of s) (trail_of (TaskActionHandler._complete_task s).2).
Proof. apply audited_logs. logs_once_steps. Qed.

Lemma draft_followup_email_logs_once (llm_service : option LLMService)
    (s : Action.t * World) :
  audited_outcome (FollowupActionHandler._draft_followup_email llm_service s).1
    (trail_of s) (trail_of (FollowupActionHandler._draft_followup_email llm_service s).2).
Proof. apply audited_logs. logs_once_steps. Qed.

Lemma initiate_loa_chase_logs_once (s : Action.t * World) :
  audited_outcome (FollowupActionHandler._initiate_loa_chase s).1
    (trail_of s) (trail_of (FollowupActionHandler._initiate_loa_chase s).2).
Proof. apply audited_logs. logs_once_steps. Qed.




(** ** The orchestrator *)

Lemma returns_bind {S A B} (P : B -> Prop) (m : M S A) (k : A -> M S B) :
  (forall a, returns P (k a)) -> returns P (bind m k).
Proof.
  intros Hk s b s'. unfold bind. destruct (m s) as [[a | e] s1]; [|discriminate].
  apply Hk.
Qed.

Lemma returns_ret {S A} (P : A -> Prop) (a : A) : P a -> returns (S := S) P (ret a).
Proof. intros Ha s a' s' [= <- _]. exact Ha. Qed.

Lemma returns_bind_self {O W B} (P : O -> B -> Prop) (k : O -> M (O * W) B) :
  (forall o, returns (P o) (k o)) ->
  forall s b s', bind self k s = (Ok b, s') -> P s.1 b.
Proof. intros H s b s' Hrun. unfold bind, self in Hrun. by eapply H. Qed.

Lemma in_world_keeps_self {O W A T} (part : O -> T) (m : M W A) :
  preserves (fun s : O * W => part s.1) (in_world m).
Proof. intros [o w]. unfold in_world. cbn. by destruct (m w). Qed.

Lemma update_self_keeps {O W T} (part : O -> T) (f : O -> O) :
  (forall o, part (f o) = part o) ->
  preserves (fun s : O * W => part s.1) (update_self f).
Proof. intros Hf [o w]. apply Hf. Qed.

Lemma self_keeps {O W T} (part : O * W -> T) : preserves part self.
Proof. by intros s. Qed.

Section Orchestrator.
Variable llm_service : LLMService.
Variable pre_filter : PreFilter.t.

Lemma body_keeps_id (start_time : nat) :
  preserves (fun s : Message.t * World => Message.id s.1)
    (PipelineOrchestrator.process_message_body llm_service pre_filter start_time).
Proof.
  unfold PipelineOrchestrator.process_message_body.
  repeat
    (cbv zeta;
     lazymatch goal with
     | |- forall _, _ => intros
     | |- preserves _ (bind _ _) => apply preserves_bind
     | |- preserves _ self => apply self_keeps
     | |- preserves _ (in_world _) => apply (in_world_keeps_self Message.id)
     | |- preserves _ utcnow_ => apply (in_world_keeps_self Message.id)
     | |- preserves _ (update_self _) =>
         apply (update_self_keeps Message.id); reflexivity
     | |- preserves _ (match ?x with _ => _ end) => destruct x
     | |- _ => solve [auto with trail]
     end).
Qed.

Lemma body_result (start_time : nat) (s s' : Message.t * World)
    (result : ProcessingResult.t) :
  PipelineOrchestrator.process_message_body llm_service pre_filter start_time s
  = (Ok result, s') ->
  ProcessingResult.success result = true
  /\ ProcessingResult.message_id result = Message.id s.1
  /\ is_Some (ProcessingResult.classification result).
Proof.
  unfold PipelineOrchestrator.process_message_body. intros Hrun.
  eapply (returns_bind_self
            (fun message result =>
               ProcessingResult.success result = true
               /\ ProcessingResult.message_id result = Message.id message
               /\ is_Some (ProcessingResult.classification result)));
    [|exact Hrun].
  repeat
    (cbv beta zeta;
     lazymatch goal with
     | |- forall _, _ => intros
     | |- returns _ (bind _ _) => apply returns_bind
     | |- returns _ (ret _) => apply returns_ret; split_and!; solve [reflexivity | eauto]
     | |- returns _ (match ?x with _ => _ end) => destruct x
     end).
Qed.

(** [process_message] always returns a result: the result of the body
    when the body returns, and a failed result carrying the message of
    the exception when the body raises. *)
Lemma process_message_outcome (message : Message.t) (w : World) :
  exists result message' w',
    PipelineOrchestrator.process_message llm_service pre_filter message w
    = (Ok (result, message'), w')
    /\ ProcessingResult.message_id result = Message.id message
    /\ match PipelineOrchestrator.process_message_body llm_service pre_filter
               (clock w) (message, set_clock (S (clock w)) w) with
       | (Ok result', _) =>
           result = result'
           /\ ProcessingResult.success result = true
           /\ is_Some (ProcessingResult.classification result)
       | (Raise e, _) =>
           ProcessingResult.success result = false
           /\ ProcessingResult.error_message result = Some (str e)
           /\ ProcessingResult.classification result = None
           /\ ProcessingResult.actions_taken result = []
           /\ Message.processing_status message' = FAILED
       end.
Proof.
  unfold PipelineOrchestrator.process_message.
  erewrite bind_ok by reflexivity.
  unfold call_on, try_except.
  pose proof (body_keeps_id (clock w) (message, set_clock (S (clock w)) w)) as Hid.
  pose proof (body_result (clock w) (message, set_clock (S (clock w)) w)) as Hok.
  destruct (PipelineOrchestrator.process_message_body _ _ _ _)
    as [[result | e] [message1 w1]]; cbn in Hid.
  - destruct (Hok _ _ eq_refl) as (Hsucc & Hmid & Hclass).
    eexists _, _, _. split; [reflexivity|]. auto.
  - eexists _, _, _. split; [reflexivity|]. cbn. auto 10.
Qed.
End Orchestrator.

Lemma count_app (f : ProcessingResult.t -> bool) (l1 l2 : list ProcessingResult.t) :
  count f (l1 ++ l2) = count f l1 + count f l2.
Proof. unfold count. by rewrite List.filter_app, length_app. Qed.

Lemma count_partition (results : list ProcessingResult.t) :
  count is_processed results + count is_skipped results + count is_failed results
  = List.length results.
Proof.
  unfold count, is_processed, is_skipped, is_failed.
  induction results as [|r rest IH]; [reflexivity|]. cbn.
  destruct (ProcessingResult.success r), (PipelineOrchestrator.counts_as_processed r);
    cbn; lia.
Qed.

Lemma tally_counts (result : ProcessingResult.t) (t : PipelineOrchestrator.Tally) :
  let t' := PipelineOrchestrator.tally result t in
  PipelineOrchestrator.results_so_far t'
  = (PipelineOrchestrator.results_so_far t ++ [result])%list
  /\ PipelineOrchestrator.processed_count t'
     = PipelineOrchestrator.processed_count t + count is_processed [result]
  /\ PipelineOrchestrator.skipped_count t'
     = PipelineOrchestrator.skipped_count t + count is_skipped [result]
  /\ PipelineOrchestrator.failed_count t'
     = PipelineOrchestrator.failed_count t + count is_failed [result].
Proof.
  unfold PipelineOrchestrator.tally, count, is_processed, is_skipped, is_failed. cbn.
  destruct (ProcessingResult.success result),
    (PipelineOrchestrator.counts_as_processed result); cbn; split_and!; (reflexivity || lia).
Qed.

Section Batch.
Variable llm_service : LLMService.
Variable pre_filter : PreFilter.t.

(** The loop of [process_batch] reaches the end of the messages whatever
    happens to each of them, and tallies one result per message. *)
Lemma process_each_outcome (messages : list Message.t)
    (t : PipelineOrchestrator.Tally) (w : World) :
  exists t' messages' w' results,
    PipelineOrchestrator.process_each llm_service pre_filter messages t w
    = (Ok (t', messages'), w')
    /\ PipelineOrchestrator.results_so_far t'
       = (PipelineOrchestrator.results_so_far t ++ results)%list
    /\ ProcessingResult.message_id <$> results = Message.id <$> messages
    /\ PipelineOrchestrator.processed_count t'
       = PipelineOrchestrator.processed_count t + count is_processed results
    /\ PipelineOrchestrator.skipped_count t'
       = PipelineOrchestrator.skipped_count t + count is_skipped results
    /\ PipelineOrchestrator.failed_count t'
       = PipelineOrchestrator.failed_count t + count is_failed results
    /\ Forall (fun result =>
                 (ProcessingResult.success result = true ->
                  is_Some (ProcessingResult.classification result))
                 /\ (ProcessingResult.success result = false ->
                     is_Some (ProcessingResult.error_message result))) results.
Proof.
  revert t w. induction messages as [|message rest IH]; intros t w.
  - exists t, [], w, []. cbn. rewrite app_nil_r. split_and!; auto.
  - destruct (process_message_outcome llm_service pre_filter message w)
      as (result & message' & w1 & Hrun & Hid & Hbody).
    destruct (IH (PipelineOrchestrator.tally result t) w1)
      as (t' & rest' & w' & results & Hrest & Hres & Hids & Hp & Hs & Hf & Herr).
    destruct (tally_counts result t) as (Hres1 & Hp1 & Hs1 & Hf1).
    exists t', (message' :: rest'), w', (result :: results).
    split.
    { cbn [PipelineOrchestrator.process_each].
      erewrite bind_ok by exact Hrun. cbv beta iota.
      erewrite bind_ok by exact Hrest. reflexivity. }
    change (result :: results) with ([result] ++ results)%list.
    rewrite !count_app.
    split_and!.
    + rewrite Hres, Hres1. by rewrite <- app_assoc.
    + cbn. by rewrite Hid, Hids.
    + lia.
    + lia.
    + lia.
    + apply Forall_cons. split; [|exact Herr].
      destruct (PipelineOrchestrator.process_message_body _ _ _ _) as [[r | e] s'].
      * destruct Hbody as (_ & Hsucc & Hclass). split; [auto | congruence].
      * destruct Hbody as (Hfail & -> & _). split; [congruence | eauto].
Qed.

End Batch.

(** ** The theorems at work on sample data *)

Lemma transition_complete_to_complete_restamps_witness :
  let w := sample_world completed_case [] in
  Case.completed_at completed_case = Some 5
  /\ exists case',
       CaseStateMachine.transition COMPLETE true (completed_case, w)
       = (Ok tt, (case', set_clock 11 w))
       /\ Case.status case' = COMPLETE
       /\ Case.completed_at case' = Some 10
       /\ case' <> completed_case.
Proof.
  intros w. split; [reflexivity|].
  apply (transition_complete_to_complete_restamps completed_case w);
    [reflexivity | discriminate].
Defined.

Lemma is_complete_characterised_witness :
  Case.is_complete
    (Case.set_received_fields {[ "DOB" := sample_field "DOB" "01/01/1980" ]}
       (sample_case OPEN ["DOB"])) = true
  /\ Case.is_complete (half_filled_case COMPLETE) = Case.is_complete (half_filled_case OPEN).
Proof.
  split.
  - apply (proj1 (proj1 (is_complete_characterised
                             (Case.set_received_fields
                                {[ "DOB" := sample_field "DOB" "01/01/1980" ]}
                                (sample_case OPEN ["DOB"]))) eq_refl)).
    apply (bool_decide_unpack _). vm_compute. exact I.
  - apply (proj2 (proj2 (proj1 (is_complete_characterised (half_filled_case OPEN))
                                 eq_refl))
             COMPLETE).
Defined.

Lemma should_auto_transition_characterised_witness :
  CaseStateMachine.should_auto_transition (half_filled_case IN_PROGRESS)
  = Some AWAITING_INFO.
Proof.
  apply (proj1 (proj2 (should_auto_transition_characterised
                         (half_filled_case IN_PROGRESS))));
    [reflexivity | reflexivity |].
  exists "NI". split; [|reflexivity].
  apply (bool_decide_unpack _). vm_compute. exact I.
Defined.

Lemma add_field_value_last_write_wins_witness :
  exists case' w' latest,
    (FieldTracker.add_field_value "DOB" (PyStr "01/01/1980") "msg_1" 1;;
     FieldTracker.add_field_value "DOB" (PyStr "02/02/1980") "msg_2" 1)
      (sample_case OPEN ["DOB"; "NI"], sample_world (sample_case OPEN ["DOB"; "NI"]) [])
    = (Ok tt, (case', w'))
    /\ FieldValue.value latest = "02/02/1980"
    /\ Case.received_fields case' !! "DOB" = Some latest
    /\ List.length
         (filter (fun kv => kv.1 = "DOB") (map_to_list (Case.received_fields case'))) = 1.
Proof.
  destruct (add_field_value_last_write_wins
              (sample_case OPEN ["DOB"; "NI"])
              (sample_world (sample_case OPEN ["DOB"; "NI"]) [])
              "DOB" "01/01/1980" "02/02/1980" "msg_1" "msg_2" 1 1 eq_refl eq_refl)
    as (case' & w' & latest & Hrun & _ & Hvalue & _ & _ & Hlookup & Hone & _).
  exists case', w', latest. auto.
Defined.

Lemma add_field_to_case_completes_directly_witness :
  let case := sample_case OPEN ["DOB"] in
  let w := sample_world case [] in
  CaseStateMachine.can_transition OPEN COMPLETE = false
  /\ exists case' w',
       CaseRepository.add_field_to_case "case_1" (sample_field "DOB" "01/01/1980") w
       = (Ok case', w')
       /\ Case.status case' = COMPLETE
       /\ Case.completed_at case' = Some 11
       /\ cases w' !! "case_1" = Some case'.
Proof.
  intros case w. split; [reflexivity|].
  destruct (add_field_to_case_completes_directly w "case_1" case
              (sample_field "DOB" "01/01/1980"))
    as (case' & w' & Hrun & Hstatus & Hstamp & _ & Hstored & _);
    [reflexivity | reflexivity | reflexivity | reflexivity | discriminate |].
  exists case', w'. auto.
Defined.

Lemma complete_case_goes_through_in_progress_witness :
  let case := sample_case OPEN ["DOB"; "NI"] in
  let w := sample_world case [] in
  exists action' w' persisted,
    CaseActionHandler._complete_case (sample_action COMPLETE_CASE (Some "case_1"), w)
    = (Ok true, (action', w'))
    /\ cases w' !! "case_1" = Some persisted
    /\ Case.status persisted = COMPLETE
    /\ CaseActionHandler.complete_via_in_progress (case, w)
       = (CaseStateMachine.transition IN_PROGRESS true;;
          CaseStateMachine.transition COMPLETE true) (case, w).
Proof.
  intros case w.
  destruct (complete_case_goes_through_in_progress
              (sample_action COMPLETE_CASE (Some "case_1")) w "case_1" case)
    as (action' & w' & persisted & Hrun & Hstored & Hstatus & Hhops & _);
    [reflexivity | reflexivity | discriminate | reflexivity | reflexivity | |].
  - apply (bool_decide_unpack _). vm_compute. exact I.
  - exists action', w', persisted. split_and!; try assumption.
    apply Hhops. left. reflexivity.
Defined.

Lemma producers_normalise_relevance_witness :
  let generate_text (n : nat) (system text : string) : Res (option string) :=
    Ok (Some "{...}") in
  let parse (reply : string) :=
    Some [("category", JStr "admin"); ("is_relevant", JBool true)] in
  exists c,
    DefaultLLMService.classify_message (fun _ => Ok tt) (Ok "system prompt")
      generate_text parse (fun _ => None) (fun _ => "")
      0 (sample_message "msg_1" "Out of office until Monday") = Ok c
    /\ Classification.category c = ADMIN
    /\ Classification.is_relevant c = false.
Proof.
  intros generate_text parse. eexists. split; [vm_compute; reflexivity|].
  split; [reflexivity|].
  eapply (proj1 producers_normalise_relevance
            (fun _ => Ok tt) (Ok "system prompt") generate_text parse
            (fun _ => None) (fun _ => "") 0
            (sample_message "msg_1" "Out of office until Monday"));
    [vm_compute; reflexivity | left; reflexivity].
Defined.


(** The sample batch, run: the spam is skipped, the message that the model
    fails to classify and the one whose action is refused are failed, and
    the message between them is processed. *)
Example sample_batch_run :
  let w := sample_world (sample_case CANCELLED ["DOB"; "NI"]) [] in
  match PipelineOrchestrator.process_batch sample_service default_filter sample_batch w with
  | (Ok (batch, messages'), w') =>
      BatchProcessingResult.processed batch = 1
      /\ BatchProcessingResult.skipped batch = 1
      /\ BatchProcessingResult.failed batch = 2
      /\ ProcessingResult.error_message <$> BatchProcessingResult.results batch
         = [None; Some "model unavailable"; None;
            Some "Failed to complete case: Invalid state transition for case case_1: CANCELLED → COMPLETE"]
      /\ Message.processing_status <$> messages' = [PENDING; FAILED; PROCESSED; FAILED]
      /\ (BatchProcessingResult.get_success_rate batch == 25)%Q
      /\ List.length (audit_logs w') = 2
  | (Raise _, _) => False
  end.
Proof. vm_compute. split_and!; reflexivity. Qed.

(** Ten messages, seven processed, two skipped, one failed: 70 percent. *)
Example success_rate_of_seven_in_ten :
  (BatchProcessingResult.get_success_rate
     {| BatchProcessingResult.total_messages := 10;
        BatchProcessingResult.processed := 7;
        BatchProcessingResult.failed := 1;
        BatchProcessingResult.skipped := 2;
        BatchProcessingResult.results := [];
        BatchProcessingResult.total_time_ms := 0 |} == 70)%Q.
Proof. reflexivity. Qed.

(** The end-to-end scenario of the specification: a field update on a case
    that is IN_PROGRESS and still misses a field moves it to AWAITING_INFO
    and writes one successful audit entry. *)
Example update_case_scenario :
  let case := sample_case IN_PROGRESS ["date_of_birth"; "plan_number"] in
  let w := sample_world case [] in
  let action :=
    Action.set_parameter "field_updates"
      (PyDict [("date_of_birth", PyStr "1980-01-01")])
      (sample_action UPDATE_CASE (Some "case_1")) in
  match ActionRouter.route_action None (action, w) with
  | (Ok true, (_, w')) =>
      (Case.status <$> cases w' !! "case_1") = Some AWAITING_INFO
      /\ (FieldValue.value <$>
            (cases w' !! "case_1" ≫= fun c => Case.received_fields c !! "date_of_birth"))
         = Some "1980-01-01"
      /\ AuditLog.success <$> audit_logs w' = [true]
  | _ => False
  end.
Proof. vm_compute. split_and!; reflexivity. Qed.

(** * Further properties of the code *)

(** ** Terminal states *)

Lemma is_terminal_state_iff (status : CaseStatus) :
  CaseStateMachine.is_terminal_state status = true
  <-> status = COMPLETE \/ status = CANCELLED.
Proof. destruct status; cbn; intuition discriminate. Qed.

(** X1.  A status is terminal ([is_terminal_state]) exactly when it is
    COMPLETE or CANCELLED, and then it has no next state.  A validated
    transition never changes the status of a case in a terminal state: asked
    for another status it raises and leaves the case and the world as they
    were.  The table is only consulted under [validate]: without it the same
    call sets whatever status it is given. *)
Theorem terminal_states_absorb (case : Case.t) (new_status : CaseStatus) (w : World) :
  CaseStateMachine.is_terminal_state (Case.status case) = true ->
  (Case.status case = COMPLETE \/ Case.status case = CANCELLED)
  /\ CaseStateMachine.get_next_states (Case.status case) = []
  /\ Case.status (CaseStateMachine.transition new_status true (case, w)).2.1
     = Case.status case
  /\ (new_status <> Case.status case ->
      exists msg,
        CaseStateMachine.transition new_status true (case, w)
        = (Raise (InvalidStateTransitionError msg), (case, w)))
  /\ (CaseStateMachine.transition new_status false (case, w)).1 = Ok tt
  /\ Case.status (CaseStateMachine.transition new_status false (case, w)).2.1
     = new_status.
Proof.
  intros Hterm. pose proof (proj1 (is_terminal_state_iff _) Hterm) as Hst.
  assert (CaseStateMachine.VALID_TRANSITIONS (Case.status case) = []) as Hnone
    by (destruct Hst as [-> | ->]; reflexivity).
  assert (forall s, s <> Case.status case ->
            exists msg,
              CaseStateMachine.transition s true (case, w)
              = (Raise (InvalidStateTransitionError msg), (case, w))) as Hrefused.
  { intros s Hne. apply transition_refused; [congruence|].
    rewrite Hnone. apply not_elem_of_nil. }
  split_and!.
  - exact Hst.
  - exact Hnone.
  - destruct (decide (new_status = Case.status case)) as [-> | Hne].
    + destruct (transition_same_state case w) as (case' & w' & -> & Hsame & _).
      exact Hsame.
    + destruct (Hrefused _ Hne) as [msg ->]. reflexivity.
  - apply Hrefused.
  - unfold CaseStateMachine.transition, bind, update_self, ret. cbn.
    destruct (bool_decide (new_status = COMPLETE)); reflexivity.
  - unfold CaseStateMachine.transition, bind, update_self, ret. cbn.
    destruct (bool_decide (new_status = COMPLETE)); reflexivity.
Qed.

Lemma terminal_states_absorb_witness :
  CaseStateMachine.is_terminal_state (Case.status completed_case) = true
  /\ Case.status
       (CaseStateMachine.transition CANCELLED true
          (completed_case, sample_world completed_case [])).2.1 = COMPLETE
  /\ Case.status
       (CaseStateMachine.transition OPEN false
          (completed_case, sample_world completed_case [])).2.1 = OPEN.
Proof.
  split; [reflexivity|].
  destruct (terminal_states_absorb completed_case CANCELLED
              (sample_world completed_case []) eq_refl)
    as (_ & _ & Hkeep & _).
  destruct (terminal_states_absorb completed_case OPEN
              (sample_world completed_case []) eq_refl)
    as (_ & _ & _ & _ & _ & Hset).
  split; [exact Hkeep | exact Hset].
Defined.

(** ** Field tracking, further *)

(** X2.  [categorize_fields] splits the field names of a case three ways:
    the three sets are pairwise disjoint, "received" and "missing" make up
    the required fields, "received" and "extra" make up the keys of the
    received fields, "missing" holds exactly the names that
    [get_missing_fields] lists, and for a LoA case it is empty exactly when
    the case is complete. *)
Theorem categorize_fields_partition (case : Case.t) :
  let '(received, missing, extra) := FieldTracker.categorize_fields case in
  received ## missing /\ received ## extra /\ missing ## extra
  /\ received ∪ missing = list_to_set (Case.required_fields case)
  /\ received ∪ extra = dom (Case.received_fields case)
  /\ missing = list_to_set (FieldTracker.get_missing_fields case)
  /\ (missing = ∅ <-> FieldTracker.get_missing_fields case = [])
  /\ (Case.case_type case = LOA -> (missing = ∅ <-> Case.is_complete case = true)).
Proof.
  unfold FieldTracker.categorize_fields, FieldTracker.get_missing_fields,
    Case.get_missing_fields, Case.required, Case.received.
  set (X := list_to_set (Case.required_fields case) : gset string).
  set (Y := dom (Case.received_fields case) : gset string).
  assert (X ∖ Y = ∅ <-> X ⊆ Y) as Hempty.
  { split.
    - intros H x Hx. destruct (decide (x ∈ Y)); [done|]. exfalso.
      assert (x ∈ X ∖ Y) as H1 by (apply elem_of_difference; done).
      rewrite H in H1. by apply not_elem_of_empty in H1.
    - intros H. apply set_eq. intros x. rewrite elem_of_difference.
      split; [|by intros ?%not_elem_of_empty]. intros [H1 H2]. destruct H2. by apply H. }
  split_and!.
  - intros x. rewrite elem_of_intersection, elem_of_difference. tauto.
  - intros x. rewrite elem_of_intersection, elem_of_difference. tauto.
  - intros x. rewrite !elem_of_difference. tauto.
  - apply set_eq. intros x. rewrite elem_of_union, elem_of_intersection,
      elem_of_difference. destruct (decide (x ∈ Y)); tauto.
  - apply set_eq. intros x. rewrite elem_of_union, elem_of_intersection,
      elem_of_difference. destruct (decide (x ∈ X)); tauto.
  - apply set_eq. intros x. by rewrite elem_of_list_to_set, elem_of_elements.
  - rewrite elements_empty_iff. split; [by intros -> | by intros ?%leibniz_equiv].
  - intros Hloa. rewrite Hempty. unfold Case.is_complete.
    rewrite bool_decide_eq_true_2 by done. cbn. by rewrite bool_decide_eq_true.
Qed.

Lemma suggest_when_missing (case : Case.t) :
  FieldTracker.get_missing_fields case <> [] ->
  FieldTracker.suggest_next_action case
  <> "All required fields received. Case can be completed.".
Proof.
  unfold FieldTracker.suggest_next_action.
  destruct (FieldTracker.get_missing_fields case) as [|f [|g rest]]; [done| |].
  - intros _. cbn. discriminate.
  - intros _. destruct (_ <=? 3)%nat; cbn; discriminate.
Qed.

(** X3.  [suggest_next_action] says that the case can be completed
    exactly when no required field is missing, whatever the type and the
    status of the case (for a LoA case: exactly when [is_complete] holds).
    Otherwise it asks to chase the provider: it names the missing fields
    when they are three at most, and gives their number beyond. *)
Theorem suggest_next_action_characterised (case : Case.t) :
  let all_received := "All required fields received. Case can be completed." in
  let missing := FieldTracker.get_missing_fields case in
  (FieldTracker.suggest_next_action case = all_received
   <-> forall f, f ∈ Case.required_fields case ->
                 is_Some (Case.received_fields case !! f))
  /\ (Case.case_type case = LOA ->
      (FieldTracker.suggest_next_action case = all_received
       <-> Case.is_complete case = true))
  /\ (1 <= List.length missing <= 3 ->
      FieldTracker.suggest_next_action case
      = "Chase provider for: " +:+ join ", " missing)
  /\ (3 < List.length missing ->
      FieldTracker.suggest_next_action case
      = "Chase provider for " +:+ pretty (List.length missing) +:+ " missing fields").
Proof.
  intros all_received missing.
  assert (FieldTracker.suggest_next_action case = all_received
          <-> forall f, f ∈ Case.required_fields case ->
                        is_Some (Case.received_fields case !! f)) as Hall.
  { rewrite <- required_subseteq_received, <- missing_fields_nil. split.
    - intros Hs. destruct (Case.get_missing_fields case) eqn:Hm; [done|].
      exfalso. apply (suggest_when_missing case); [|exact Hs].
      unfold FieldTracker.get_missing_fields. by rewrite Hm.
    - intros Hm. unfold FieldTracker.suggest_next_action,
        FieldTracker.get_missing_fields. by rewrite Hm. }
  split_and!.
  - exact Hall.
  - intros Hloa. rewrite Hall. symmetry. by apply is_complete_loa.
  - unfold FieldTracker.suggest_next_action. fold missing.
    destruct missing as [|f [|g rest]]; cbn [List.length]; intros [H1 H3].
    + lia.
    + reflexivity.
    + apply Nat.leb_le in H3. cbn [List.length] in H3. by rewrite H3.
  - unfold FieldTracker.suggest_next_action. fold missing.
    destruct missing as [|f [|g rest]]; cbn [List.length]; intros H3; [lia | lia |].
    apply Nat.leb_gt in H3. cbn [List.length] in H3. by rewrite H3.
Qed.

Lemma suggest_next_action_characterised_witness :
  FieldTracker.suggest_next_action (half_filled_case IN_PROGRESS)
  = "Chase provider for: NI".
Proof.
  apply (proj1 (proj2 (proj2 (suggest_next_action_characterised
                                (half_filled_case IN_PROGRESS))))).
  vm_compute. split; lia.
Defined.

Lemma low_confidence_iff (case : Case.t) (threshold : Q) (name : string) :
  name ∈ FieldTracker.get_low_confidence_fields case threshold
  <-> exists value,
        Case.received_fields case !! name = Some value
        /\ (FieldValue.confidence value < threshold)%Q.
Proof.
  unfold FieldTracker.get_low_confidence_fields.
  rewrite list_elem_of_fmap. split.
  - intros ([k v] & -> & Hin). apply list_elem_of_In, filter_In in Hin as [Hin Hlow].
    apply list_elem_of_In, elem_of_map_to_list in Hin. exists v. split; [exact Hin|].
    cbn in Hlow. apply negb_true_iff in Hlow. apply Qnot_le_lt. intros Hle.
    apply Qle_bool_iff in Hle. congruence.
  - intros (v & Hin & Hlow). exists (name, v). split; [reflexivity|].
    apply list_elem_of_In, filter_In. split.
    + by apply list_elem_of_In, elem_of_map_to_list.
    + cbn. apply negb_true_iff, not_true_is_false. intros Hle.
      apply Qle_bool_iff in Hle. by apply Qlt_not_le in Hlow.
Qed.

(** X4.  A field added by [add_field_value] is tracked at once:
    [is_field_received] holds for it, [get_received_fields] lists it,
    [get_field_sources] maps it to the message that supplied it, it is no
    longer missing, and [get_low_confidence_fields] lists it exactly when its
    confidence is below the threshold; what the tracker says of every other
    field is unchanged.  A value that the model refuses (not a string, or a
    confidence outside [0, 1]) raises before the case is touched. *)
Theorem added_field_is_tracked (case : Case.t) (w : World)
    (field_name source : string) (value : PyVal) (confidence threshold : Q) :
  (forall text,
     value = PyStr text -> in_unit_interval confidence = true ->
     exists case' w',
       FieldTracker.add_field_value field_name value source confidence (case, w)
       = (Ok tt, (case', w'))
       /\ FieldTracker.is_field_received case' field_name = true
       /\ field_name ∈ FieldTracker.get_received_fields case'
       /\ FieldTracker.get_field_sources case' !! field_name = Some source
       /\ (field_name ∉ FieldTracker.get_missing_fields case')
       /\ (field_name ∈ FieldTracker.get_low_confidence_fields case' threshold
           <-> (confidence < threshold)%Q)
       /\ forall other, other <> field_name ->
            FieldTracker.is_field_received case' other
            = FieldTracker.is_field_received case other
            /\ FieldTracker.get_field_sources case' !! other
               = FieldTracker.get_field_sources case !! other
            /\ (other ∈ FieldTracker.get_low_confidence_fields case' threshold
                <-> other ∈ FieldTracker.get_low_confidence_fields case threshold))
  /\ ((forall text, value <> PyStr text) \/ in_unit_interval confidence = false ->
      exists msg w',
        FieldTracker.add_field_value field_name value source confidence (case, w)
        = (Raise (PyError msg), (case, w'))).
Proof.
  split.
  - intros text -> Hconf. rewrite (add_field_value_ok _ _ _ _ _ _ Hconf).
    eexists _, _. split; [reflexivity|].
    unfold FieldTracker.is_field_received, FieldTracker.get_received_fields,
      FieldTracker.get_field_sources, FieldTracker.get_missing_fields,
      Case.get_missing_fields, Case.received.
    cbn [Case.received_fields Case.set_received_fields Case.set_updated_at].
    split_and!.
    + apply bool_decide_eq_true. rewrite lookup_insert_eq. eauto.
    + apply list_elem_of_fmap. eexists (field_name, _). split; [reflexivity|].
      apply elem_of_map_to_list, lookup_insert_eq.
    + by rewrite lookup_fmap, lookup_insert_eq.
    + rewrite elem_of_elements, elem_of_difference, elem_of_dom, lookup_insert_eq.
      intros [_ Hno]. apply Hno. eauto.
    + rewrite low_confidence_iff. cbn. rewrite lookup_insert_eq. split.
      * by intros (v & [= <-] & Hlow).
      * intros Hlow. eexists. split; [reflexivity|]. exact Hlow.
    + intros other Hne. split_and!.
      * by rewrite lookup_insert_ne.
      * by rewrite !lookup_fmap, lookup_insert_ne.
      * rewrite !low_confidence_iff. cbn. by rewrite lookup_insert_ne.
  - intros Hbad.
    unfold FieldTracker.add_field_value, bind, utcnow_, in_world, utcnow, lift_res,
      FieldValue.new. cbn.
    destruct value as [| b | text | l | d]; try (eexists _, _; reflexivity).
    destruct Hbad as [Hno | Hconf]; [by destruct (Hno text)|].
    rewrite Hconf. eexists _, _. reflexivity.
Qed.

Lemma added_field_is_tracked_witness :
  exists case' w',
    FieldTracker.add_field_value "NI" (PyStr "QQ123456C") "msg_2" 0.5%Q
      (half_filled_case IN_PROGRESS, sample_world (half_filled_case IN_PROGRESS) [])
    = (Ok tt, (case', w'))
    /\ FieldTracker.get_field_sources case' !! "NI" = Some "msg_2"
    /\ "NI" ∈ FieldTracker.get_low_confidence_fields case' 0.7%Q.
Proof.
  destruct (proj1 (added_field_is_tracked (half_filled_case IN_PROGRESS)
                     (sample_world (half_filled_case IN_PROGRESS) [])
                     "NI" "msg_2" (PyStr "QQ123456C") 0.5%Q 0.7%Q)
              "QQ123456C" eq_refl eq_refl)
    as (case' & w' & Hrun & _ & _ & Hsource & _ & Hlow & _).
  exists case', w'. split_and!; [exact Hrun | exact Hsource |].
  apply Hlow. reflexivity.
Defined.

Lemma percentage_spec (c n : nat) :
  0 < n -> c <= n ->
  let pct := (inject_Z (Z.of_nat c) / inject_Z (Z.of_nat n) * 100)%Q in
  (0 <= pct)%Q /\ (pct <= 100)%Q /\ ((pct == 100)%Q <-> c = n)
  /\ forall c', c <= c' ->
       (pct <= inject_Z (Z.of_nat c') / inject_Z (Z.of_nat n) * 100)%Q.
Proof.
  intros Hn Hc. destruct n as [|k]; [lia|].
  change (Z.of_nat (S k)) with (Z.pos (Pos.of_succ_nat k)).
  unfold Qle, Qeq, Qdiv, Qmult, Qinv, inject_Z. cbn.
  rewrite ?Pos.mul_1_r, ?Z.mul_1_r, ?Pos.mul_1_l.
  pose proof (Zpos_P_of_succ_nat k) as Hk.
  split_and!; try lia.
  intros c' Hc'. nia.
Qed.

(** The number of required fields found among the received ones. *)
Lemma received_count_spec (m : gmap string FieldValue.t) (l : list string) :
  let count := List.length (filter (fun f => is_Some (m !! f)) l) in
  count <= List.length l
  /\ (count = List.length l <-> forall f, f ∈ l -> is_Some (m !! f))
  /\ forall k v,
       count <= List.length (filter (fun f => is_Some (<[k := v]> m !! f)) l).
Proof.
  induction l as [|x l (IH1 & IH2 & IH3)]; cbv zeta in *.
  - split_and!; [cbn; lia | | intros; cbn; lia].
    split; [|done]. intros _ f Hf. by apply elem_of_nil in Hf.
  - rewrite filter_cons. cbn [List.length]. destruct (decide (is_Some (m !! x))) as [Hx | Hx]; cbn [List.length].
    + split_and!.
      * lia.
      * rewrite Nat.succ_inj_wd, IH2. split.
        -- intros H f [-> | Hf]%elem_of_cons; auto.
        -- intros H f Hf. apply H. by right.
      * intros k v. rewrite filter_cons. specialize (IH3 k v).
        rewrite decide_True; [cbn [List.length]; lia|].
        destruct (decide (k = x)) as [-> | Hne];
          [rewrite lookup_insert_eq; eauto | by rewrite lookup_insert_ne].
    + split_and!.
      * lia.
      * split; [lia|]. intros H. destruct Hx. apply H. by left.
      * intros k v. rewrite filter_cons. specialize (IH3 k v).
        destruct (decide _); cbn [List.length]; lia.
Qed.

(** X5.  The completion percentage of a case lies between 0 and 100; it
    is 100 exactly when every required field has been received (for a LoA
    case: exactly when [is_complete] holds); and receiving one more field,
    or a new value for a field, never lowers it. *)
Theorem completion_percentage_bounds (case : Case.t) :
  (0 <= Case.get_completion_percentage case)%Q
  /\ (Case.get_completion_percentage case <= 100)%Q
  /\ ((Case.get_completion_percentage case == 100)%Q
      <-> forall f, f ∈ Case.required_fields case ->
                    is_Some (Case.received_fields case !! f))
  /\ (Case.case_type case = LOA ->
      ((Case.get_completion_percentage case == 100)%Q <-> Case.is_complete case = true))
  /\ forall field_name field_value,
       (Case.get_completion_percentage case
        <= Case.get_completion_percentage
             (Case.set_received_fields
                (<[field_name := field_value]> (Case.received_fields case)) case))%Q.
Proof.
  assert ((Case.get_completion_percentage case == 100)%Q
          <-> forall f, f ∈ Case.required_fields case ->
                        is_Some (Case.received_fields case !! f)) as Hall.
  { unfold Case.get_completion_percentage.
    destruct (received_count_spec (Case.received_fields case)
                (Case.required_fields case)) as (Hle & Hiff & _).
    destruct (Case.required_fields case) as [|x l] eqn:Hreq.
    - split; [|reflexivity]. intros _ f Hf. by apply elem_of_nil in Hf.
    - rewrite <- Hiff.
      apply (percentage_spec _ (List.length (x :: l))); [cbn; lia | exact Hle]. }
  split_and!.
  - unfold Case.get_completion_percentage.
    destruct (received_count_spec (Case.received_fields case)
                (Case.required_fields case)) as (Hle & _ & _).
    destruct (Case.required_fields case) as [|x l]; [done|].
    apply (percentage_spec _ (List.length (x :: l))); [cbn; lia | exact Hle].
  - unfold Case.get_completion_percentage.
    destruct (received_count_spec (Case.received_fields case)
                (Case.required_fields case)) as (Hle & _ & _).
    destruct (Case.required_fields case) as [|x l]; [apply Qle_refl|].
    apply (percentage_spec _ (List.length (x :: l))); [cbn; lia | exact Hle].
  - exact Hall.
  - intros Hloa. rewrite Hall. symmetry. by apply is_complete_loa.
  - intros field_name field_value. unfold Case.get_completion_percentage.
    cbn [Case.required_fields Case.received_fields Case.set_received_fields].
    destruct (received_count_spec (Case.received_fields case)
                (Case.required_fields case)) as (Hle & _ & Hmono).
    destruct (Case.required_fields case) as [|x l]; [apply Qle_refl|].
    apply (percentage_spec _ (List.length (x :: l))); [cbn; lia | exact Hle |].
    apply Hmono.
Qed.

(** ** The case repository, further *)

Lemma raises_only_wrapped {S A} (P : Exc -> Prop) (m : M S A) (wrap : Exc -> Exc) :
  (forall e, P (wrap e)) -> raises_only P (try_except m (fun e => raise (wrap e))).
Proof.
  intros Hwrap s e s'. unfold try_except, raise.
  destruct (m s) as [[a | e0] s0]; [discriminate|]. intros [= <- _]. apply Hwrap.
Qed.

Lemma raises_only_bind {S A B} (P : Exc -> Prop) (m : M S A) (k : A -> M S B) :
  raises_only P m -> (forall a, raises_only P (k a)) -> raises_only P (bind m k).
Proof.
  intros Hm Hk s e s'. unfold bind.
  destruct (m s) as [[a | e0] s0] eqn:Hrun.
  - apply Hk.
  - intros [= <- _]. by eapply Hm.
Qed.

Lemma get_case_raises (case_id : string) :
  raises_only
    (fun e => is_storage_error e \/ e = CaseNotFoundError ("Case not found: " +:+ case_id))
    (CaseRepository.get_case case_id).
Proof.
  intros w e w'.
  unfold CaseRepository.get_case, try_except, bind, get_state, firestore_call, raise, ret.
  destruct (outages w) as [|[] rest]; cbn.
  - destruct (cases w !! case_id); [discriminate|]. cbn. intros [= <- _]. by right.
  - intros [= <- _]. left. by eexists.
  - destruct (cases _ !! case_id); [discriminate|]. cbn. intros [= <- _]. by right.
Qed.

Lemma get_case_missing (case_id : string) (w : World) :
  cases w !! case_id = None ->
  exists e w',
    CaseRepository.get_case case_id w = (Raise e, w') /\ cases w' = cases w
    /\ (outages w = [] ->
        e = CaseNotFoundError ("Case not found: " +:+ case_id) /\ w' = w).
Proof.
  intros Hnone.
  unfold CaseRepository.get_case, try_except, bind, get_state, firestore_call, raise, ret.
  destruct (outages w) as [|[] rest]; cbn; rewrite ?Hnone; cbn;
    eexists _, _; (split; [reflexivity|]); split; try reflexivity; try discriminate.
  intros _. by destruct w.
Qed.

(** X6.  The error contract of the case repository.  Whatever the state of
    the database, [create_case], [update_case], [delete_case],
    [find_case_by_client_and_title], [create_task], [update_task],
    [find_task_by_title] and the audit repository's [log_action] raise
    nothing but a storage error; [get_case] and [add_field_to_case] raise
    a storage error or the case-not-found error of the id they were given.
    [update_case] on a case that is not stored does not raise the
    case-not-found error: it wraps it into a storage error, and stores
    nothing. *)
Theorem repository_error_contract :
  (forall case, raises_only is_storage_error (CaseRepository.create_case case))
  /\ (forall case, raises_only is_storage_error (CaseRepository.update_case case))
  /\ (forall case_id, raises_only is_storage_error (CaseRepository.delete_case case_id))
  /\ (forall client_name case_title,
        raises_only is_storage_error
          (CaseRepository.find_case_by_client_and_title client_name case_title))
  /\ (forall task, raises_only is_storage_error (CaseRepository.create_task task))
  /\ (forall task, raises_only is_storage_error (CaseRepository.update_task task))
  /\ (forall task_title case_id,
        raises_only is_storage_error (CaseRepository.find_task_by_title task_title case_id))
  /\ (forall audit_log, raises_only is_storage_error (AuditRepository.log_action audit_log))
  /\ (forall case_id,
        raises_only
          (fun e => is_storage_error e
                    \/ e = CaseNotFoundError ("Case not found: " +:+ case_id))
          (CaseRepository.get_case case_id))
  /\ (forall case_id field_value,
        raises_only
          (fun e => is_storage_error e
                    \/ e = CaseNotFoundError ("Case not found: " +:+ case_id))
          (CaseRepository.add_field_to_case case_id field_value))
  /\ (forall case w,
        cases w !! Case.id case = None ->
        exists msg w',
          CaseRepository.update_case case w = (Raise (StorageError msg), w')
          /\ cases w' = cases w
          /\ (outages w = [] ->
              msg = "Failed to update case: Case not found: " +:+ Case.id case)).
Proof.
  split_and!; try (intros; apply raises_only_wrapped; intros; by eexists).
  - apply get_case_raises.
  - intros case_id field_value. unfold CaseRepository.add_field_to_case.
    apply raises_only_bind; [apply get_case_raises|]. intros case. cbv zeta.
    apply raises_only_bind; [by intros w e w'|]. intros now.
    apply raises_only_bind.
    { destruct (_ && _); by intros w e w'. }
    intros case'. intros w e w' Hrun. left.
    revert Hrun. apply raises_only_wrapped. intros; by eexists.
  - intros case w Hnone.
    destruct (get_case_missing _ w Hnone) as (e & w' & Hrun & Hcases & Hup).
    unfold CaseRepository.update_case, try_except.
    erewrite bind_raise by exact Hrun. cbn.
    eexists _, _. split; [reflexivity|]. split; [exact Hcases|].
    intros Hout. by destruct (Hup Hout) as [-> _].
Qed.

Lemma repository_error_contract_witness :
  exists msg w',
    CaseRepository.update_case (sample_case OPEN [])
      (set_cases ∅ (sample_world (sample_case OPEN []) []))
    = (Raise (StorageError msg), w')
    /\ cases w' = ∅
    /\ msg = "Failed to update case: Case not found: case_1".
Proof.
  destruct (proj2 (proj2 (proj2 (proj2 (proj2 (proj2 (proj2 (proj2 (proj2 (proj2
              repository_error_contract)))))))))
              (sample_case OPEN [])
              (set_cases ∅ (sample_world (sample_case OPEN []) [])))
    as (msg & w' & Hrun & Hcases & Hmsg); [apply lookup_empty|].
  exists msg, w'. split_and!; [exact Hrun | exact Hcases | by apply Hmsg].
Defined.

(** X7.  While the database answers, [create_case] followed by
    [get_case] is a round trip: the case comes back as it was stored.  A
    case that arrives with an id is stored as it is, under that id; a case
    with an empty id gets the id "case_<time>".  Either way the stored id
    is not empty, no other document of the store changes, and a document
    already stored under the id is overwritten without notice. *)
Theorem create_then_get (case : Case.t) (w : World) :
  outages w = [] ->
  exists created w',
    CaseRepository.create_case case w = (Ok created, w')
    /\ Case.id created <> ""
    /\ (Case.id case <> "" -> created = case)
    /\ (Case.id case = "" ->
        created = Case.set_id ("case_" +:+ timestamp_str (clock w)) case)
    /\ cases w' = <[Case.id created := created]> (cases w)
    /\ CaseRepository.get_case (Case.id created) w' = (Ok created, w')
    /\ (forall other, other <> Case.id created -> cases w' !! other = cases w !! other)
    /\ tasks w' = tasks w
    /\ audit_logs w' = audit_logs w.
Proof.
  intros Hout.
  unfold CaseRepository.create_case, try_except, bind, utcnow, ret, modify.
  destruct (String.eqb (Case.id case) "") eqn:Hid.
  - apply String.eqb_eq in Hid. cbn. rewrite firestore_call_ok by done.
    eexists _, _. split; [reflexivity|]. cbn.
    split_and!; try reflexivity; try congruence.
    + discriminate.
    + apply get_case_found; [done|]. cbn. apply lookup_insert_eq.
    + intros other Hne. by rewrite lookup_insert_ne.
  - apply String.eqb_neq in Hid. rewrite firestore_call_ok by done.
    eexists _, _. split; [reflexivity|]. cbn.
    split_and!; try reflexivity; try congruence.
    + apply get_case_found; [done|]. cbn. apply lookup_insert_eq.
    + intros other Hne. by rewrite lookup_insert_ne.
Qed.

Lemma create_then_get_witness :
  exists created w',
    CaseRepository.create_case (Case.set_id "" (sample_case OPEN ["DOB"]))
      (sample_world completed_case []) = (Ok created, w')
    /\ Case.id created = "case_10"
    /\ CaseRepository.get_case "case_10" w' = (Ok created, w')
    /\ cases w' !! "case_1" = Some completed_case.
Proof.
  destruct (create_then_get (Case.set_id "" (sample_case OPEN ["DOB"]))
              (sample_world completed_case []) eq_refl)
    as (created & w' & Hrun & _ & _ & Hmint & _ & Hget & Hother & _).
  exists created, w'. rewrite (Hmint eq_refl) in *.
  split_and!; [exact Hrun | reflexivity | exact Hget |].
  rewrite Hother by discriminate. reflexivity.
Defined.

(** X8.  [delete_case] removes the document of the case and nothing else:
    the other cases stay, and so do the tasks of the deleted case.  After a
    deletion [get_case] raises the case-not-found error; deleting an id that
    is not stored succeeds and changes nothing; a deletion that the database
    refuses raises a storage error and leaves the store as it was. *)
Theorem delete_case_forgets (case_id : string) (w : World) :
  exists r w',
    CaseRepository.delete_case case_id w = (r, w')
    /\ tasks w' = tasks w
    /\ (forall other, other <> case_id -> cases w' !! other = cases w !! other)
    /\ (outages w = [] -> r = Ok tt)
    /\ (r = Ok tt ->
        cases w' = delete case_id (cases w)
        /\ (cases w !! case_id = None -> cases w' = cases w)
        /\ (outages w' = [] ->
            CaseRepository.get_case case_id w'
            = (Raise (CaseNotFoundError ("Case not found: " +:+ case_id)), w')))
    /\ (r <> Ok tt -> cases w' = cases w /\ exists msg, r = Raise (StorageError msg)).
Proof.
  assert (forall w0 : World,
            cases w0 !! case_id = None -> outages w0 = [] ->
            CaseRepository.get_case case_id w0
            = (Raise (CaseNotFoundError ("Case not found: " +:+ case_id)), w0)) as Hget.
  { intros w0 Hnone Hout.
    destruct (get_case_missing _ w0 Hnone) as (e & w1 & Hrun & _ & Hup).
    by destruct (Hup Hout) as [-> ->]. }
  unfold CaseRepository.delete_case, try_except, bind, modify, firestore_call, raise.
  destruct (outages w) as [|[] rest] eqn:Hout; cbn.
  - eexists _, _. split; [reflexivity|]. cbn.
    split_and!; try done.
    + intros other Hne. by rewrite lookup_delete_ne.
    + intros _. split_and!; [done | apply delete_id |].
      intros Hout'. apply Hget; [cbn; apply lookup_delete_eq | exact Hout'].
  - eexists _, _. split; [reflexivity|]. cbn.
    split_and!; try done. intros _. split; [done | by eexists].
  - eexists _, _. split; [reflexivity|]. cbn.
    split_and!; try done.
    + intros other Hne. by rewrite lookup_delete_ne.
    + intros _. split_and!; [done | apply delete_id |].
      intros Hout'. apply Hget; [cbn; apply lookup_delete_eq | exact Hout'].
Qed.

Lemma head_filter_Some {A} (f : A -> bool) (l : list A) (x : A) :
  head (List.filter f l) = Some x -> x ∈ l /\ f x = true.
Proof.
  intros Hhead.
  assert (In x (List.filter f l)) as Hin.
  { destruct (List.filter f l); [discriminate|]. injection Hhead as ->. by left. }
  apply filter_In in Hin as [Hin Hf]. split; [by apply list_elem_of_In | exact Hf].
Qed.

Lemma head_filter_None {A} (f : A -> bool) (l : list A) :
  head (List.filter f l) = None -> forall x, x ∈ l -> f x = false.
Proof.
  intros Hhead x Hin. apply not_true_is_false. intros Hf.
  assert (In x (List.filter f l)) as Hin'
    by (apply filter_In; split; [by apply list_elem_of_In | exact Hf]).
  destruct (List.filter f l); [done | discriminate].
Qed.

Lemma case_matches_iff (client_name : string) (case_title : option string)
    (case : Case.t) :
  String.eqb (Case.client_name case) client_name
  && (if truthy_str case_title
      then bool_decide (Some (Case.case_title case) = case_title)
      else true)
  && bool_decide (Case.status case ∈ CaseRepository.open_statuses) = true
  <-> case_matches client_name case_title case.
Proof.
  unfold case_matches, CaseRepository.open_statuses.
  rewrite !andb_true_iff, String.eqb_eq, bool_decide_eq_true.
  destruct (truthy_str case_title); [rewrite bool_decide_eq_true|];
    intuition (try discriminate; auto).
Qed.

(** X9.  [find_case_by_client_and_title] is sound and complete for its
    query.  A case it returns is a stored document of that client whose
    status is OPEN, IN_PROGRESS or AWAITING_INFO, and which carries the title
    when a title is given; it never returns a case that is COMPLETE or
    CANCELLED.  It returns nothing only when no stored case matches.  An
    empty title is no title.  The search changes nothing in the store. *)
Theorem find_case_sound_and_complete
    (client_name : string) (case_title : option string) (w : World) :
  (forall found w',
     CaseRepository.find_case_by_client_and_title client_name case_title w
     = (Ok (Some found), w') ->
     (exists k, cases w !! k = Some found)
     /\ case_matches client_name case_title found
     /\ Case.status found <> COMPLETE /\ Case.status found <> CANCELLED)
  /\ (forall w',
        CaseRepository.find_case_by_client_and_title client_name case_title w
        = (Ok None, w') ->
        forall k case, cases w !! k = Some case ->
                       ~ case_matches client_name case_title case)
  /\ (outages w = [] ->
      exists found,
        CaseRepository.find_case_by_client_and_title client_name case_title w
        = (Ok found, w))
  /\ CaseRepository.find_case_by_client_and_title client_name (Some "") w
     = CaseRepository.find_case_by_client_and_title client_name None w
  /\ cases (CaseRepository.find_case_by_client_and_title client_name case_title w).2
     = cases w.
Proof.
  unfold CaseRepository.find_case_by_client_and_title, try_except, bind, get_state,
    firestore_call, raise, ret.
  assert (forall cs : gmap string Case.t, forall found,
            head (List.filter
                    (fun case =>
                       String.eqb (Case.client_name case) client_name
                       && (if truthy_str case_title
                           then bool_decide (Some (Case.case_title case) = case_title)
                           else true)
                       && bool_decide (Case.status case ∈ CaseRepository.open_statuses))
                    (map_to_list cs).*2) = Some found ->
            (exists k, cs !! k = Some found)
            /\ case_matches client_name case_title found
            /\ Case.status found <> COMPLETE /\ Case.status found <> CANCELLED) as Hsound.
  { intros cs found [Hin Hm]%head_filter_Some.
    apply case_matches_iff in Hm.
    apply list_elem_of_fmap in Hin as ([k c] & -> & Hin).
    apply elem_of_map_to_list in Hin. split; [by exists k|]. split; [exact Hm|].
    destruct Hm as (_ & _ & Hst). cbn in *.
    revert Hst. rewrite !elem_of_cons, elem_of_nil.
    intuition congruence. }
  assert (forall cs : gmap string Case.t,
            head (List.filter
                    (fun case =>
                       String.eqb (Case.client_name case) client_name
                       && (if truthy_str case_title
                           then bool_decide (Some (Case.case_title case) = case_title)
                           else true)
                       && bool_decide (Case.status case ∈ CaseRepository.open_statuses))
                    (map_to_list cs).*2) = None ->
            forall k case, cs !! k = Some case ->
                           ~ case_matches client_name case_title case) as Hcomplete.
  { intros cs Hnone k case Hk Hm. apply case_matches_iff in Hm.
    rewrite (head_filter_None _ _ Hnone case) in Hm; [discriminate|].
    apply list_elem_of_fmap. exists (k, case). split; [reflexivity|].
    by apply elem_of_map_to_list. }
  split_and!.
  - intros found w'. destruct (outages w) as [|[] rest]; cbn; try discriminate;
      intros [= Hhead _]; by apply Hsound.
  - intros w'. destruct (outages w) as [|[] rest]; cbn; try discriminate;
      intros [= Hhead _]; by apply Hcomplete.
  - intros ->. cbn. eexists. by destruct w.
  - reflexivity.
  - by destruct (outages w) as [|[] rest].
Qed.

(** ** Invariants of the world *)

Section Maintains.
Context {S : Type} (I : S -> Prop).

Lemma maintains_ret {A} (a : A) : maintains I (ret a).
Proof. by intros s. Qed.

Lemma maintains_raise {A} (e : Exc) : maintains I (raise (A := A) e).
Proof. by intros s. Qed.

Lemma maintains_lift_res {A} (r : Res A) : maintains I (lift_res r).
Proof. by intros s. Qed.

Lemma maintains_get_state : maintains I get_state.
Proof. by intros s. Qed.

Lemma maintains_bind {A B} (m : M S A) (k : A -> M S B) :
  maintains I m -> (forall a, maintains I (k a)) -> maintains I (bind m k).
Proof.
  intros Hm Hk s Hs. unfold bind. specialize (Hm s Hs).
  destruct (m s) as [[a | e] s']; cbn in *; [|done]. by apply Hk.
Qed.

Lemma maintains_try_except {A} (m : M S A) (h : Exc -> M S A) :
  maintains I m -> (forall e, maintains I (h e)) -> maintains I (try_except m h).
Proof.
  intros Hm Hh s Hs. unfold try_except. specialize (Hm s Hs).
  destruct (m s) as [[a | e] s']; cbn in *; [done|]. by apply Hh.
Qed.
End Maintains.

Section Stable.
Variable I : World -> Prop.
Hypothesis HI : stable I.

Lemma maintains_in_world {O A} (m : M World A) :
  maintains I m -> maintains (on_world (O := O) I) (in_world m).
Proof.
  intros Hm [o w] Hw. unfold in_world, on_world in *. cbn in *.
  specialize (Hm w Hw). by destruct (m w).
Qed.

Lemma maintains_call_on {O A} (o : O) (m : M (O * World) A) :
  maintains (on_world I) m -> maintains I (call_on o m).
Proof.
  intros Hm w Hw. unfold call_on. specialize (Hm (o, w) Hw). unfold on_world in Hm.
  by destruct (m (o, w)) as [[a | e] [o' w']].
Qed.

Lemma maintains_self {O} : maintains (on_world (O := O) I) self.
Proof. by intros s. Qed.

Lemma maintains_update_self {O} (f : O -> O) : maintains (on_world I) (update_self f).
Proof. by intros s. Qed.

Lemma maintains_utcnow : maintains I utcnow.
Proof. intros w Hw. exact (stable_clock I HI w Hw). Qed.

Lemma maintains_utcnow_ {O} : maintains (on_world (O := O) I) utcnow_.
Proof. apply maintains_in_world, maintains_utcnow. Qed.

Lemma maintains_firestore_call : maintains I firestore_call.
Proof.
  intros w Hw. unfold firestore_call.
  destruct (outages w) as [|[] rest]; cbn; [done | |]; exact (stable_outages I HI _ w Hw).
Qed.

Lemma maintains_llm_call {A} (method : nat -> Res A) : maintains I (llm_call method).
Proof. intros w Hw. exact (stable_llm_calls I HI w Hw). Qed.

Lemma maintains_write_case (case : Case.t) :
  maintains I (modify (fun w => set_cases (<[Case.id case := case]> (cases w)) w)).
Proof. intros w Hw. exact (stable_case I HI case w Hw). Qed.

Lemma maintains_write_task (task : Task.t) :
  maintains I
    (modify (fun w => set_tasks (<[CaseRepository.task_key task := task]> (tasks w)) w)).
Proof. intros w Hw. exact (stable_task I HI task w Hw). Qed.

Lemma maintains_write_audit (entry : AuditLog.t) :
  maintains I (modify (fun w => set_audit_logs (audit_logs w ++ [entry]) w)).
Proof. intros w Hw. exact (stable_audit I HI entry w Hw). Qed.

Create HintDb inv.

#[local] Hint Resolve maintains_self maintains_update_self maintains_utcnow
  maintains_utcnow_ maintains_firestore_call maintains_llm_call
  maintains_write_case maintains_write_task maintains_write_audit : inv.

#[local] Hint Extern 1 (maintains _ (ret _)) => apply maintains_ret : inv.
#[local] Hint Extern 1 (maintains _ (raise _)) => apply maintains_raise : inv.
#[local] Hint Extern 1 (maintains _ (lift_res _)) => apply maintains_lift_res : inv.
#[local] Hint Extern 1 (maintains _ get_state) => apply maintains_get_state : inv.

(** Breaks a computation down to the changes it makes to the world. *)
Ltac maintains_step :=
  cbv zeta;
  lazymatch goal with
  | |- forall _, _ => intros
  | |- maintains _ (bind _ _) => apply maintains_bind
  | |- maintains _ (try_except _ _) => apply maintains_try_except
  | |- maintains _ (in_world _) => apply maintains_in_world
  | |- maintains _ (call_on _ _) => apply maintains_call_on
  | |- maintains _ (match ?x with _ => _ end) => destruct x
  | |- _ => solve [auto with inv]
  end.

Ltac maintains_steps := repeat maintains_step.

Lemma maintains_get_case (case_id : string) : maintains I (CaseRepository.get_case case_id).
Proof. unfold CaseRepository.get_case. maintains_steps. Qed.

#[local] Hint Resolve maintains_get_case : inv.

Lemma maintains_update_case (case : Case.t) : maintains I (CaseRepository.update_case case).
Proof. unfold CaseRepository.update_case. maintains_steps. Qed.

Lemma maintains_create_case (case : Case.t) : maintains I (CaseRepository.create_case case).
Proof. unfold CaseRepository.create_case. maintains_steps. Qed.

Lemma maintains_find_case (client_name : string) (case_title : option string) :
  maintains I (CaseRepository.find_case_by_client_and_title client_name case_title).
Proof. unfold CaseRepository.find_case_by_client_and_title. maintains_steps. Qed.

Lemma maintains_create_task (task : Task.t) : maintains I (CaseRepository.create_task task).
Proof. unfold CaseRepository.create_task. maintains_steps. Qed.

Lemma maintains_update_task (task : Task.t) : maintains I (CaseRepository.update_task task).
Proof. unfold CaseRepository.update_task. maintains_steps. Qed.

Lemma maintains_find_task (task_title : PyVal) (case_id : option string) :
  maintains I (CaseRepository.find_task_by_title task_title case_id).
Proof. unfold CaseRepository.find_task_by_title. maintains_steps. Qed.

#[local] Hint Resolve maintains_update_case maintains_create_case maintains_find_case
  maintains_create_task maintains_update_task maintains_find_task : inv.

Lemma maintains_add_field_to_case (case_id : string) (field_value : FieldValue.t) :
  maintains I (CaseRepository.add_field_to_case case_id field_value).
Proof. unfold CaseRepository.add_field_to_case. maintains_steps. Qed.

Lemma maintains_log_action (success : bool) (before_state after_state : StateDump)
    (error_message : option string) :
  maintains (on_world I)
    (ActionHandler.log_action success before_state after_state error_message).
Proof.
  unfold ActionHandler.log_action, AuditRepository.log_action. maintains_steps.
Qed.

Lemma maintains_transition (new_status : CaseStatus) (validate : bool) :
  maintains (on_world I) (CaseStateMachine.transition new_status validate).
Proof.
  unfold CaseStateMachine.transition, CaseStateMachine.validate_transition.
  maintains_steps.
Qed.

Lemma maintains_add_fields (field_updates : list (string * PyVal)) (source : string) :
  maintains (on_world I) (CaseActionHandler.add_fields field_updates source).
Proof.
  induction field_updates as [|[field_name value] rest IH]; cbn.
  - apply maintains_ret.
  - apply maintains_bind; [|intros _; exact IH].
    unfold FieldTracker.add_field_value. maintains_steps.
Qed.

#[local] Hint Resolve maintains_log_action maintains_transition maintains_add_fields : inv.

Lemma maintains_route_action (llm_service : option LLMService) :
  maintains (on_world I) (ActionRouter.route_action llm_service).
Proof.
  unfold ActionRouter.route_action, ActionRouter.handlers,
    CaseActionHandler.execute, TaskActionHandler.execute, FollowupActionHandler.execute,
    CaseActionHandler._create_case, CaseActionHandler._update_case,
    CaseActionHandler._complete_case, CaseActionHandler._cancel_case,
    CaseActionHandler.complete_via_in_progress,
    TaskActionHandler._create_task, TaskActionHandler._complete_task,
    FollowupActionHandler._draft_followup_email,
    FollowupActionHandler._initiate_loa_chase,
    ActionHandler.audited, ActionHandler.require_case_id, ActionHandler.mark_executed.
  maintains_steps.
Qed.

Lemma maintains_route_actions (llm_service : option LLMService)
    (actions : list Action.t) (results : gmap string bool) (w : World) :
  I w -> I (ActionRouter.route_actions llm_service actions results w).2.
Proof.
  revert results w. induction actions as [|action rest IH]; intros results w Hw; [done|].
  cbn [ActionRouter.route_actions].
  pose proof (maintains_route_action llm_service (action, w) Hw) as Hstep.
  destruct (ActionRouter.route_action llm_service (action, w)) as [r [action' w']].
  specialize (IH (<[Action.id action' := match r with Ok b => b | Raise _ => false end]>
                    results) w' Hstep).
  by destruct (ActionRouter.route_actions llm_service rest _ w') as [[results' rest'] w''].
Qed.

Lemma maintains_determine_action (message : Message.t) (classification : Classification.t)
    (entities : ExtractedEntities.t) (existing_case : option Case.t) :
  maintains I
    (DefaultLLMService.determine_action message classification entities existing_case).
Proof.
  unfold DefaultLLMService.determine_action, DefaultLLMService.new_action.
  maintains_steps.
Qed.

Lemma maintains_process_message (llm_service : LLMService) (pre_filter : PreFilter.t)
    (message : Message.t) :
  maintains I (PipelineOrchestrator.process_message llm_service pre_filter message).
Proof.
  unfold PipelineOrchestrator.process_message,
    PipelineOrchestrator.process_message_body,
    PipelineOrchestrator.process_message_failed.
  pose proof (maintains_route_action (Some llm_service)) as Hroute.
  maintains_steps.
Qed.

(** Once the classification has been asked for, what holds of the world
    holds at the end of the processing of the message. *)
Lemma holds_after_classification (llm_service : LLMService) (pre_filter : PreFilter.t)
    (message : Message.t) (w : World) :
  PreFilter.should_process pre_filter message = true ->
  I (set_llm_calls (S (llm_calls w)) (set_clock (S (clock w)) w)) ->
  I (PipelineOrchestrator.process_message llm_service pre_filter message w).2.
Proof.
  intros Hfilter Hcalled.
  assert (forall w0,
            I (set_llm_calls (S (llm_calls w0)) w0) ->
            on_world I
              (try_except
                 (PipelineOrchestrator.process_message_body llm_service pre_filter
                    (clock w))
                 (PipelineOrchestrator.process_message_failed (clock w))
                 (message, w0)).2) as Hbody.
  { intros w0 Hw0.
    unfold try_except.
    assert (on_world I
              (PipelineOrchestrator.process_message_body llm_service pre_filter
                 (clock w) (message, w0)).2) as Hend.
    { unfold PipelineOrchestrator.process_message_body.
      unfold bind at 1. unfold self at 1. cbn [fst snd].
      rewrite Hfilter. cbn [negb].
      unfold bind at 1. unfold in_world at 1. unfold llm_call at 1. cbn [fst snd].
      destruct (classify_message llm_service (llm_calls w0) message)
        as [classification | e]; [|exact Hw0].
      assert (on_world I (message, set_llm_calls (S (llm_calls w0)) w0)) as Hs
        by exact Hw0.
      revert Hs.
      generalize (message, set_llm_calls (S (llm_calls w0)) w0).
      match goal with
      | |- forall p, on_world I p -> on_world I (?m p).2 =>
          change (maintains (on_world I) m)
      end.
      pose proof (maintains_route_action (Some llm_service)) as Hroute.
      maintains_steps. }
    destruct (PipelineOrchestrator.process_message_body _ _ _ _) as [[result | e] s'];
      [exact Hend|].
    cbn [snd] in Hend. revert Hend. generalize s'.
    match goal with
    | |- forall p, on_world I p -> on_world I (?m p).2 =>
        change (maintains (on_world I) m)
    end.
    unfold PipelineOrchestrator.process_message_failed. maintains_steps. }
  unfold PipelineOrchestrator.process_message, bind, utcnow, call_on.
  specialize (Hbody (set_clock (S (clock w)) w) Hcalled).
  unfold on_world in Hbody.
  by destruct (try_except _ _ _) as [[result | e] [message' w']].
Qed.

Lemma maintains_process_batch (llm_service : LLMService) (pre_filter : PreFilter.t)
    (messages : list Message.t) :
  maintains I (PipelineOrchestrator.process_batch llm_service pre_filter messages).
Proof.
  unfold PipelineOrchestrator.process_batch.
  apply maintains_bind; [apply maintains_utcnow|]. intros start_time.
  apply maintains_bind.
  - generalize
      {| PipelineOrchestrator.results_so_far := [];
         PipelineOrchestrator.processed_count := 0;
         PipelineOrchestrator.failed_count := 0;
         PipelineOrchestrator.skipped_count := 0 |}.
    induction messages as [|message rest IH]; intros t; cbn.
    + apply maintains_ret.
    + apply maintains_bind; [apply maintains_process_message|]. intros [result message'].
      apply maintains_bind; [apply IH|]. intros [t' rest']. apply maintains_ret.
  - intros [t messages']. apply maintains_bind; [apply maintains_utcnow|].
    intros end_time. apply maintains_ret.
Qed.
End Stable.

Lemma keyed_by_id_stable : stable keyed_by_id.
Proof.
  split; try (intros; assumption).
  intros case w Hw k c. cbn. destruct (decide (k = Case.id case)) as [-> | Hne].
  - rewrite lookup_insert_eq. by intros [= <-].
  - rewrite lookup_insert_ne by done. apply Hw.
Qed.

Lemma tasks_keyed_stable : stable tasks_keyed.
Proof.
  split; try (intros; assumption).
  intros task w Hw k t. cbn.
  destruct (decide (k = CaseRepository.task_key task)) as [-> | Hne].
  - rewrite lookup_insert_eq. by intros [= <-].
  - rewrite lookup_insert_ne by done. apply Hw.
Qed.

(** X10.  Every write of the repository files a case under its own id and
    a task under its own key.  So a store where each document sits under
    its id stays so through [create_case], [update_case], [add_field_to_case]
    and [delete_case], through every routed action, and through the
    processing of a batch, whatever the database and the language model do;
    and in such a store [get_case] returns a case that carries the id it
    was asked for. *)
Theorem documents_stay_keyed (w : World) :
  keyed_by_id w -> tasks_keyed w ->
  (forall case, keyed_by_id (CaseRepository.create_case case w).2)
  /\ (forall case, keyed_by_id (CaseRepository.update_case case w).2)
  /\ (forall case_id field_value,
        keyed_by_id (CaseRepository.add_field_to_case case_id field_value w).2)
  /\ (forall case_id, keyed_by_id (CaseRepository.delete_case case_id w).2)
  /\ (forall llm_service action,
        keyed_by_id (ActionRouter.route_action llm_service (action, w)).2.2
        /\ tasks_keyed (ActionRouter.route_action llm_service (action, w)).2.2)
  /\ (forall llm_service pre_filter messages,
        keyed_by_id
          (PipelineOrchestrator.process_batch llm_service pre_filter messages w).2
        /\ tasks_keyed
             (PipelineOrchestrator.process_batch llm_service pre_filter messages w).2)
  /\ (forall case_id case w',
        CaseRepository.get_case case_id w = (Ok case, w') -> Case.id case = case_id).
Proof.
  intros Hcases Htasks. split_and!.
  - intros case. by apply (maintains_create_case _ keyed_by_id_stable).
  - intros case. by apply (maintains_update_case _ keyed_by_id_stable).
  - intros case_id field_value.
    by apply (maintains_add_field_to_case _ keyed_by_id_stable).
  - intros case_id.
    unfold CaseRepository.delete_case, try_except, bind, modify, firestore_call, raise.
    destruct (outages w) as [|[] rest]; cbn; try exact Hcases;
      intros k c Hk; cbn in Hk; apply lookup_delete_Some in Hk as [_ Hk];
      by apply Hcases.
  - intros llm_service action. split.
    + by apply (maintains_route_action _ keyed_by_id_stable llm_service (action, w)).
    + by apply (maintains_route_action _ tasks_keyed_stable llm_service (action, w)).
  - intros llm_service pre_filter messages. split.
    + by apply (maintains_process_batch _ keyed_by_id_stable).
    + by apply (maintains_process_batch _ tasks_keyed_stable).
  - intros case_id case w'.
    unfold CaseRepository.get_case, try_except, bind, get_state, firestore_call, raise, ret.
    destruct (outages w) as [|[] rest]; cbn; try discriminate;
      destruct (cases w !! case_id) as [c|] eqn:Hc; cbn; try discriminate;
      intros [= <- _]; by apply Hcases.
Qed.

Lemma documents_stay_keyed_witness :
  let w := sample_world (sample_case OPEN ["DOB"]) [] in
  keyed_by_id
    (PipelineOrchestrator.process_batch sample_service default_filter sample_batch w).2.
Proof.
  intros w.
  apply (documents_stay_keyed w).
  - intros k case Hk. cbn in Hk. apply lookup_singleton_Some in Hk as [<- <-].
    reflexivity.
  - intros k task Hk. cbn in Hk. by rewrite lookup_empty in Hk.
Defined.

Lemma grows_stable {T} (part : World -> T) (R : relation T) (x : T) :
  Transitive R ->
  (forall w, R (part w) (part (set_clock (S (clock w)) w))) ->
  (forall rest w, R (part w) (part (set_outages rest w))) ->
  (forall w, R (part w) (part (set_llm_calls (S (llm_calls w)) w))) ->
  (forall case w, R (part w) (part (set_cases (<[Case.id case := case]> (cases w)) w))) ->
  (forall task w,
     R (part w)
       (part (set_tasks (<[CaseRepository.task_key task := task]> (tasks w)) w))) ->
  (forall entry w, R (part w) (part (set_audit_logs (audit_logs w ++ [entry]) w))) ->
  stable (fun w => R x (part w)).
Proof. intros HR H1 H2 H3 H4 H5 H6. split; intros; etrans; eauto. Qed.

(** X11.  The pipeline only ever adds to the world.  Processing a batch,
    or routing an action, never deletes a case or a task, never removes or
    rewrites an audit entry (the trail before is a prefix of the trail
    after), and never turns back the clock or the count of calls to the
    language model, whatever the database and the language model do. *)
Theorem pipeline_only_adds (w : World) :
  let grown (w' : World) :=
    dom (cases w) ⊆ dom (cases w')
    /\ dom (tasks w) ⊆ dom (tasks w')
    /\ audit_logs w `prefix_of` audit_logs w'
    /\ clock w <= clock w'
    /\ llm_calls w <= llm_calls w' in
  (forall llm_service action,
     grown (ActionRouter.route_action llm_service (action, w)).2.2)
  /\ (forall llm_service actions results,
        grown (ActionRouter.route_actions llm_service actions results w).2)
  /\ (forall llm_service pre_filter messages,
        grown (PipelineOrchestrator.process_batch llm_service pre_filter messages w).2).
Proof.
  assert (stable (fun w' => dom (cases w) ⊆ dom (cases w'))) as Hcases.
  { apply (grows_stable (fun w => dom (cases w)) (⊆)); try done; [apply _|].
    intros case w0. cbn. rewrite dom_insert. apply union_subseteq_r. }
  assert (stable (fun w' => dom (tasks w) ⊆ dom (tasks w'))) as Htasks.
  { apply (grows_stable (fun w => dom (tasks w)) (⊆)); try done; [apply _|].
    intros task w0. cbn. rewrite dom_insert. apply union_subseteq_r. }
  assert (stable (fun w' => audit_logs w `prefix_of` audit_logs w')) as Haudit.
  { apply (grows_stable audit_logs prefix); try done; [apply _|].
    intros entry w0. cbn. by apply prefix_app_r. }
  assert (stable (fun w' => clock w <= clock w')) as Hclock.
  { apply (grows_stable clock le); try done; [apply _|]. intros w0. cbn. lia. }
  assert (stable (fun w' => llm_calls w <= llm_calls w')) as Hllm.
  { apply (grows_stable llm_calls le); try done; [apply _|]. intros w0. cbn. lia. }
  intros grown. split_and!.
  - intros llm_service action. unfold grown. split_and!.
    + apply (maintains_route_action _ Hcases llm_service (action, w)); unfold on_world; cbn; reflexivity.
    + apply (maintains_route_action _ Htasks llm_service (action, w)); unfold on_world; cbn; reflexivity.
    + apply (maintains_route_action _ Haudit llm_service (action, w)); unfold on_world; cbn; reflexivity.
    + apply (maintains_route_action _ Hclock llm_service (action, w)); unfold on_world; cbn; reflexivity.
    + apply (maintains_route_action _ Hllm llm_service (action, w)); unfold on_world; cbn; reflexivity.
  - intros llm_service actions results. unfold grown. split_and!.
    + apply (maintains_route_actions _ Hcases); reflexivity.
    + apply (maintains_route_actions _ Htasks); reflexivity.
    + apply (maintains_route_actions _ Haudit); reflexivity.
    + apply (maintains_route_actions _ Hclock); reflexivity.
    + apply (maintains_route_actions _ Hllm); reflexivity.
  - intros llm_service pre_filter messages. unfold grown. split_and!.
    + apply (maintains_process_batch _ Hcases); reflexivity.
    + apply (maintains_process_batch _ Htasks); reflexivity.
    + apply (maintains_process_batch _ Haudit); reflexivity.
    + apply (maintains_process_batch _ Hclock); reflexivity.
    + apply (maintains_process_batch _ Hllm); reflexivity.
Qed.

(** ** What an action leaves alone *)

Lemma frame_in_world {O A T} (part : World -> T) (m : M World A) :
  preserves part m -> preserves (on_world (O := O) part) (in_world m).
Proof.
  intros Hm [o w]. unfold in_world, on_world. cbn. specialize (Hm w).
  by destruct (m w).
Qed.

Lemma frame_in_world_self {O A T} (part : O -> T) (m : M World A) :
  preserves (on_self part) (in_world m).
Proof. intros [o w]. unfold in_world, on_self. cbn. by destruct (m w). Qed.

Lemma frame_call_on {O A T} (part : World -> T) (o : O) (m : M (O * World) A) :
  preserves (on_world part) m -> preserves part (call_on o m).
Proof.
  intros Hm w. unfold call_on. specialize (Hm (o, w)). unfold on_world in Hm.
  by destruct (m (o, w)) as [[a | e] [o' w']].
Qed.

Lemma frame_firestore_call {T} (part : World -> T) :
  (forall rest w, part (set_outages rest w) = part w) -> preserves part firestore_call.
Proof.
  intros Hpart w. unfold firestore_call. by destruct (outages w) as [|[] rest]; cbn.
Qed.

(** Breaks a computation down to steps that leave the part alone: steps
    on the other parts of the state. *)
Ltac frame_step :=
  cbv zeta;
  lazymatch goal with
  | |- forall _, _ => intros
  | |- preserves _ (bind _ _) => apply preserves_bind
  | |- preserves _ (try_except _ _) => apply preserves_try_except
  | |- preserves (on_self _) (in_world _) => apply frame_in_world_self
  | |- preserves (on_self _) utcnow_ => apply frame_in_world_self
  | |- preserves _ utcnow_ => unfold utcnow_
  | |- preserves _ (in_world _) => apply frame_in_world
  | |- preserves _ (call_on _ _) => apply frame_call_on
  | |- preserves _ firestore_call => apply frame_firestore_call; reflexivity
  | |- preserves _ (match ?x with _ => _ end) => destruct x
  | |- preserves _ _ => solve [intros ?; reflexivity]
  end.

Ltac frame_steps := repeat frame_step.

Ltac unfold_repository :=
  unfold CaseRepository.update_case, CaseRepository.get_case,
    CaseRepository.create_case, CaseRepository.create_task,
    CaseRepository.update_task, CaseRepository.find_task_by_title,
    CaseRepository.find_case_by_client_and_title, AuditRepository.log_action.

Ltac unfold_handlers :=
  unfold ActionRouter.route_action, ActionRouter.handlers,
    CaseActionHandler.execute, TaskActionHandler.execute, FollowupActionHandler.execute,
    CaseActionHandler._create_case, CaseActionHandler._update_case,
    CaseActionHandler._complete_case, CaseActionHandler._cancel_case,
    CaseActionHandler.complete_via_in_progress,
    TaskActionHandler._create_task, TaskActionHandler._complete_task,
    FollowupActionHandler._draft_followup_email,
    FollowupActionHandler._initiate_loa_chase,
    ActionHandler.audited, ActionHandler.require_case_id, ActionHandler.mark_executed,
    ActionHandler.log_action, CaseStateMachine.transition,
    CaseStateMachine.validate_transition;
  unfold_repository.

Lemma add_fields_keeps_world {T} (part : World -> T)
    (field_updates : list (string * PyVal)) (source : string) :
  (forall v w, part (set_clock v w) = part w) ->
  preserves (on_world part) (CaseActionHandler.add_fields field_updates source).
Proof.
  intros Hclock. induction field_updates as [|[field_name value] rest IH]; cbn.
  - apply preserves_ret.
  - apply preserves_bind; [|intros _; exact IH].
    unfold FieldTracker.add_field_value. frame_steps.
    all: intros w; apply Hclock.
Qed.

(** The action object: who it is. *)
Lemma route_action_keeps_identity {T} (part : Action.t -> T)
    (llm_service : option LLMService) :
  (forall v a, part (Action.set_case_id v a) = part a) ->
  (forall v a, part (Action.set_success v a) = part a) ->
  (forall v a, part (Action.set_executed_at v a) = part a) ->
  (forall v a, part (Action.set_parameters v a) = part a) ->
  preserves (on_self part) (ActionRouter.route_action llm_service).
Proof.
  intros Hcase Hsuccess Hexecuted Hparameters.
  assert (forall f : Action.t -> Action.t,
            (forall a, part (f a) = part a) ->
            preserves (S := Action.t * World) (on_self part) (update_self f)) as Hupd.
  { intros f Hf [a w]. apply Hf. }
  unfold_handlers.
  repeat
    (cbv zeta;
     lazymatch goal with
     | |- preserves _ (update_self (Action.set_parameter _ _)) =>
         apply Hupd; intros; apply Hparameters
     | |- preserves _ (update_self _) => apply Hupd; auto
     | |- _ => frame_step
     end).
Qed.

(** The collections of the store, by kind of action. *)
Lemma case_actions_keep_tasks (s : Action.t * World) :
  tasks (CaseActionHandler.execute s).2.2 = tasks s.2.
Proof.
  change (on_world tasks (CaseActionHandler.execute s).2 = on_world tasks s).
  revert s. change (preserves (on_world tasks) CaseActionHandler.execute).
  unfold_handlers. frame_steps.
  all: apply add_fields_keeps_world; reflexivity.
Qed.

Lemma task_actions_keep_cases (s : Action.t * World) :
  cases (TaskActionHandler.execute s).2.2 = cases s.2.
Proof.
  change (on_world cases (TaskActionHandler.execute s).2 = on_world cases s).
  revert s. change (preserves (on_world cases) TaskActionHandler.execute).
  unfold_handlers. frame_steps.
Qed.

Lemma followup_actions_keep_store (llm_service : option LLMService)
    (s : Action.t * World) :
  cases (FollowupActionHandler.execute llm_service s).2.2 = cases s.2
  /\ tasks (FollowupActionHandler.execute llm_service s).2.2 = tasks s.2.
Proof.
  split.
  - change (on_world cases (FollowupActionHandler.execute llm_service s).2
            = on_world cases s).
    revert s. change (preserves (on_world cases) (FollowupActionHandler.execute llm_service)).
    unfold_handlers. unfold llm_call. frame_steps.
  - change (on_world tasks (FollowupActionHandler.execute llm_service s).2
            = on_world tasks s).
    revert s. change (preserves (on_world tasks) (FollowupActionHandler.execute llm_service)).
    unfold_handlers. unfold llm_call. frame_steps.
Qed.

Lemma case_and_task_actions_keep_llm_calls :
  preserves (on_world llm_calls) CaseActionHandler.execute
  /\ preserves (on_world llm_calls) TaskActionHandler.execute
  /\ preserves (on_world llm_calls) FollowupActionHandler._initiate_loa_chase.
Proof.
  split_and!; unfold_handlers; frame_steps.
  all: apply add_fields_keeps_world; reflexivity.
Qed.

Lemma only_create_case_sets_case_id :
  preserves (on_self Action.case_id) CaseActionHandler._update_case
  /\ preserves (on_self Action.case_id) CaseActionHandler._complete_case
  /\ preserves (on_self Action.case_id) CaseActionHandler._cancel_case
  /\ preserves (on_self Action.case_id) TaskActionHandler.execute
  /\ forall llm_service,
       preserves (on_self Action.case_id) (FollowupActionHandler.execute llm_service).
Proof. split_and!; intros; unfold_handlers; frame_steps. Qed.

(** X12.  What a routed action leaves alone, whatever its outcome.  The
    action keeps its id, its type, its trigger and its creation time, and
    only CREATE_CASE changes its case id.  Task and follow-up actions never
    write a case; case and follow-up actions never write a task; only
    DRAFT_FOLLOWUP_EMAIL calls the language model; and IGNORE changes
    nothing at all: it is not audited either. *)
Theorem actions_keep_to_their_own
    (llm_service : option LLMService) (action : Action.t) (w : World) :
  let '(r, (action', w')) := ActionRouter.route_action llm_service (action, w) in
  Action.id action' = Action.id action
  /\ Action.type action' = Action.type action
  /\ Action.triggered_by action' = Action.triggered_by action
  /\ Action.created_at action' = Action.created_at action
  /\ (Action.type action <> CREATE_CASE ->
      Action.case_id action' = Action.case_id action)
  /\ (Action.type action ∈ [CREATE_TASK; COMPLETE_TASK; DRAFT_FOLLOWUP_EMAIL;
                            INITIATE_LOA_CHASE; IGNORE] ->
      cases w' = cases w)
  /\ (Action.type action ∉ [CREATE_TASK; COMPLETE_TASK] -> tasks w' = tasks w)
  /\ (Action.type action <> DRAFT_FOLLOWUP_EMAIL -> llm_calls w' = llm_calls w)
  /\ (Action.type action = IGNORE -> r = Ok true /\ action' = action /\ w' = w).
Proof.
  set (run := ActionRouter.route_action llm_service (action, w)).
  pose proof (route_action_keeps_identity Action.id llm_service
                ltac:(done) ltac:(done) ltac:(done) ltac:(done) (action, w)) as Hid.
  pose proof (route_action_keeps_identity Action.type llm_service
                ltac:(done) ltac:(done) ltac:(done) ltac:(done) (action, w)) as Htype.
  pose proof (route_action_keeps_identity Action.triggered_by llm_service
                ltac:(done) ltac:(done) ltac:(done) ltac:(done) (action, w)) as Htrig.
  pose proof (route_action_keeps_identity Action.created_at llm_service
                ltac:(done) ltac:(done) ltac:(done) ltac:(done) (action, w)) as Hcreated.
  destruct case_and_task_actions_keep_llm_calls as (Hllm1 & Hllm2 & Hllm3).
  destruct only_create_case_sets_case_id as (Hc1 & Hc2 & Hc3 & Hc4 & Hc5).
  assert (Action.type action <> CREATE_CASE ->
          Action.case_id run.2.1 = Action.case_id action) as Hcase_id.
  { subst run. destruct action as [id [] case_id parameters triggered_by created_at
                                     executed_at success error_message];
      intros Hne; try done.
    - exact (Hc1 (_, w)).
    - exact (Hc2 (_, w)).
    - exact (Hc3 (_, w)).
    - exact (Hc4 (_, w)).
    - exact (Hc4 (_, w)).
    - exact (Hc5 llm_service (_, w)).
    - exact (Hc5 llm_service (_, w)). }
  assert (Action.type action ∈ [CREATE_TASK; COMPLETE_TASK; DRAFT_FOLLOWUP_EMAIL;
                                INITIATE_LOA_CHASE; IGNORE] ->
          cases run.2.2 = cases w) as Hcases.
  { subst run. rewrite !elem_of_cons, elem_of_nil.
    destruct action as [id [] case_id parameters triggered_by created_at
                          executed_at success error_message];
      cbn [Action.type]; intros Hin; try (exfalso; intuition discriminate).
    - exact (task_actions_keep_cases (_, w)).
    - exact (task_actions_keep_cases (_, w)).
    - exact (proj1 (followup_actions_keep_store llm_service (_, w))).
    - exact (proj1 (followup_actions_keep_store llm_service (_, w))).
    - reflexivity. }
  assert (Action.type action ∉ [CREATE_TASK; COMPLETE_TASK] ->
          tasks run.2.2 = tasks w) as Htasks.
  { subst run. rewrite !elem_of_cons, elem_of_nil.
    destruct action as [id [] case_id parameters triggered_by created_at
                          executed_at success error_message];
      cbn [Action.type]; intros Hin; try (exfalso; apply Hin; auto; fail).
    - exact (case_actions_keep_tasks (_, w)).
    - exact (case_actions_keep_tasks (_, w)).
    - exact (case_actions_keep_tasks (_, w)).
    - exact (case_actions_keep_tasks (_, w)).
    - exact (proj2 (followup_actions_keep_store llm_service (_, w))).
    - exact (proj2 (followup_actions_keep_store llm_service (_, w))).
    - reflexivity. }
  assert (Action.type action <> DRAFT_FOLLOWUP_EMAIL ->
          llm_calls run.2.2 = llm_calls w) as Hllm.
  { subst run.
    destruct action as [id [] case_id parameters triggered_by created_at
                          executed_at success error_message];
      intros Hne; try done.
    - exact (Hllm1 (_, w)).
    - exact (Hllm1 (_, w)).
    - exact (Hllm1 (_, w)).
    - exact (Hllm1 (_, w)).
    - exact (Hllm2 (_, w)).
    - exact (Hllm2 (_, w)).
    - exact (Hllm3 (_, w)). }
  assert (Action.type action = IGNORE -> run = (Ok true, (action, w))) as Hignore.
  { subst run.
    destruct action as [id [] case_id parameters triggered_by created_at
                          executed_at success error_message];
      intros Hig; try discriminate. reflexivity. }
  unfold on_self in Hid, Htype, Htrig, Hcreated. fold run in Hid, Htype, Htrig, Hcreated.
  destruct run as [r [action' w']]. cbn in *.
  split_and!; try assumption.
  intros Hig. specialize (Hignore Hig). by injection Hignore as -> -> ->.
Qed.

(** ** Budgets: audit entries and calls to the language model *)

Section Budget.
Context {S : Type} (size : S -> nat).

Lemma adds_keep {A} (n : nat) (m : M S A) : preserves size m -> adds_at_most size n m.
Proof. intros Hm s. rewrite Hm. lia. Qed.

Lemma adds_bind_keep {A B} (n : nat) (m : M S A) (k : A -> M S B) :
  preserves size m -> (forall a, adds_at_most size n (k a)) ->
  adds_at_most size n (bind m k).
Proof.
  intros Hm Hk s. unfold bind. specialize (Hm s).
  destruct (m s) as [[a | e] s']; cbn in *; [|lia].
  specialize (Hk a s'). lia.
Qed.

Lemma adds_bind_split {A B} (spent n : nat) (m : M S A) (k : A -> M S B) :
  adds_at_most size spent m -> (forall a, adds_at_most size (n - spent) (k a)) ->
  spent <= n ->
  adds_at_most size n (bind m k).
Proof.
  intros Hm Hk Hle s. unfold bind. specialize (Hm s).
  destruct (m s) as [[a | e] s']; cbn in *; [|lia].
  specialize (Hk a s'). lia.
Qed.

Lemma adds_try_except {A} (n : nat) (m : M S A) (h : Exc -> M S A) :
  adds_at_most size n m -> (forall e, preserves size (h e)) ->
  adds_at_most size n (try_except m h).
Proof.
  intros Hm Hh s. unfold try_except. specialize (Hm s).
  destruct (m s) as [[a | e] s']; cbn in *; [lia|].
  rewrite Hh. lia.
Qed.
End Budget.

Lemma adds_in_world {O A} (size : World -> nat) (n : nat) (m : M World A) :
  adds_at_most size n m -> adds_at_most (on_world (O := O) size) n (in_world m).
Proof.
  intros Hm [o w]. unfold in_world, on_world. cbn. specialize (Hm w).
  by destruct (m w).
Qed.

Lemma adds_call_on {O A} (size : World -> nat) (n : nat) (o : O) (m : M (O * World) A) :
  adds_at_most (on_world size) n m -> adds_at_most size n (call_on o m).
Proof.
  intros Hm w. unfold call_on. specialize (Hm (o, w)). unfold on_world in Hm.
  by destruct (m (o, w)) as [[a | e] [o' w']].
Qed.

(** Spends the budget step by step: a step that leaves the measure alone
    is passed over, any other step is given one unit. *)
Ltac budget_step :=
  cbv zeta;
  lazymatch goal with
  | |- forall _, _ => intros
  | |- adds_at_most _ _ (bind _ _) =>
      first [ apply adds_bind_keep; [solve [frame_steps] |]
            | apply (adds_bind_split _ 1); [ | | cbn; lia ] ]
  | |- adds_at_most _ _ (match ?x with _ => _ end) => destruct x
  | |- adds_at_most _ _ (in_world _) => first [ apply adds_keep; solve [frame_steps]
                                              | apply adds_in_world ]
  | |- adds_at_most _ _ (call_on _ _) => apply adds_call_on
  | |- adds_at_most _ _ _ => first [ apply adds_keep; solve [frame_steps] | assumption ]
  end.

Ltac budget_steps := repeat budget_step.

(** What a routed action appends to the audit trail: one entry at most,
    and none for IGNORE. *)
Lemma route_action_trail (llm_service : option LLMService) (action : Action.t) (w : World) :
  exists entries,
    audit_logs (ActionRouter.route_action llm_service (action, w)).2.2
    = (audit_logs w ++ entries)%list
    /\ List.length entries <= (if bool_decide (Action.type action = IGNORE) then 0 else 1).
Proof.
  assert (forall r before after,
            audited_outcome r before after ->
            exists entries, after = (before ++ entries)%list /\ List.length entries <= 1)
    as Hout.
  { intros [b | []] before after; cbn; try done.
    - intros (_ & entry & -> & _). by exists [entry].
    - intros (entry & _ & _ & -> & _). by exists [entry].
    - intros ->. exists []. rewrite app_nil_r. split; [done | cbn; lia]. }
  destruct action as [id [] case_id parameters triggered_by created_at
                        executed_at success error_message];
    cbn [Action.type]; rewrite ?bool_decide_eq_false_2 by discriminate;
    rewrite ?bool_decide_eq_true_2 by reflexivity.
  - exact (Hout _ _ _ (create_case_logs_once (_, w))).
  - exact (Hout _ _ _ (update_case_logs_once (_, w))).
  - exact (Hout _ _ _ (complete_case_logs_once (_, w))).
  - exact (Hout _ _ _ (cancel_case_logs_once (_, w))).
  - exact (Hout _ _ _ (create_task_logs_once (_, w))).
  - exact (Hout _ _ _ (complete_task_logs_once (_, w))).
  - exact (Hout _ _ _ (draft_followup_email_logs_once llm_service (_, w))).
  - exact (Hout _ _ _ (initiate_loa_chase_logs_once (_, w))).
  - exists []. by rewrite app_nil_r.
Qed.

Lemma route_action_adds_one_entry (llm_service : option LLMService) :
  adds_at_most (on_world trail_length) 1 (ActionRouter.route_action llm_service).
Proof.
  intros [action w]. unfold on_world, trail_length. cbn [snd].
  destruct (route_action_trail llm_service action w) as (entries & -> & Hlen).
  rewrite length_app. destruct (bool_decide _); lia.
Qed.

Lemma route_action_adds_one_call (llm_service : option LLMService) :
  adds_at_most (on_world llm_calls) 1 (ActionRouter.route_action llm_service).
Proof.
  destruct case_and_task_actions_keep_llm_calls as (Hllm1 & Hllm2 & Hllm3).
  assert (adds_at_most (on_world llm_calls) 1
            (FollowupActionHandler._draft_followup_email llm_service)) as Hdraft.
  { unfold FollowupActionHandler._draft_followup_email, ActionHandler.audited.
    apply adds_try_except; [|intros; unfold_handlers; frame_steps].
    assert (forall A (method : nat -> Res A),
              adds_at_most llm_calls 1 (llm_call method)) as Hcall.
    { intros A method w. cbn. lia. }
    unfold ActionHandler.require_case_id, ActionHandler.mark_executed,
      ActionHandler.log_action.
    unfold_repository.
    budget_steps; try apply Hcall.
    all: apply adds_keep; unfold_handlers; frame_steps. }
  intros [action w].
  destruct action as [id [] case_id parameters triggered_by created_at
                        executed_at success error_message].
  1-4: exact (adds_keep _ 1 _ Hllm1 (_, w)).
  1-2: exact (adds_keep _ 1 _ Hllm2 (_, w)).
  - exact (Hdraft (_, w)).
  - exact (adds_keep _ 1 _ Hllm3 (_, w)).
  - exact (Nat.le_add_r (llm_calls w) 1).
Qed.

Lemma llm_call_adds_one {A} (method : nat -> Res A) :
  adds_at_most llm_calls 1 (llm_call method).
Proof. intros w. cbn. lia. Qed.

(** The same, for the pipeline: the calls of the model and the routed
    action are the steps that cost one unit. *)
Ltac pipeline_budget_step :=
  cbv zeta;
  lazymatch goal with
  | |- forall _, _ => intros
  | |- adds_at_most _ _ (bind _ _) =>
      first [ apply adds_bind_keep; [solve [frame_steps] |]
            | apply (adds_bind_split _ 1); [ | | cbn; lia ] ]
  | |- adds_at_most _ _ (try_except _ _) =>
      apply adds_try_except; [ | intros; solve [frame_steps] ]
  | |- adds_at_most _ _ (match ?x with _ => _ end) => destruct x
  | |- adds_at_most _ _ (in_world _) => first [ apply adds_keep; solve [frame_steps]
                                              | apply adds_in_world ]
  | |- adds_at_most _ _ (call_on _ _) => apply adds_call_on
  | |- adds_at_most _ _ _ =>
      first [ apply adds_keep; solve [frame_steps]
            | apply llm_call_adds_one
            | apply route_action_adds_one_call
            | apply route_action_adds_one_entry ]
  end.

Ltac pipeline_budget_steps := repeat pipeline_budget_step.

Section PipelineBudget.
Variable llm_service : LLMService.
Variable pre_filter : PreFilter.t.

Lemma process_message_entries (message : Message.t) :
  adds_at_most trail_length 1
    (PipelineOrchestrator.process_message llm_service pre_filter message).
Proof.
  unfold PipelineOrchestrator.process_message,
    PipelineOrchestrator.process_message_body,
    PipelineOrchestrator.process_message_failed.
  unfold_repository. unfold llm_call.
  pipeline_budget_steps.
Qed.

Lemma process_message_calls (message : Message.t) :
  adds_at_most llm_calls 4
    (PipelineOrchestrator.process_message llm_service pre_filter message).
Proof.
  unfold PipelineOrchestrator.process_message,
    PipelineOrchestrator.process_message_body,
    PipelineOrchestrator.process_message_failed.
  unfold_repository.
  pipeline_budget_steps.
Qed.

Lemma process_each_budget (size : World -> nat) (n : nat) :
  (forall message,
     adds_at_most size n
       (PipelineOrchestrator.process_message llm_service pre_filter message)) ->
  forall messages t,
    adds_at_most size (n * List.length messages)
      (PipelineOrchestrator.process_each llm_service pre_filter messages t).
Proof.
  intros Hone messages. induction messages as [|message rest IH]; intros t w.
  - cbn. lia.
  - cbn [PipelineOrchestrator.process_each List.length]. rewrite Nat.mul_succ_r.
    unfold bind at 1.
    specialize (Hone message w).
    destruct (PipelineOrchestrator.process_message _ _ message w)
      as [[[result message'] | e] w1]; cbn [snd] in *; [|lia].
    unfold bind. specialize (IH (PipelineOrchestrator.tally result t) w1).
    destruct (PipelineOrchestrator.process_each _ _ rest _ w1)
      as [[[t' rest'] | e] w2]; cbn in *; lia.
Qed.

Lemma process_batch_budget (size : World -> nat) (n : nat) (messages : list Message.t) :
  (forall v w, size (set_clock v w) = size w) ->
  (forall message,
     adds_at_most size n
       (PipelineOrchestrator.process_message llm_service pre_filter message)) ->
  adds_at_most size (n * List.length messages)
    (PipelineOrchestrator.process_batch llm_service pre_filter messages).
Proof.
  intros Hclock Hone. unfold PipelineOrchestrator.process_batch.
  apply adds_bind_keep; [intros w; apply Hclock|]. intros start_time.
  apply (adds_bind_split _ (n * List.length messages));
    [by apply process_each_budget | | lia].
  intros [t messages']. apply adds_keep.
  apply preserves_bind; [intros w; apply Hclock|]. intros end_time.
  apply preserves_ret.
Qed.
End PipelineBudget.

Lemma route_action_calls (llm_service : option LLMService) (action : Action.t) (w : World) :
  llm_calls (ActionRouter.route_action llm_service (action, w)).2.2
  <= llm_calls w
     + (if bool_decide (Action.type action = DRAFT_FOLLOWUP_EMAIL) then 1 else 0).
Proof.
  destruct case_and_task_actions_keep_llm_calls as (Hllm1 & Hllm2 & Hllm3).
  pose proof (route_action_adds_one_call llm_service (action, w)) as Hone.
  destruct action as [id [] case_id parameters triggered_by created_at
                        executed_at success error_message];
    cbn [Action.type]; rewrite ?bool_decide_eq_false_2 by discriminate;
    rewrite ?bool_decide_eq_true_2 by reflexivity; rewrite ?Nat.add_0_r.
  1-4: apply Nat.eq_le_incl; exact (Hllm1 (_, w)).
  1-2: apply Nat.eq_le_incl; exact (Hllm2 (_, w)).
  - exact Hone.
  - apply Nat.eq_le_incl; exact (Hllm3 (_, w)).
  - reflexivity.
Qed.


Section PipelineCost.
Variable llm_service : LLMService.
Variable pre_filter : PreFilter.t.

Lemma process_message_cost (message : Message.t) (w : World) :
  let w' := (PipelineOrchestrator.process_message llm_service pre_filter message w).2 in
  trail_length w' <= trail_length w + 1
  /\ llm_calls w' <= llm_calls w + 4
  /\ (PreFilter.should_process pre_filter message = false ->
      llm_calls w' = llm_calls w /\ outages w' = outages w
      /\ cases w' = cases w /\ tasks w' = tasks w /\ audit_logs w' = audit_logs w)
  /\ (PreFilter.should_process pre_filter message = true -> llm_calls w < llm_calls w').
Proof.
  intros w'. subst w'. split_and!.
  - apply process_message_entries.
  - apply process_message_calls.
  - intros Hfilter. by rewrite (process_message_filtered _ _ _ _ Hfilter).
  - intros Hfilter.
    apply (holds_after_classification (fun w' => S (llm_calls w) <= llm_calls w'));
      [|exact Hfilter | cbn; lia].
    apply (grows_stable llm_calls le); try done; try apply _; intros; cbn; lia.
Qed.

Lemma process_each_calls (messages : list Message.t) (t : PipelineOrchestrator.Tally)
    (w : World) :
  llm_calls (PipelineOrchestrator.process_each llm_service pre_filter messages t w).2
  <= llm_calls w
     + 4 * List.length (List.filter (PreFilter.should_process pre_filter) messages).
Proof.
  revert t w. induction messages as [|message rest IH]; intros t w.
  - cbn. lia.
  - cbn [PipelineOrchestrator.process_each List.filter]. unfold bind at 1.
    destruct (process_message_cost message w) as (_ & Hfour & Hnone & _).
    destruct (PipelineOrchestrator.process_message _ _ message w)
      as [[[result message'] | e] w1]; cbn [snd] in *.
    + unfold bind. specialize (IH (PipelineOrchestrator.tally result t) w1).
      destruct (PipelineOrchestrator.process_each _ _ rest _ w1)
        as [[[t' rest'] | e] w2]; cbn in IH |- *;
        destruct (PreFilter.should_process pre_filter message);
        cbn [List.length]; try (destruct (Hnone eq_refl) as (Hsame & _)); lia.
    + destruct (PreFilter.should_process pre_filter message);
        cbn [List.length]; try (destruct (Hnone eq_refl) as (Hsame & _)); lia.
Qed.

End PipelineCost.


(** ** The statistics of the pre-filter *)

Lemma rate_spec (a n : Z) :
  (0 < n)%Z -> (0 <= a <= n)%Z ->
  let rate := (inject_Z a / inject_Z n * 100)%Q in
  (0 <= rate)%Q /\ (rate <= 100)%Q /\ ((rate == 0)%Q <-> a = 0%Z)
  /\ ((rate == 100)%Q <-> a = n).
Proof.
  intros Hn Ha. destruct n as [|p|p]; try lia.
  unfold Qle, Qeq, Qdiv, Qmult, Qinv, inject_Z. cbn.
  rewrite ?Pos.mul_1_r, ?Z.mul_1_r, ?Pos.mul_1_l.
  split_and!; lia.
Qed.

Section FilterStats.
Variable llm_service : LLMService.
Variable pre_filter : PreFilter.t.

Lemma process_each_skips_filtered (messages : list Message.t)
    (t : PipelineOrchestrator.Tally) (w : World) :
  exists t' messages' w',
    PipelineOrchestrator.process_each llm_service pre_filter messages t w
    = (Ok (t', messages'), w')
    /\ PipelineOrchestrator.skipped_count t + List.length messages
       <= PipelineOrchestrator.skipped_count t'
          + List.length (List.filter (PreFilter.should_process pre_filter) messages)
    /\ PipelineOrchestrator.processed_count t' + PipelineOrchestrator.failed_count t'
       <= PipelineOrchestrator.processed_count t + PipelineOrchestrator.failed_count t
          + List.length (List.filter (PreFilter.should_process pre_filter) messages).
Proof.
  revert t w. induction messages as [|message rest IH]; intros t w.
  - exists t, [], w. cbn. split_and!; [reflexivity | lia | lia].
  - destruct (process_message_outcome llm_service pre_filter message w)
      as (result & message' & w1 & Hrun & _ & _).
    destruct (IH (PipelineOrchestrator.tally result t) w1)
      as (t' & rest' & w' & Hrest & Hskipped & Hothers).
    exists t', (message' :: rest'), w'. split.
    { cbn [PipelineOrchestrator.process_each].
      erewrite bind_ok by exact Hrun. cbv beta iota.
      erewrite bind_ok by exact Hrest. reflexivity. }
    destruct (tally_counts result t) as (_ & Hp & Hs & Hf).
    rewrite Hs in Hskipped. rewrite Hp, Hf in Hothers. clear Hp Hs Hf.
    cbn [List.filter List.length].
    destruct (PreFilter.should_process pre_filter message) eqn:Hfilter.
    + cbn [List.length]. unfold count in *.
      assert (List.length (List.filter is_processed [result])
              + List.length (List.filter is_skipped [result])
              + List.length (List.filter is_failed [result]) = 1) as Hone
        by apply (count_partition [result]).
      lia.
    + rewrite (process_message_filtered _ _ _ _ Hfilter) in Hrun.
      injection Hrun as <- _ _.
      unfold count, is_processed, is_skipped, is_failed,
        PipelineOrchestrator.counts_as_processed in Hskipped, Hothers.
      cbn in Hskipped, Hothers. lia.
Qed.

Lemma process_batch_skips_filtered (messages : list Message.t) (w : World) :
  exists batch messages' w',
    PipelineOrchestrator.process_batch llm_service pre_filter messages w
    = (Ok (batch, messages'), w')
    /\ List.length messages
       <= BatchProcessingResult.skipped batch
          + List.length (List.filter (PreFilter.should_process pre_filter) messages)
    /\ BatchProcessingResult.processed batch + BatchProcessingResult.failed batch
       <= List.length (List.filter (PreFilter.should_process pre_filter) messages).
Proof.
  unfold PipelineOrchestrator.process_batch.
  erewrite bind_ok by reflexivity.
  destruct (process_each_skips_filtered messages
              {| PipelineOrchestrator.results_so_far := [];
                 PipelineOrchestrator.processed_count := 0;
                 PipelineOrchestrator.failed_count := 0;
                 PipelineOrchestrator.skipped_count := 0 |}
              (set_clock (S (clock w)) w))
    as (t' & messages' & w' & Hrun & Hskipped & Hothers).
  erewrite bind_ok by exact Hrun. cbv beta iota.
  erewrite bind_ok by reflexivity.
  eexists _, _, _. split; [reflexivity|]. cbn in Hskipped, Hothers |- *. lia.
Qed.

End FilterStats.

(** ** The default decision and its execution *)

Lemma determine_action_runs (message : Message.t) (classification : Classification.t)
    (entities : ExtractedEntities.t) (existing_case : option Case.t) (w : World) :
  exists action,
    DefaultLLMService.determine_action message classification entities existing_case w
    = (Ok action, set_clock (S (S (clock w))) w)
    /\ Action.id action = "action_" +:+ timestamp_str (clock w)
    /\ Action.case_id action = Case.id <$> existing_case
    /\ Action.triggered_by action = Message.id message
    /\ Action.success action = None.
Proof.
  unfold DefaultLLMService.determine_action.
  destruct (bool_decide (_ ∈ [IRRELEVANT; ADMIN])).
  - eexists. split; [reflexivity|]. done.
  - cbv zeta. destruct (match existing_case with Some _ => _ | None => _ end)
      as [action_type missing_fields].
    eexists. split; [reflexivity|]. done.
Qed.

(** Evaluates the decisions between members of the enumerations. *)
Ltac decide_closed :=
  repeat match goal with
         | |- context [bool_decide (?a = ?b)] =>
             is_constructor a; is_constructor b;
             let v := eval vm_compute in (bool_decide (a = b)) in
             replace (bool_decide (a = b)) with v by (by vm_compute)
         | |- context [bool_decide (?a ∈ ?l)] =>
             is_constructor a;
             let v := eval vm_compute in (bool_decide (a ∈ l)) in
             replace (bool_decide (a ∈ l)) with v by (by vm_compute)
         end.

Ltac absurd_membership H :=
  repeat (apply elem_of_cons in H as [H|H]; [discriminate|]);
  by apply elem_of_nil in H.

(** X16.  The decision table of the default [determine_action].  It never
    raises and only reads the clock.  It never decides to complete or cancel
    a case, nor to complete a task.  Without an existing case the only
    decisions are CREATE_CASE (for every category but ADMIN and IRRELEVANT)
    and IGNORE; with one, the category alone decides, except that a LoA
    response is an UPDATE_CASE when it carries field updates and is ignored
    when it carries none.  A follow-up asks for the missing fields of the
    message, and for those of the case when the message names none. *)
Theorem determine_action_table (message : Message.t) (classification : Classification.t)
    (entities : ExtractedEntities.t) (existing_case : option Case.t) (w : World) :
  let category := Classification.category classification in
  let field_updates := ExtractedEntities.field_updates entities in
  exists action,
    DefaultLLMService.determine_action message classification entities existing_case w
    = (Ok action, set_clock (S (S (clock w))) w)
    /\ Action.case_id action = Case.id <$> existing_case
    /\ Action.triggered_by action = Message.id message
    /\ (Action.type action ∉ [COMPLETE_CASE; CANCEL_CASE; COMPLETE_TASK])
    /\ Action.type action
       = match existing_case, category with
         | _, (ADMIN | IRRELEVANT) => IGNORE
         | None, _ => CREATE_CASE
         | Some _, CLIENT_TASK => CREATE_TASK
         | Some _, LOA_CHASE => INITIATE_LOA_CHASE
         | Some _, LOA_MISSING_INFO => DRAFT_FOLLOWUP_EMAIL
         | Some _, LOA_RESPONSE =>
             match field_updates with [] => IGNORE | _ => UPDATE_CASE end
         end
    /\ (category ∈ [ADMIN; IRRELEVANT] -> Action.parameters action = ∅)
    /\ (category ∉ [ADMIN; IRRELEVANT] ->
        Action.parameters action !! "client_name"
        = Some (py_optional_str (ExtractedEntities.client_name entities))
        /\ Action.parameters action !! "case_title"
           = Some (py_optional_str (ExtractedEntities.case_title entities))
        /\ Action.parameters action !! "field_updates"
           = Some (PyDict (map (fun kv => (kv.1, PyStr kv.2)) field_updates))
        /\ Action.parameters action !! "missing_fields"
           = Some (PyList
                     match existing_case, category, ExtractedEntities.missing_fields entities with
                     | Some case, LOA_MISSING_INFO, [] => Case.get_missing_fields case
                     | _, _, missing_fields => missing_fields
                     end)).
Proof.
  intros category field_updates. subst category field_updates.
  unfold DefaultLLMService.determine_action.
  destruct (Classification.category classification), existing_case as [case|],
    (ExtractedEntities.field_updates entities) as [|update updates],
    (ExtractedEntities.missing_fields entities) as [|field fields];
    decide_closed; cbv beta iota zeta; decide_closed; cbv beta iota zeta;
    decide_closed; cbv beta iota;
    (eexists; split; [reflexivity|]; cbn; decide_closed; cbv beta iota;
     split_and!;
     first [ reflexivity
           | by (intros Hin; absurd_membership Hin)
           | by (intros []; repeat constructor)
           | by (intros _; split_and!; reflexivity) ]).
Qed.

(** One step of a computation that returns by evaluation. *)
Ltac run_step := erewrite bind_ok by reflexivity; cbv beta zeta; cbn [fst snd].

Lemma route_action_dispatch (llm_service : option LLMService) (action : Action.t)
    (w : World) :
  ActionRouter.route_action llm_service (action, w)
  = match Action.type action with
    | CREATE_CASE => CaseActionHandler._create_case (action, w)
    | UPDATE_CASE => CaseActionHandler._update_case (action, w)
    | COMPLETE_CASE => CaseActionHandler._complete_case (action, w)
    | CANCEL_CASE => CaseActionHandler._cancel_case (action, w)
    | CREATE_TASK => TaskActionHandler._create_task (action, w)
    | COMPLETE_TASK => TaskActionHandler._complete_task (action, w)
    | DRAFT_FOLLOWUP_EMAIL =>
        FollowupActionHandler._draft_followup_email llm_service (action, w)
    | INITIATE_LOA_CHASE => FollowupActionHandler._initiate_loa_chase (action, w)
    | IGNORE => (Ok true, (action, w))
    end.
Proof.
  unfold ActionRouter.route_action, ActionRouter.handlers, CaseActionHandler.execute,
    TaskActionHandler.execute, FollowupActionHandler.execute, bind, self.
  cbn [fst snd].
  destruct (Action.type action) eqn:Htype; decide_closed; cbn; rewrite ?Htype; reflexivity.
Qed.

Lemma audited_raise (what : string) (body : M (Action.t * World) bool)
    (s s1 : Action.t * World) (e : Exc) :
  body s = (Raise e, s1) ->
  exists e' w',
    ActionHandler.audited what body s = (Raise e', (s1.1, w'))
    /\ cases w' = cases s1.2 /\ tasks w' = tasks s1.2
    /\ (outages s1.2 = [] ->
        e' = ActionExecutionError (what +:+ str e)
        /\ audit_logs w'
           = (audit_logs s1.2
              ++ [audit_entry s1.1 (clock s1.2) false empty_state empty_state
                    (Some (str e))])%list).
Proof.
  intros Hbody. destruct s1 as [action w1].
  unfold ActionHandler.audited. erewrite try_except_raise by exact Hbody.
  unfold ActionHandler.log_action, AuditRepository.log_action, bind, self, utcnow_,
    in_world, utcnow, try_except, modify, ret, firestore_call, raise.
  cbn. rewrite audit_id_not_empty. cbn.
  destruct (outages w1) as [|[] rest]; cbn; eexists _, _;
    (split; [reflexivity|]); split_and!; try reflexivity; try discriminate.
  intros _. split; reflexivity.
Qed.

Lemma create_case_body_ok (action : Action.t) (w : World) (client title type_str : string)
    (case_type : CaseType) (required : list string) :
  outages w = [] ->
  Action.parameters action !! "client_name" = Some (PyStr client) ->
  Action.parameters action !! "case_title" = Some (PyStr title) ->
  Action.parameters action !! "case_type" = Some (PyStr type_str) ->
  type_str <> "" -> case_type_of_value type_str = Some case_type ->
  dict_get (Action.parameters action) "required_fields" (PyList []) = PyList required ->
  Action.parameters action !! "notes" = None ->
  let now := clock w in
  let case :=
    {| Case.id := "case_" +:+ timestamp_str now +:+ "_" +:+ replace_char " " "_" client;
       Case.client_name := client; Case.case_title := title;
       Case.case_type := case_type; Case.status := OPEN;
       Case.required_fields := required; Case.received_fields := ∅;
       Case.created_at := S now; Case.updated_at := S (S now);
       Case.completed_at := None; Case.assigned_to := None; Case.tags := [];
       Case.notes := ""; Case.metadata := ∅ |} in
  exists action' w',
    CaseActionHandler._create_case (action, w) = (Ok true, (action', w'))
    /\ cases w' = <[Case.id case := case]> (cases w)
    /\ tasks w' = tasks w
    /\ Action.case_id action' = Some (Case.id case)
    /\ Action.success action' = Some true.
Proof.
  intros Hout Hclient Htitle Htype Hne Hval Hrequired Hnotes now case.
  unfold CaseActionHandler._create_case, ActionHandler.audited.
  erewrite try_except_ok; cycle 1.
  { do 2 run_step.
    unfold dict_get in *. rewrite Hclient, Htitle, Htype, Hnotes.
    cbn [py_replace_spaces as_str truthy].
    apply String.eqb_neq in Hne. rewrite Hne, Hval. cbn [negb].
    destruct (Action.parameters action !! "required_fields") as [v|];
      rewrite Hrequired.
    all: repeat run_step.
    all: erewrite bind_ok;
      [|apply in_world_run; unfold CaseRepository.create_case;
        apply try_except_ok; cbn [Case.id String.eqb String.append Ascii.eqb];
        erewrite bind_ok by reflexivity;
        erewrite bind_ok by (apply firestore_call_ok; exact Hout);
        reflexivity].
    all: cbv beta.
    all: repeat run_step.
    all: erewrite bind_ok by (apply log_action_ok; exact Hout).
    all: reflexivity. }
  eexists _, _. split; [reflexivity|]. cbn. done.
Qed.

Lemma create_case_body_raises (action : Action.t) (w : World) :
  Action.parameters action !! "client_name" = Some PyNone
  \/ (exists client, Action.parameters action !! "client_name" = Some (PyStr client))
     /\ Action.parameters action !! "case_title" = Some PyNone ->
  exists e action' w',
    CaseActionHandler._create_case (action, w) = (Raise e, (action', w'))
    /\ cases w' = cases w /\ tasks w' = tasks w
    /\ Action.case_id action' = Action.case_id action
    /\ Action.success action' = Action.success action.
Proof.
  intros Hparams.
  unfold CaseActionHandler._create_case.
  match goal with
  | |- context [ActionHandler.audited ?what ?body] =>
      assert (exists e w1, body (action, w) = (Raise e, (action, w1))
                           /\ cases w1 = cases w /\ tasks w1 = tasks w)
        as (e & w1 & Hbody & Hcases & Htasks)
  end.
  { do 2 run_step. unfold dict_get.
    destruct Hparams as [Hclient | [[client Hclient] Htitle]]; rewrite Hclient.
    - eexists _, _. split; [reflexivity|]. split; reflexivity.
    - run_step. rewrite Htitle.
      lazymatch goal with
      | |- context [bind (lift_res ?X) _] => destruct X as [case_type | e]
      end.
      + do 2 run_step.
        eexists _, _. split; [reflexivity|]. split; reflexivity.
      + eexists _, _. split; [reflexivity|]. split; reflexivity. }
  destruct (audited_raise "Failed to create case: " _ _ _ _ Hbody)
    as (e' & w' & Hrun & Hcases' & Htasks' & _).
  exists e', action, w'. cbn in Hrun, Hcases', Htasks'.
  split; [exact Hrun|]. split_and!; congruence.
Qed.

(** X17.  What becomes of the default decision to create a case.  For a
    message of a category other than ADMIN and IRRELEVANT and no existing
    case, [determine_action] decides CREATE_CASE and passes on the client
    name and the case title as they were extracted, absent ones included.
    The handler therefore raises, and stores no case, whenever the client
    name or the case title was not extracted.  When both were, and the
    database answers, one case is stored under an id made of the clock and
    the client name: it is OPEN, of type general for a client task and LoA
    otherwise, a LoA case requires the four standard fields, and it has
    received no field, whatever field updates the message carried. *)
Theorem default_decision_creates_case (llm_service : option LLMService)
    (message : Message.t) (classification : Classification.t)
    (entities : ExtractedEntities.t) (w : World) :
  Classification.category classification ∉ [ADMIN; IRRELEVANT] ->
  exists action w1 r action' w',
    DefaultLLMService.determine_action message classification entities None w
    = (Ok action, w1)
    /\ Action.type action = CREATE_CASE
    /\ ActionRouter.route_action llm_service (action, w1) = (r, (action', w'))
    /\ tasks w' = tasks w
    /\ match ExtractedEntities.client_name entities,
             ExtractedEntities.case_title entities with
       | Some client, Some title =>
           outages w = [] ->
           let is_task :=
             bool_decide (Classification.category classification = CLIENT_TASK) in
           let case :=
             {| Case.id := "case_" +:+ timestamp_str (S (S (clock w))) +:+ "_"
                           +:+ replace_char " " "_" client;
                Case.client_name := client; Case.case_title := title;
                Case.case_type := (if is_task then GENERAL else LOA);
                Case.status := OPEN;
                Case.required_fields :=
                  (if is_task then [] else DefaultLLMService.LOA_REQUIRED_FIELDS);
                Case.received_fields := ∅;
                Case.created_at := S (S (S (clock w)));
                Case.updated_at := S (S (S (S (clock w))));
                Case.completed_at := None; Case.assigned_to := None; Case.tags := [];
                Case.notes := ""; Case.metadata := ∅ |} in
           r = Ok true
           /\ cases w' = <[Case.id case := case]> (cases w)
           /\ Action.case_id action' = Some (Case.id case)
       | _, _ =>
           (exists e, r = Raise e) /\ cases w' = cases w
           /\ Action.case_id action' = None
       end.
Proof.
  intros Hcategory.
  destruct (determine_action_runs message classification entities None w)
    as (action & Hrun & _ & Hid & _).
  assert (Action.type action = CREATE_CASE
          /\ Action.parameters action !! "client_name"
             = Some (py_optional_str (ExtractedEntities.client_name entities))
          /\ Action.parameters action !! "case_title"
             = Some (py_optional_str (ExtractedEntities.case_title entities))
          /\ Action.parameters action !! "notes" = None
          /\ Action.parameters action !! "case_type"
             = Some (PyStr (if bool_decide (Classification.category classification
                                            = CLIENT_TASK)
                            then "general" else "loa"))
          /\ dict_get (Action.parameters action) "required_fields" (PyList [])
             = PyList (if bool_decide (Classification.category classification
                                       = CLIENT_TASK)
                       then [] else DefaultLLMService.LOA_REQUIRED_FIELDS))
    as (Htype & Hclient & Htitle & Hnotes & Hcase_type & Hrequired).
  { revert Hrun Hcategory. unfold DefaultLLMService.determine_action.
    destruct (Classification.category classification);
      decide_closed; cbv beta iota zeta; decide_closed; cbv beta iota zeta;
      decide_closed; cbv beta iota;
      try (by intros _ []; repeat constructor).
    all: intros [= <-] _; cbn; split_and!; reflexivity. }
  exists action, (set_clock (S (S (clock w))) w).
  assert (ActionRouter.route_action llm_service (action, set_clock (S (S (clock w))) w)
          = CaseActionHandler._create_case (action, set_clock (S (S (clock w))) w))
    as ->.
  { by rewrite route_action_dispatch, Htype. }
  destruct (ExtractedEntities.client_name entities) as [client|] eqn:Hc;
    [destruct (ExtractedEntities.case_title entities) as [title|] eqn:Ht|].
  - destruct (decide (outages w = [])) as [Hout | Hout].
    + set (is_task := bool_decide (Classification.category classification = CLIENT_TASK))
        in *.
      destruct (create_case_body_ok action (set_clock (S (S (clock w))) w) client title
                  (if is_task then "general" else "loa")
                  (if is_task then GENERAL else LOA)
                  (if is_task then [] else DefaultLLMService.LOA_REQUIRED_FIELDS))
        as (action' & w' & Hexec & Hcases & Htasks & Hcase_id & _);
        try done; try (by destruct is_task).
      exists (Ok true), action', w'. split_and!; try done.
    + destruct (CaseActionHandler._create_case _) as [r [action' w']] eqn:Hexec.
      exists r, action', w'. split_and!; try done.
      pose proof (case_actions_keep_tasks (action, set_clock (S (S (clock w))) w)) as Hk.
      unfold CaseActionHandler.execute, bind, self in Hk. cbn [fst snd] in Hk.
      rewrite Htype, Hexec in Hk. exact Hk.
  - destruct (create_case_body_raises action (set_clock (S (S (clock w))) w))
      as (e & action' & w' & Hexec & Hcases & Htasks & Hcase_id & _).
    { right. split; [by exists client | exact Htitle]. }
    exists (Raise e), action', w'. rewrite Hcase_id, Hid. split_and!; try done. by exists e.
  - destruct (create_case_body_raises action (set_clock (S (S (clock w))) w))
      as (e & action' & w' & Hexec & Hcases & Htasks & Hcase_id & _).
    { left. exact Hclient. }
    exists (Raise e), action', w'. rewrite Hcase_id, Hid. split_and!; try done. by exists e.
Qed.

(** ** UPDATE_CASE *)

Lemma add_fields_ok (updates : list (string * string)) (source : string)
    (case : Case.t) (w : World) :
  exists fields updated_at,
    CaseActionHandler.add_fields (map (fun kv => (kv.1, PyStr kv.2)) updates) source
      (case, w)
    = (Ok tt,
       (Case.set_updated_at updated_at (Case.set_received_fields fields case),
        set_clock (2 * List.length updates + clock w) w))
    /\ FieldValue.value <$> fields
       = foldl (fun m kv => <[kv.1 := kv.2]> m)
           (FieldValue.value <$> Case.received_fields case) updates
    /\ (forall name, name ∉ updates.*1 ->
          fields !! name = Case.received_fields case !! name)
    /\ (forall name field_value,
          name ∈ updates.*1 -> fields !! name = Some field_value ->
          FieldValue.field_name field_value = name
          /\ FieldValue.source_message_id field_value = source
          /\ FieldValue.confidence field_value = 1%Q).
Proof.
  revert case w. induction updates as [|[name value] rest IH]; intros case w.
  - exists (Case.received_fields case), (Case.updated_at case). cbn.
    split_and!; try done.
    + by destruct case, w.
    + intros name fv Hin. by apply elem_of_nil in Hin.
  - cbn [map fst snd CaseActionHandler.add_fields].
    erewrite bind_ok by (by apply add_field_value_ok).
    set (fv := {| FieldValue.field_name := name; FieldValue.value := value;
                  FieldValue.received_at := clock w;
                  FieldValue.source_message_id := source;
                  FieldValue.confidence := 1 |}).
    destruct (IH (Case.set_updated_at (S (clock w))
                    (Case.set_received_fields
                       (<[name := fv]> (Case.received_fields case)) case))
                 (set_clock (S (S (clock w))) w))
      as (fields & updated_at & Hrun & Hvalues & Hother & Hnew).
    exists fields, updated_at. split_and!.
    + rewrite Hrun. f_equal. f_equal. destruct w. unfold set_clock.
      cbn -[Nat.mul]. f_equal. cbn [List.length]. lia.
    + rewrite Hvalues. cbn. by rewrite fmap_insert.
    + intros other Hnot. cbn in Hnot. apply not_elem_of_cons in Hnot as [Hne Hnot].
      rewrite (Hother other Hnot). cbn. by rewrite lookup_insert_ne.
    + intros other field_value Hin Hlookup.
      destruct (decide (other ∈ rest.*1)) as [Hrest | Hrest];
        [by apply (Hnew other field_value)|].
      cbn in Hin. apply elem_of_cons in Hin as [-> | Hin]; [|done].
      rewrite (Hother name Hrest) in Hlookup. cbn in Hlookup.
      rewrite lookup_insert_eq in Hlookup. by injection Hlookup as <-.
Qed.

Lemma add_fields_raises (field_updates : list (string * PyVal)) (source : string)
    (case : Case.t) (w : World) :
  Exists (fun kv => forall s, kv.2 <> PyStr s) field_updates ->
  exists e case' w',
    CaseActionHandler.add_fields field_updates source (case, w) = (Raise e, (case', w'))
    /\ cases w' = cases w /\ tasks w' = tasks w /\ outages w' = outages w
    /\ audit_logs w' = audit_logs w.
Proof.
  revert case w. induction field_updates as [|[name value] rest IH]; intros case w Hbad.
  - by apply Exists_nil in Hbad.
  - cbn [CaseActionHandler.add_fields].
    assert ((exists s, value = PyStr s) \/ forall s, value <> PyStr s)
      as [[s ->] | Hvalue] by (destruct value; eauto; right; discriminate).
    + apply Exists_cons in Hbad as [Hbad | Hbad]; [by destruct (Hbad s)|].
      erewrite bind_ok by (by apply add_field_value_ok).
      lazymatch goal with
      | |- context [CaseActionHandler.add_fields rest source (?c, ?w1)] =>
          destruct (IH c w1 Hbad) as (e & case' & w' & Hrun & H)
      end.
      exists e, case', w'. split; [exact Hrun | exact H].
    + eexists _, _, _. split.
      { erewrite bind_raise; [reflexivity|].
        unfold FieldTracker.add_field_value.
        erewrite bind_ok by reflexivity.
        erewrite bind_raise; [reflexivity|].
        unfold lift_res, FieldValue.new.
        destruct value; try reflexivity. by destruct (Hvalue s). }
      done.
Qed.

Lemma auto_transition_target (case : Case.t) :
  CaseStateMachine.should_auto_transition case
  = if bool_decide (Case.case_type case = LOA)
       && bool_decide (Case.status case ∈ [IN_PROGRESS; AWAITING_INFO])
    then
      if bool_decide (Case.required case ⊆ Case.received case) then Some COMPLETE
      else if bool_decide (Case.status case = AWAITING_INFO) then None
           else Some AWAITING_INFO
    else None.
Proof.
  unfold CaseStateMachine.should_auto_transition, Case.is_complete.
  destruct (bool_decide (Case.case_type case = LOA)); [|reflexivity].
  destruct (bool_decide (Case.status case ∈ [IN_PROGRESS; AWAITING_INFO]));
    [|reflexivity].
  cbn [negb andb].
  destruct (bool_decide (Case.required case ⊆ Case.received case)) eqn:Hsub;
    [reflexivity|].
  destruct (Case.get_missing_fields case) eqn:Hmissing.
  - apply missing_fields_nil in Hmissing.
    by rewrite (bool_decide_eq_true_2 _ Hmissing) in Hsub.
  - by destruct (bool_decide (Case.status case = AWAITING_INFO)).
Qed.

(** The automatic transition of [_update_case] is always one the table
    allows: the step returns. *)
Lemma auto_transition_runs (action : Action.t) (case : Case.t) (w : World) :
  exists case' w',
    (match CaseStateMachine.should_auto_transition case with
     | Some new_status =>
         '(_, case) ← in_world
           (call_on case (CaseStateMachine.transition new_status true));
         ret case
     | None => ret case
     end) (action, w) = (Ok case', (action, w'))
    /\ Case.status case'
       = default (Case.status case) (CaseStateMachine.should_auto_transition case)
    /\ Case.id case' = Case.id case
    /\ Case.received_fields case' = Case.received_fields case
    /\ cases w' = cases w /\ tasks w' = tasks w /\ outages w' = outages w.
Proof.
  rewrite auto_transition_target.
  destruct (bool_decide (Case.case_type case = LOA)); cbn [andb];
    [|by eexists _, _].
  destruct (Case.status case) eqn:Hst; decide_closed; cbv beta iota;
    try (by eexists _, _; rewrite ?Hst).
  all: destruct (bool_decide (Case.required case ⊆ Case.received case));
    try (by eexists _, _; rewrite ?Hst).
  all: erewrite bind_ok;
    [|apply in_world_run, call_on_ok; rewrite transition_accepted by (by rewrite Hst);
      decide_closed; cbv beta iota; reflexivity].
  all: by eexists _, _.
Qed.

Lemma update_case_body_ok (action : Action.t) (w : World) (case_id : string)
    (case : Case.t) (updates : list (string * string)) :
  outages w = [] ->
  Action.case_id action = Some case_id -> case_id <> "" ->
  cases w !! case_id = Some case -> Case.id case = case_id ->
  dict_get (Action.parameters action) "field_updates" (PyDict [])
  = PyDict (map (fun kv => (kv.1, PyStr kv.2)) updates) ->
  exists action' w' stored fields,
    CaseActionHandler._update_case (action, w) = (Ok true, (action', w'))
    /\ cases w' = <[case_id := stored]> (cases w)
    /\ tasks w' = tasks w
    /\ Case.id stored = case_id
    /\ Case.received_fields stored = fields
    /\ Case.status stored
       = default (Case.status case)
           (CaseStateMachine.should_auto_transition
              (Case.set_received_fields fields case))
    /\ FieldValue.value <$> fields
       = foldl (fun m kv => <[kv.1 := kv.2]> m)
           (FieldValue.value <$> Case.received_fields case) updates
    /\ (forall name, name ∉ updates.*1 ->
          fields !! name = Case.received_fields case !! name)
    /\ (forall name field_value,
          name ∈ updates.*1 -> fields !! name = Some field_value ->
          FieldValue.field_name field_value = name
          /\ FieldValue.source_message_id field_value = Action.triggered_by action
          /\ FieldValue.confidence field_value = 1%Q).
Proof.
  intros Hout Haid Hne Hcase Hid Hupdates.
  destruct (add_fields_ok updates (Action.triggered_by action) case w)
    as (fields & updated_at & Hadd & Hvalues & Hother & Hnew).
  set (case1 := Case.set_updated_at updated_at (Case.set_received_fields fields case))
    in *.
  set (w1 := set_clock (2 * List.length updates + clock w) w) in *.
  destruct (auto_transition_runs action case1 w1)
    as (case2 & w2 & Hauto & Hstatus & Hid2 & Hfields2 & Hcases2 & Htasks2 & Hout2).
  unfold CaseActionHandler._update_case, ActionHandler.audited.
  erewrite try_except_ok; cycle 1.
  { erewrite bind_ok by (apply (require_case_id_ok _ _ _ _ Haid Hne)).
    run_step.
    erewrite bind_ok by (apply in_world_run, (get_case_found w _ _ Hout Hcase)).
    cbv zeta. rewrite Hupdates.
    run_step.
    erewrite bind_ok by (apply in_world_run, call_on_ok, Hadd).
    cbv beta iota zeta. fold case1 w1.
    erewrite bind_ok by exact Hauto. cbv beta.
    erewrite bind_ok; cycle 1.
    { apply in_world_run. apply (update_case_ok _ _ case); [by rewrite Hout2|].
      rewrite Hid2, Hcases2. subst case1 w1. cbn. rewrite Hid. exact Hcase. }
    cbv beta.
    erewrite bind_ok by reflexivity. cbv beta.
    erewrite bind_ok by (apply log_action_ok; cbn; by rewrite Hout2).
    reflexivity. }
  eexists _, _, (Case.set_updated_at (clock w2) case2), fields.
  split; [reflexivity|]. cbn.
  rewrite Hid2, Hcases2. subst case1 w1. cbn. rewrite Hid.
  by rewrite Htasks2, Hfields2, Hstatus.
Qed.

Lemma update_case_body_raises (action : Action.t) (w : World) (case_id : string)
    (case : Case.t) (field_updates : list (string * PyVal)) :
  outages w = [] ->
  Action.case_id action = Some case_id -> case_id <> "" ->
  cases w !! case_id = Some case ->
  dict_get (Action.parameters action) "field_updates" (PyDict []) = PyDict field_updates ->
  Exists (fun kv => forall s, kv.2 <> PyStr s) field_updates ->
  exists msg w',
    CaseActionHandler._update_case (action, w)
    = (Raise (ActionExecutionError ("Failed to update case: " +:+ msg)), (action, w'))
    /\ cases w' = cases w /\ tasks w' = tasks w.
Proof.
  intros Hout Haid Hne Hcase Hupdates Hbad.
  destruct (add_fields_raises field_updates (Action.triggered_by action) case w Hbad)
    as (e & case' & w1 & Hadd & Hcases & Htasks & Hout1 & _).
  unfold CaseActionHandler._update_case.
  lazymatch goal with
  | |- context [ActionHandler.audited ?what ?body] =>
      assert (body (action, w) = (Raise e, (action, w1))) as Hbody
  end.
  { erewrite bind_ok by (apply (require_case_id_ok _ _ _ _ Haid Hne)).
    run_step.
    erewrite bind_ok by (apply in_world_run, (get_case_found w _ _ Hout Hcase)).
    cbv zeta. rewrite Hupdates.
    run_step.
    erewrite bind_raise; [reflexivity|].
    eapply in_world_run, call_on_raise, Hadd. }
  destruct (audited_raise "Failed to update case: " _ _ _ _ Hbody)
    as (e' & w' & Hrun & Hcases' & Htasks' & Hexc).
  cbn [fst snd] in *. rewrite Hout in Hout1. destruct (Hexc Hout1) as [-> _].
  exists (str e), w'. split; [exact Hrun|]. split; congruence.
Qed.

(** X18.  UPDATE_CASE is all or nothing.  While the database answers and
    the action names a stored case, [_update_case] either stores every field
    update or none: if one of the values is not a string it raises
    "Failed to update case: ..." and the stored case is as before.
    Otherwise it returns [True]; the stored case holds the values written in
    order over the old ones, each new entry carries the id of the triggering
    message and confidence 1, and the other entries are untouched.  The
    status changes only for a LoA case that is IN_PROGRESS or
    AWAITING_INFO: it becomes COMPLETE when every required field is then
    received and AWAITING_INFO otherwise.  In particular an OPEN case that
    receives its last field stays OPEN, and a COMPLETE or CANCELLED case
    still takes the new values. *)
Theorem update_case_all_or_nothing (action : Action.t) (w : World) (case_id : string)
    (case : Case.t) (field_updates : list (string * PyVal)) :
  outages w = [] ->
  Action.case_id action = Some case_id -> case_id <> "" ->
  cases w !! case_id = Some case -> Case.id case = case_id ->
  dict_get (Action.parameters action) "field_updates" (PyDict []) = PyDict field_updates ->
  exists r action' w',
    CaseActionHandler._update_case (action, w) = (r, (action', w'))
    /\ tasks w' = tasks w
    /\ (Exists (fun kv => forall s, kv.2 <> PyStr s) field_updates ->
        (exists msg, r = Raise (ActionExecutionError ("Failed to update case: " +:+ msg)))
        /\ cases w' = cases w)
    /\ (forall updates : list (string * string),
          field_updates = map (fun kv => (kv.1, PyStr kv.2)) updates ->
          r = Ok true
          /\ exists stored,
               cases w' = <[case_id := stored]> (cases w)
               /\ FieldValue.value <$> Case.received_fields stored
                  = foldl (fun m kv => <[kv.1 := kv.2]> m)
                      (FieldValue.value <$> Case.received_fields case) updates
               /\ (forall name, name ∉ updates.*1 ->
                     Case.received_fields stored !! name
                     = Case.received_fields case !! name)
               /\ (forall name field_value,
                     name ∈ updates.*1 ->
                     Case.received_fields stored !! name = Some field_value ->
                     FieldValue.source_message_id field_value
                     = Action.triggered_by action
                     /\ FieldValue.confidence field_value = 1%Q)
               /\ Case.status stored
                  = if bool_decide (Case.case_type case = LOA)
                       && bool_decide (Case.status case ∈ [IN_PROGRESS; AWAITING_INFO])
                    then
                      if bool_decide (Case.required case
                                      ⊆ dom (Case.received_fields stored))
                      then COMPLETE else AWAITING_INFO
                    else Case.status case).
Proof.
  intros Hout Haid Hne Hcase Hid Hupdates.
  assert (Forall (fun kv : string * PyVal => exists s, kv.2 = PyStr s) field_updates
          \/ Exists (fun kv : string * PyVal => forall s, kv.2 <> PyStr s) field_updates)
    as [Hgood | Hbad].
  { clear. induction field_updates as [|[name value] rest [IH | IH]].
    - left. constructor.
    - destruct value; try (right; constructor; discriminate).
      left. constructor; [by eexists | exact IH].
    - right. by apply Exists_cons_tl. }
  - assert (exists updates : list (string * string),
              field_updates = map (fun kv => (kv.1, PyStr kv.2)) updates)
      as [updates ->].
    { clear -Hgood. induction Hgood as [|[name value] rest [s Hs] _ [updates ->]].
      - by exists [].
      - cbn in Hs. subst value. by exists ((name, s) :: updates). }
    destruct (update_case_body_ok action w case_id case updates)
      as (action' & w' & stored & fields & Hrun & Hcases & Htasks & _ & Hfields
          & Hstatus & Hvalues & Hother & Hnew); try done.
    exists (Ok true), action', w'. split_and!; try done.
    + intros Hbad. exfalso. clear -Hbad.
      induction updates as [|[name value] rest IH].
      * by apply Exists_nil in Hbad.
      * cbn in Hbad. apply Exists_cons in Hbad as [Hbad | Hbad]; [|by apply IH].
        by destruct (Hbad value).
    + intros updates' Heq. split; [reflexivity|].
      assert (updates' = updates) as ->.
      { clear -Heq. revert updates' Heq.
        induction updates as [|[name value] rest IH]; intros [|[name' value'] rest'] Heq;
          try discriminate; [reflexivity|].
        cbn in Heq. injection Heq as -> -> Heq. f_equal. by apply IH. }
      exists stored. subst fields. split_and!; try done.
      * intros name field_value Hin Hlookup.
        by destruct (Hnew name field_value Hin Hlookup) as (_ & ? & ?).
      * rewrite Hstatus, auto_transition_target. cbn.
        destruct (bool_decide (Case.case_type case = LOA)
                  && bool_decide (Case.status case ∈ [IN_PROGRESS; AWAITING_INFO]));
          [|reflexivity].
        unfold Case.required, Case.received. cbn.
        destruct (bool_decide (_ ⊆ _)); [reflexivity|].
        by case_bool_decide.
  - destruct (update_case_body_raises action w case_id case field_updates)
      as (msg & w' & Hrun & Hcases & Htasks); try done.
    eexists _, action, w'. split; [exact Hrun|]. split_and!; try done.
    + intros _. split; [by exists msg | exact Hcases].
    + intros updates ->. exfalso. clear -Hbad.
      induction updates as [|[name value] rest IH].
      * by apply Exists_nil in Hbad.
      * cbn in Hbad. apply Exists_cons in Hbad as [Hbad | Hbad]; [|by apply IH].
        by destruct (Hbad value).
Qed.

(** ** Closing a case *)

(** X19.  What the closing actions do to a stored case, while the
    database answers.  CANCEL_CASE returns [True] and stores the case as
    CANCELLED from every status but COMPLETE, a case that is CANCELLED
    already included; the completion time is left as it was.  On a COMPLETE
    case it raises "Failed to cancel case: Invalid state transition ..." and
    COMPLETE_CASE raises likewise on a CANCELLED case: the stored case is
    then as before and the failure is audited. *)
Theorem closing_actions_by_status (action : Action.t) (w : World) (case_id : string)
    (case : Case.t) :
  outages w = [] ->
  Action.case_id action = Some case_id -> case_id <> "" ->
  cases w !! case_id = Some case -> Case.id case = case_id ->
  (Case.status case <> COMPLETE ->
   exists action' w' stored,
     CaseActionHandler._cancel_case (action, w) = (Ok true, (action', w'))
     /\ cases w' = <[case_id := stored]> (cases w)
     /\ Case.status stored = CANCELLED
     /\ Case.completed_at stored = Case.completed_at case
     /\ Case.received_fields stored = Case.received_fields case)
  /\ (Case.status case = COMPLETE ->
      exists msg w',
        CaseActionHandler._cancel_case (action, w)
        = (Raise (ActionExecutionError
                    ("Failed to cancel case: Invalid state transition for case "
                     +:+ msg)), (action, w'))
        /\ cases w' = cases w
        /\ exists entry,
             audit_logs w' = (audit_logs w ++ [entry])%list
             /\ AuditLog.success entry = false)
  /\ (Case.status case = CANCELLED ->
      exists msg w',
        CaseActionHandler._complete_case (action, w)
        = (Raise (ActionExecutionError
                    ("Failed to complete case: Invalid state transition for case "
                     +:+ msg)), (action, w'))
        /\ cases w' = cases w
        /\ exists entry,
             audit_logs w' = (audit_logs w ++ [entry])%list
             /\ AuditLog.success entry = false).
Proof.
  intros Hout Haid Hne Hcase Hid. split_and!.
  - intros Hstatus.
    unfold CaseActionHandler._cancel_case, ActionHandler.audited.
    erewrite try_except_ok; cycle 1.
    { erewrite bind_ok by (apply (require_case_id_ok _ _ _ _ Haid Hne)).
      erewrite bind_ok by (apply in_world_run, (get_case_found w _ _ Hout Hcase)).
      cbv zeta.
      erewrite bind_ok; cycle 1.
      { apply in_world_run, call_on_ok. rewrite transition_accepted; [reflexivity|].
        by destruct (Case.status case). }
      cbv beta iota.
      erewrite bind_ok; cycle 1.
      { apply in_world_run. apply (update_case_ok _ _ case); [done|].
        cbn. rewrite Hid. exact Hcase. }
      erewrite bind_ok by reflexivity.
      erewrite bind_ok by (apply log_action_ok; done).
      reflexivity. }
    eexists _, _, _. split; [reflexivity|]. cbn. rewrite Hid. done.
  - intros Hstatus.
    unfold CaseActionHandler._cancel_case.
    lazymatch goal with
    | |- context [ActionHandler.audited ?what ?body] =>
        assert (exists msg,
                  body (action, w)
                  = (Raise (InvalidStateTransitionError
                              ("Invalid state transition for case " +:+ msg)),
                     (action, w))) as [msg Hbody]
    end.
    { erewrite bind_ok by (apply (require_case_id_ok _ _ _ _ Haid Hne)).
      erewrite bind_ok by (apply in_world_run, (get_case_found w _ _ Hout Hcase)).
      cbv zeta. eexists.
      erewrite bind_raise; [reflexivity|].
      eapply in_world_run, call_on_raise.
      unfold CaseStateMachine.transition, CaseStateMachine.validate_transition, bind, self.
      cbn. rewrite Hstatus. reflexivity. }
    destruct (audited_raise "Failed to cancel case: " _ _ _ _ Hbody)
      as (e' & w' & Hrun & Hcases' & _ & Hexc).
    cbn [fst snd] in *. destruct (Hexc Hout) as [-> Hlogs].
    exists msg, w'. split; [exact Hrun|]. split; [exact Hcases'|].
    eexists. split; [exact Hlogs | reflexivity].
  - intros Hstatus.
    unfold CaseActionHandler._complete_case.
    lazymatch goal with
    | |- context [ActionHandler.audited ?what ?body] =>
        assert (exists msg,
                  body (action, w)
                  = (Raise (InvalidStateTransitionError
                              ("Invalid state transition for case " +:+ msg)),
                     (action, w))) as [msg Hbody]
    end.
    { erewrite bind_ok by (apply (require_case_id_ok _ _ _ _ Haid Hne)).
      erewrite bind_ok by (apply in_world_run, (get_case_found w _ _ Hout Hcase)).
      cbv zeta.
      exists (Case.id case +:+ ": " +:+ case_status_value CANCELLED +:+ " → "
              +:+ case_status_value COMPLETE).
      erewrite bind_raise; [reflexivity|].
      eapply in_world_run, call_on_raise.
      clear -Hstatus. destruct case. cbn in Hstatus. subst. reflexivity. }
    destruct (audited_raise "Failed to complete case: " _ _ _ _ Hbody)
      as (e' & w' & Hrun & Hcases' & _ & Hexc).
    cbn [fst snd] in *. destruct (Hexc Hout) as [-> Hlogs].
    exists msg, w'. split; [exact Hrun|]. split; [exact Hcases'|].
    eexists. split; [exact Hlogs | reflexivity].
Qed.

(** ** Validation of a result against the expectations of a message *)

Lemma differs_false (actual : string) (expected : PyVal) :
  differs actual expected = false <-> expected = PyStr actual.
Proof.
  unfold differs. destruct expected; try (split; discriminate).
  rewrite negb_false_iff, String.eqb_eq. split; [by intros -> | by intros [= ->]].
Qed.

Lemma differs_true (actual : string) (expected : PyVal) :
  differs actual expected = true -> expected <> PyStr actual.
Proof. intros H Heq. apply differs_false in Heq. congruence. Qed.

(** X20.  [validate_result] passes exactly when it reports no error, and
    it reports at most three.  It passes exactly when each expectation the
    metadata holds (a value that is not empty) is met or cannot be checked:
    the expected category equals the category of the classification, or the
    result has no classification; the expected action equals the type of the
    first action taken, and there must be one; the expected client name
    equals the extracted one, or the result has no extracted entities.  So a
    result without classification and entities, as a failed message has,
    passes unless an action is expected. *)
Theorem validate_result_characterised (message : Message.t) (result : ProcessingResult.t) :
  let validation := PipelineOrchestrator.validate_result message result in
  let expected key := dict_get (Message.metadata message) key PyNone in
  Validation.message_id validation = Message.id message
  /\ (Validation.passed validation = true <-> Validation.errors validation = [])
  /\ List.length (Validation.errors validation) <= 3
  /\ (Validation.passed validation = true <->
      (truthy (expected "expected_category") = true ->
       forall classification,
         ProcessingResult.classification result = Some classification ->
         expected "expected_category"
         = PyStr (category_value (Classification.category classification)))
      /\ (truthy (expected "expected_action") = true ->
          exists action rest,
            ProcessingResult.actions_taken result = action :: rest
            /\ expected "expected_action"
               = PyStr (action_type_value (Action.type action)))
      /\ (truthy (expected "expected_client_name") = true ->
          forall entities,
            ProcessingResult.extracted_entities result = Some entities ->
            exists name,
              ExtractedEntities.client_name entities = Some name
              /\ expected "expected_client_name" = PyStr name)).
Proof.
  intros validation expected. subst validation expected. cbv beta.
  unfold PipelineOrchestrator.validate_result. cbv zeta.
  generalize (dict_get (Message.metadata message) "expected_category" PyNone)
    (dict_get (Message.metadata message) "expected_action" PyNone)
    (dict_get (Message.metadata message) "expected_client_name" PyNone).
  intros expected_category expected_action expected_client.
  destruct (truthy expected_category) eqn:Hcat;
    [destruct (ProcessingResult.classification result) as [classification|];
     cbv beta iota zeta;
     [destruct (differs _ expected_category) eqn:Hdc|]|];
    (destruct (truthy expected_action) eqn:Hact;
     [destruct (ProcessingResult.actions_taken result) as [|action rest];
      cbv beta iota zeta;
      [|destruct (differs _ expected_action) eqn:Hda]|]);
    (destruct (truthy expected_client) eqn:Hcli;
     [destruct (ProcessingResult.extracted_entities result) as [entities|];
      cbv beta iota zeta;
      [destruct (ExtractedEntities.client_name entities) as [name|] eqn:Hname;
       cbv beta iota zeta;
       [destruct (differs name expected_client) eqn:Hde|]|]|]);
    cbn;
    repeat match goal with
           | H : differs _ _ = false |- _ => apply differs_false in H
           | H : differs _ _ = true |- _ => apply differs_true in H
           end;
    (split; [reflexivity|]); (split; [split; (discriminate || reflexivity)|]);
    (split; [lia|]);
    (split; [try discriminate; intros _|intros (H1 & H2 & H3)]).
  all: try (split_and!; (discriminate || (intros _; eauto))).
  all: try (intros ? [= <-]; eauto).
  all: try reflexivity.
  all: exfalso.
  all: try (specialize (H1 eq_refl _ eq_refl); congruence).
  all: try (destruct (H2 eq_refl) as (a & r & Heq & H2'); congruence).
  all: try (destruct (H3 eq_refl _ eq_refl) as (n & Heq & H3'); congruence).
Qed.

(** ** What a result reports *)

Lemma returns_bind_with {S A B} (Q : A -> Prop) (P : B -> Prop) (m : M S A)
    (k : A -> M S B) :
  returns Q m -> (forall a, Q a -> returns P (k a)) -> returns P (bind m k).
Proof.
  intros Hm Hk s b s'. unfold bind. destruct (m s) as [[a | e] s1] eqn:Hrun;
    [|discriminate].
  apply Hk. by eapply Hm.
Qed.

Lemma route_action_returns_true (llm_service : option LLMService) :
  returns (fun b => b = true) (ActionRouter.route_action llm_service).
Proof.
  intros [action w] b s' Hrun. rewrite route_action_dispatch in Hrun.
  destruct (Action.type action).
  - pose proof (create_case_logs_once (action, w)) as H.
    rewrite Hrun in H. apply H.
  - pose proof (update_case_logs_once (action, w)) as H.
    rewrite Hrun in H. apply H.
  - pose proof (complete_case_logs_once (action, w)) as H.
    rewrite Hrun in H. apply H.
  - pose proof (cancel_case_logs_once (action, w)) as H.
    rewrite Hrun in H. apply H.
  - pose proof (create_task_logs_once (action, w)) as H.
    rewrite Hrun in H. apply H.
  - pose proof (complete_task_logs_once (action, w)) as H.
    rewrite Hrun in H. apply H.
  - pose proof (draft_followup_email_logs_once llm_service (action, w)) as H.
    rewrite Hrun in H. apply H.
  - pose proof (initiate_loa_chase_logs_once (action, w)) as H.
    rewrite Hrun in H. apply H.
  - by injection Hrun as <- _.
Qed.

Section Results.
Variable llm_service : LLMService.
Variable pre_filter : PreFilter.t.

Lemma body_actions (start_time : nat) :
  returns (fun result => executed_actions (ProcessingResult.actions_taken result))
    (PipelineOrchestrator.process_message_body llm_service pre_filter start_time).
Proof.
  unfold PipelineOrchestrator.process_message_body.
  repeat
    (cbv beta zeta;
     lazymatch goal with
     | |- forall _, _ => intros
     | |- returns _ (bind (if negb (String.eqb _ "IGNORE") then _ else _) _) =>
         apply (returns_bind_with executed_actions)
     | |- returns executed_actions (if negb ?b then _ else _) =>
         destruct b eqn:Htype; cbn [negb]
     | |- returns executed_actions (ret []) => apply returns_ret; by left
     | |- returns executed_actions (bind (in_world (call_on _ _)) _) => fail
     | |- returns _ (bind _ _) => apply returns_bind
     | |- returns _ (ret _) => apply returns_ret; solve [by left | assumption]
     | |- returns _ (match ?x with _ => _ end) => destruct x
     end).
  all: lazymatch goal with
       | |- returns executed_actions (bind (in_world (call_on ?action _)) _) =>
           intros [message w] actions s' Hrun; unfold bind, in_world, call_on in Hrun;
           cbn [fst snd] in Hrun;
           pose proof (route_action_returns_true (Some llm_service) (action, w)) as Htrue;
           pose proof (route_action_keeps_identity Action.type (Some llm_service)
                         ltac:(done) ltac:(done) ltac:(done) ltac:(done) (action, w))
             as Hkept;
           unfold on_self in Hkept;
           destruct (ActionRouter.route_action (Some llm_service) (action, w))
             as [[b | e] [action' w']]; [|discriminate];
           injection Hrun as <- _; right;
           exists (Action.set_success (Some b) action');
           rewrite (Htrue b _ eq_refl); split_and!; [done| |done];
           cbn [fst snd] in Hkept; cbn; rewrite Hkept;
           intros Heq; rewrite Heq in Htype; discriminate
       end.
Qed.
End Results.

Lemma validate_action_mismatch (message : Message.t) (result : ProcessingResult.t) :
  truthy (dict_get (Message.metadata message) "expected_action" PyNone) = true ->
  (forall action rest,
     ProcessingResult.actions_taken result = action :: rest ->
     dict_get (Message.metadata message) "expected_action" PyNone
     <> PyStr (action_type_value (Action.type action))) ->
  Validation.passed (PipelineOrchestrator.validate_result message result) = false.
Proof.
  unfold PipelineOrchestrator.validate_result. cbv zeta.
  generalize (dict_get (Message.metadata message) "expected_category" PyNone)
    (dict_get (Message.metadata message) "expected_action" PyNone)
    (dict_get (Message.metadata message) "expected_client_name" PyNone).
  intros expected_category expected_action expected_client Hact Hdiffers.
  rewrite Hact.
  assert (forall v, Validation.passed v = false ->
            Validation.passed
              (if truthy expected_client then
                 match ProcessingResult.extracted_entities result with
                 | Some entities =>
                     if match ExtractedEntities.client_name entities with
                        | Some name => differs name expected_client
                        | None => true
                        end
                     then
                       Validation.fail
                         ("Client name mismatch: expected " +:+ py_str expected_client
                          +:+ ", got "
                          +:+ default "None" (ExtractedEntities.client_name entities))
                         v
                     else v
                 | None => v
                 end
               else v) = false) as Hclient.
  { intros v Hv. destruct (truthy expected_client); [|exact Hv].
    destruct (ProcessingResult.extracted_entities result) as [entities|]; [|exact Hv].
    by destruct (match ExtractedEntities.client_name entities with
                 | Some name => differs name expected_client
                 | None => true
                 end). }
  apply Hclient.
  destruct (ProcessingResult.actions_taken result) as [|action rest]; [reflexivity|].
  destruct (differs _ expected_action) eqn:Hd; [reflexivity|].
  apply differs_false in Hd. by destruct (Hdiffers action rest).
Qed.

Section Reports.
Variable llm_service : LLMService.
Variable pre_filter : PreFilter.t.

Lemma body_keeps_metadata (start_time : nat) :
  preserves (fun s : Message.t * World => Message.metadata s.1)
    (PipelineOrchestrator.process_message_body llm_service pre_filter start_time).
Proof.
  unfold PipelineOrchestrator.process_message_body.
  repeat
    (cbv zeta;
     lazymatch goal with
     | |- forall _, _ => intros
     | |- preserves _ (bind _ _) => apply preserves_bind
     | |- preserves _ self => apply self_keeps
     | |- preserves _ (in_world _) => apply (in_world_keeps_self Message.metadata)
     | |- preserves _ utcnow_ => apply (in_world_keeps_self Message.metadata)
     | |- preserves _ (update_self _) =>
         apply (update_self_keeps Message.metadata); reflexivity
     | |- preserves _ (match ?x with _ => _ end) => destruct x
     | |- preserves _ (ret _) => apply preserves_ret
     | |- preserves _ (lift_res _) => apply preserves_lift_res
     end).
Qed.

End Reports.

(** ** The client of the language model *)

Lemma retry_outcome (attempt : nat -> LLMClient.Attempt) (k max_tries : nat) :
  match LLMClient.retry attempt k max_tries with
  | Ok (Some text) =>
      exists i, i < max_tries /\ attempt (k + i) = LLMClient.Returned text
                /\ forall j, j < i -> attempt (k + j) = LLMClient.TimedOut
  | Ok None => forall j, j < max_tries -> attempt (k + j) = LLMClient.TimedOut
  | Raise e =>
      exists i, i < max_tries /\ attempt (k + i) = LLMClient.Failed e
                /\ forall j, j < i -> attempt (k + j) = LLMClient.TimedOut
  end.
Proof.
  revert k. induction max_tries as [|n IH]; intros k; cbn.
  - intros j Hj. lia.
  - destruct (attempt k) as [text | | e] eqn:Hk.
    + exists 0. rewrite Nat.add_0_r. split_and!; [lia | exact Hk | intros j Hj; lia].
    + specialize (IH (S k)).
      destruct (LLMClient.retry attempt (S k) n) as [[text|] | e].
      * destruct IH as (i & Hi & Hat & Hbefore). exists (S i).
        rewrite Nat.add_succ_r. split_and!; [lia | exact Hat |].
        intros [|j] Hj; [by rewrite Nat.add_0_r|].
        rewrite Nat.add_succ_r. apply Hbefore. lia.
      * intros [|j] Hj; [by rewrite Nat.add_0_r|].
        rewrite Nat.add_succ_r. apply IH. lia.
      * destruct IH as (i & Hi & Hat & Hbefore). exists (S i).
        rewrite Nat.add_succ_r. split_and!; [lia | exact Hat |].
        intros [|j] Hj; [by rewrite Nat.add_0_r|].
        rewrite Nat.add_succ_r. apply Hbefore. lia.
    + exists 0. rewrite Nat.add_0_r. split_and!; [lia | exact Hk | intros j Hj; lia].
Qed.

(** X22.  The retry loop of [LLMClient.generate_text].  It makes at most
    [max_tries] attempts, and none when [max_tries] is not positive.  It
    returns the reply of the first attempt that does not time out, or
    raises the exception of that attempt: only time-outs are retried.
    When every attempt times out it returns [None]; the time-out itself is
    never raised. *)
Theorem generate_text_retries_timeouts_only (attempt : nat -> LLMClient.Attempt)
    (max_tries : Z) :
  match LLMClient.generate_text attempt max_tries with
  | Ok (Some text) =>
      exists i, (Z.of_nat i < max_tries)%Z /\ attempt i = LLMClient.Returned text
                /\ forall j, j < i -> attempt j = LLMClient.TimedOut
  | Ok None =>
      forall j, (Z.of_nat j < max_tries)%Z -> attempt j = LLMClient.TimedOut
  | Raise e =>
      exists i, (Z.of_nat i < max_tries)%Z /\ attempt i = LLMClient.Failed e
                /\ forall j, j < i -> attempt j = LLMClient.TimedOut
  end.
Proof.
  unfold LLMClient.generate_text.
  pose proof (retry_outcome attempt 0 (Z.to_nat max_tries)) as H.
  destruct (LLMClient.retry attempt 0 (Z.to_nat max_tries)) as [[text|] | e]; cbn in H.
  - destruct H as (i & Hi & H). exists i. split; [lia | exact H].
  - intros j Hj. apply H. lia.
  - destruct H as (i & Hi & H). exists i. split; [lia | exact H].
Qed.

(** ** When the default classification fails *)

Lemma heuristic_classification_returns (text reason : string) :
  exists c,
    DefaultLLMService._heuristic_classification text reason = Ok c
    /\ Classification.reasoning c = reason
    /\ Classification.confidence c
       = (if Classification.is_relevant c then 0.6%Q else 0.5%Q)
    /\ Classification.is_relevant c
       = negb (bool_decide (Classification.category c ∈ [ADMIN; IRRELEVANT])).
Proof.
  unfold DefaultLLMService._heuristic_classification.
  repeat (destruct (any_in _ (lower text))); eexists; split_and!; reflexivity.
Qed.

Section Failures.
Variable from_llm_name : nat -> Res unit.
Variable system_message : Res string.
Variable generate_text : nat -> string -> string -> Res (option string).
Variable parse_first_json_object : string -> option (list (string * Json)).
Variable float_of_str : string -> option Q.
Variable str_of_json : Json -> string.

(** X23.  How the default [classify_message] deals with the model.  On a
    message with no text it returns IRRELEVANT with confidence 1 and asks
    nothing of the model.  Otherwise an exception raised while the client or
    the system prompt is built is passed on.  An exception of
    [generate_text] is not: the answer is then the key-word classification,
    with the exception in its reasoning.  A reply that is absent, empty or
    holds no JSON object gives the key-word classification with the
    reasoning "Unable to parse LLM response".  A reply whose JSON object has
    a "category" that is neither a string nor an empty value (a number,
    [true], a list, an object) makes [classify_message] raise. *)
Theorem classify_message_and_the_model (n : nat) (message : Message.t) :
  let text := strip (Message.get_text_content message) in
  let classify :=
    DefaultLLMService.classify_message from_llm_name system_message generate_text
      parse_first_json_object float_of_str str_of_json n message in
  let key_words reason c :=
    DefaultLLMService._heuristic_classification text reason = Ok c
    /\ Classification.reasoning c = reason
    /\ Classification.confidence c
       = (if Classification.is_relevant c then 0.6%Q else 0.5%Q)
    /\ Classification.is_relevant c
       = negb (bool_decide (Classification.category c ∈ [ADMIN; IRRELEVANT])) in
  (text = "" ->
   classify = Ok {| Classification.category := IRRELEVANT;
                    Classification.confidence := 1;
                    Classification.reasoning := "Empty message content";
                    Classification.is_relevant := false |})
  /\ (text <> "" ->
      (forall e, from_llm_name n = Raise e -> classify = Raise e)
      /\ (forall u e,
            from_llm_name n = Ok u -> system_message = Raise e -> classify = Raise e)
      /\ (forall u system,
            from_llm_name n = Ok u -> system_message = Ok system ->
            match generate_text n system text with
            | Raise e =>
                exists c, classify = Ok c /\ key_words ("LLM error: " +:+ str e) c
            | Ok None =>
                exists c, classify = Ok c /\ key_words "Unable to parse LLM response" c
            | Ok (Some reply) =>
                (reply = "" \/ parse_first_json_object reply = None ->
                 exists c,
                   classify = Ok c /\ key_words "Unable to parse LLM response" c)
                /\ (forall parsed,
                      reply <> "" -> parse_first_json_object reply = Some parsed ->
                      json_truthy (json_get parsed "category") = true ->
                      (forall s, json_get parsed "category" <> JStr s) ->
                      exists e, classify = Raise e)
            end)).
Proof.
  intros text classify key_words. subst classify key_words.
  unfold DefaultLLMService.classify_message. cbv zeta beta. fold text.
  split.
  { intros ->. reflexivity. }
  intros Hne. apply String.eqb_neq in Hne. rewrite Hne. split_and!.
  - by intros e ->.
  - by intros u e -> ->.
  - intros u system -> ->.
    destruct (generate_text n system text) as [[reply|] | e].
    + unfold DefaultLLMService.classify_reply. cbv zeta. split.
      * destruct (heuristic_classification_returns text "Unable to parse LLM response")
          as (c & Hrun & H).
        intros [-> | ->]; exists c; rewrite Hrun; (split; [|done]);
          [reflexivity | by destruct (String.eqb reply "")].
      * intros parsed Hreply -> Htruthy Hnot.
        apply String.eqb_neq in Hreply. rewrite Hreply.
        destruct (json_get parsed "category") as [| b | q | s | l | d];
          try discriminate; try (by destruct (Hnot s)); rewrite Htruthy; by eexists.
    + destruct (heuristic_classification_returns text "Unable to parse LLM response")
        as (c & Hrun & H).
      exists c. by rewrite Hrun.
    + destruct (heuristic_classification_returns text ("LLM error: " +:+ str e))
        as (c & Hrun & H).
      exists c. by rewrite Hrun.
Qed.
End Failures.

(** ** Reading the category of a reply *)

Lemma map_string_compose (f g : ascii -> ascii) (s : string) :
  map_string f (map_string g s) = map_string (fun a => f (g a)) s.
Proof. induction s as [|a r IH]; cbn; [reflexivity | by rewrite IH]. Qed.

Lemma map_string_ext (f g : ascii -> ascii) (s : string) :
  (forall a, f a = g a) -> map_string f s = map_string g s.
Proof. intros H. induction s as [|a r IH]; cbn; [reflexivity | by rewrite H, IH]. Qed.

Lemma normalise_map (value : string) :
  DefaultLLMService.normalise value
  = map_string
      (fun a =>
         let a := upper_ascii a in
         let a := if Ascii.eqb a "-" then "_"%char else a in
         if Ascii.eqb a " " then "_"%char else a)
      value.
Proof.
  unfold DefaultLLMService.normalise, replace_char, upper.
  by rewrite !map_string_compose.
Qed.

Lemma normalise_idempotent (value : string) :
  DefaultLLMService.normalise (DefaultLLMService.normalise value)
  = DefaultLLMService.normalise value.
Proof.
  rewrite !normalise_map, map_string_compose. apply map_string_ext.
  by intros [[] [] [] [] [] [] [] []].
Qed.

Lemma normalise_lower (value : string) :
  DefaultLLMService.normalise (lower value) = DefaultLLMService.normalise value.
Proof.
  rewrite !normalise_map. unfold lower. rewrite map_string_compose.
  apply map_string_ext. by intros [[] [] [] [] [] [] [] []].
Qed.


(** ** Canonical field names *)

Lemma assoc_set_keys {V} (k : string) (v : V) (d : list (string * V)) (k' : string) :
  k' ∈ (assoc_set k v d).*1 <-> k' = k \/ k' ∈ d.*1.
Proof.
  induction d as [|[k1 v1] rest IH]; cbn.
  - rewrite elem_of_cons, elem_of_nil. tauto.
  - destruct (String.eqb k1 k) eqn:Heq.
    + apply String.eqb_eq in Heq. subst k1. cbn. rewrite !elem_of_cons. tauto.
    + cbn. rewrite !elem_of_cons, IH. tauto.
Qed.

Lemma assoc_set_NoDup {V} (k : string) (v : V) (d : list (string * V)) :
  NoDup d.*1 -> NoDup (assoc_set k v d).*1.
Proof.
  induction d as [|[k1 v1] rest IH]; cbn; intros Hnd.
  - apply NoDup_singleton.
  - apply NoDup_cons in Hnd as [Hfresh Hnd].
    destruct (String.eqb k1 k) eqn:Heq.
    + apply String.eqb_eq in Heq. subst k1. cbn. by apply NoDup_cons.
    + apply String.eqb_neq in Heq. cbn. apply NoDup_cons. split; [|by apply IH].
      rewrite assoc_set_keys. intros [-> | Hin]; [done | by apply Hfresh].
Qed.

Lemma assoc_set_binding {V} (k : string) (v : V) (d : list (string * V))
    (k' : string) (v' : V) :
  NoDup d.*1 ->
  (k', v') ∈ assoc_set k v d <-> (k' = k /\ v' = v) \/ (k' <> k /\ (k', v') ∈ d).
Proof.
  induction d as [|[k1 v1] rest IH]; cbn; intros Hnd.
  - rewrite elem_of_cons, elem_of_nil. split.
    + intros [[= -> ->] | []]. by left.
    + intros [[-> ->] | [_ []]]. by left.
  - apply NoDup_cons in Hnd as [Hfresh Hnd].
    destruct (String.eqb k1 k) eqn:Heq.
    + apply String.eqb_eq in Heq. subst k1. rewrite !elem_of_cons. split.
      * intros [[= -> ->] | Hin]; [by left|]. right. split; [|by right].
        intros ->. apply Hfresh, list_elem_of_fmap. by exists (k, v').
      * intros [[-> ->] | [Hne [[= -> ->] | Hin]]]; [by left | done | by right].
    + apply String.eqb_neq in Heq. rewrite !elem_of_cons, (IH Hnd). split.
      * intros [[= -> ->] | [[-> ->] | [Hne Hin]]].
        -- right. split; [done | by left].
        -- by left.
        -- right. split; [done | by right].
      * intros [[-> ->] | [Hne [[= -> ->] | Hin]]].
        -- right. by left.
        -- by left.
        -- right. right. by split.
Qed.

Lemma canonical_key_fixed (key : string) :
  key ∉ FIELD_ALIASES -> DefaultLLMService.canonical_key key = key.
Proof.
  unfold FIELD_ALIASES, DefaultLLMService.canonical_key. intros Hnot. cbv zeta.
  rewrite !not_elem_of_cons in Hnot.
  rewrite (bool_decide_eq_false_2 (key ∈ ["dob"; "dateofbirth"]))
    by (rewrite !not_elem_of_cons; intuition auto using not_elem_of_nil).
  rewrite (bool_decide_eq_false_2 (key ∈ ["ni"; _; _; _]))
    by (rewrite !not_elem_of_cons; intuition auto using not_elem_of_nil).
  rewrite (bool_decide_eq_false_2 (key ∈ ["policy_number"; _; _; _]))
    by (rewrite !not_elem_of_cons; intuition auto using not_elem_of_nil).
  rewrite (bool_decide_eq_false_2 (key ∈ ["provider"; _]))
    by (rewrite !not_elem_of_cons; intuition auto using not_elem_of_nil).
  reflexivity.
Qed.

Ltac evaluate_key :=
  lazymatch goal with
  | |- ?key ∉ _ => let v := eval vm_compute in key in change key with v
  end;
  rewrite !not_elem_of_cons; split_and!; (discriminate || apply not_elem_of_nil).

Lemma canonical_key_not_alias (key : string) :
  DefaultLLMService.canonical_key key ∉ FIELD_ALIASES.
Proof.
  unfold FIELD_ALIASES, DefaultLLMService.canonical_key. cbv zeta.
  destruct (bool_decide (key ∈ ["dob"; "dateofbirth"])) eqn:H1.
  { evaluate_key. }
  apply bool_decide_eq_false in H1.
  destruct (bool_decide (key ∈ ["ni"; _; _; _])) eqn:H2.
  { evaluate_key. }
  apply bool_decide_eq_false in H2.
  destruct (bool_decide (key ∈ ["policy_number"; _; _; _])) eqn:H3.
  { evaluate_key. }
  apply bool_decide_eq_false in H3.
  destruct (bool_decide (key ∈ ["provider"; _])) eqn:H4.
  { evaluate_key. }
  apply bool_decide_eq_false in H4.
  rewrite !not_elem_of_cons in *. intuition auto using not_elem_of_nil.
Qed.

Section Canonical.
Variable str_of_json : Json -> string.

Lemma canonicalize_snoc (updates : list (string * Json)) (kv : string * Json) :
  DefaultLLMService._canonicalize_field_updates str_of_json (updates ++ [kv])
  = assoc_set (canonical_name kv.1) (canonical_value str_of_json kv.2)
      (DefaultLLMService._canonicalize_field_updates str_of_json updates).
Proof.
  unfold DefaultLLMService._canonicalize_field_updates. rewrite foldl_app. cbn.
  unfold canonical_name, canonical_value. by destruct kv.2.
Qed.

Lemma canonicalize_NoDup (updates : list (string * Json)) :
  NoDup (DefaultLLMService._canonicalize_field_updates str_of_json updates).*1.
Proof.
  induction updates as [|kv updates IH] using rev_ind.
  - apply NoDup_nil_2.
  - rewrite canonicalize_snoc. by apply assoc_set_NoDup.
Qed.

(** X25.  [_canonicalize_field_updates] returns a dict: no key twice.
    Its keys are the canonical names of the keys it was given, and none of
    the twelve short names it replaces is left among them.  The value
    under a key is the stripped value of the last item that has this
    canonical name, so that of two items that name the same field, as "DOB"
    and "date of birth" do, the later one wins.  The canonical names of the
    short names are the four fields the default decision requires of a LoA
    case, and these four are canonical already. *)
Theorem canonical_field_updates (updates : list (string * Json)) :
  let canonical := DefaultLLMService._canonicalize_field_updates str_of_json updates in
  NoDup canonical.*1
  /\ (forall key, key ∈ canonical.*1 <-> exists kv, kv ∈ updates /\ canonical_name kv.1 = key)
  /\ (forall key, key ∈ canonical.*1 -> key ∉ FIELD_ALIASES)
  /\ (forall key value,
        (key, value) ∈ canonical <->
        exists before kv after,
          updates = (before ++ kv :: after)%list
          /\ canonical_name kv.1 = key /\ canonical_value str_of_json kv.2 = value
          /\ forall kv', kv' ∈ after -> canonical_name kv'.1 <> key)
  /\ (forall alias, alias ∈ FIELD_ALIASES ->
        DefaultLLMService.canonical_key alias ∈ DefaultLLMService.LOA_REQUIRED_FIELDS)
  /\ (forall field, field ∈ DefaultLLMService.LOA_REQUIRED_FIELDS ->
        DefaultLLMService.canonical_key field = field).
Proof.
  intros canonical. subst canonical.
  assert (forall key,
            key ∈ (DefaultLLMService._canonicalize_field_updates str_of_json updates).*1
            <-> exists kv, kv ∈ updates /\ canonical_name kv.1 = key) as Hkeys.
  { induction updates as [|kv updates IH] using rev_ind; intros key.
    - cbn. rewrite elem_of_nil. split; [done|]. intros (kv & Hin & _).
      by apply elem_of_nil in Hin.
    - rewrite canonicalize_snoc, assoc_set_keys, IH. split.
      + intros [-> | (kv' & Hin & Hname)].
        * exists kv. split; [|done]. apply elem_of_app. right. by apply list_elem_of_singleton.
        * exists kv'. split; [|done]. apply elem_of_app. by left.
      + intros (kv' & Hin & Hname). apply elem_of_app in Hin as [Hin | Hin].
        * right. by exists kv'.
        * apply list_elem_of_singleton in Hin. subst kv'. by left. }
  split_and!.
  - apply canonicalize_NoDup.
  - exact Hkeys.
  - intros key (kv & _ & <-)%Hkeys. apply canonical_key_not_alias.
  - clear Hkeys. induction updates as [|kv updates IH] using rev_ind; intros key value.
    + cbn. rewrite elem_of_nil. split; [done|].
      intros (before & kv & after & Heq & _). by destruct before.
    + rewrite canonicalize_snoc, assoc_set_binding by apply canonicalize_NoDup.
      rewrite IH. split.
      * intros [[-> ->] | [Hne (before & kv' & after & -> & Hname & Hvalue & Hlater)]].
        -- exists updates, kv, []. split_and!; try done.
           intros kv' Hin. by apply elem_of_nil in Hin.
        -- exists before, kv', (after ++ [kv])%list. split_and!; try done.
           { by rewrite <- app_assoc. }
           intros kv'' Hin. apply elem_of_app in Hin as [Hin | Hin]; [by apply Hlater|].
           apply list_elem_of_singleton in Hin. by subst kv''.
      * intros (before & kv' & after & Heq & Hname & Hvalue & Hlater).
        destruct after as [|last after _] using rev_ind.
        -- apply app_inj_tail in Heq as [-> ->]. by left.
        -- rewrite app_comm_cons, app_assoc in Heq.
           apply app_inj_tail in Heq as [-> ->]. right. split.
           { intros Heq. apply (Hlater last); [|done].
             apply elem_of_app. right. by apply list_elem_of_singleton. }
           exists before, kv', after. split_and!; try done.
           intros kv'' Hin. apply Hlater, elem_of_app. by left.
  - intros alias Hin. unfold FIELD_ALIASES in Hin.
    rewrite !elem_of_cons, elem_of_nil in Hin.
    repeat destruct Hin as [-> | Hin]; try done;
      lazymatch goal with
      | |- ?key ∈ _ => let v := eval vm_compute in key in change key with v
      end;
      unfold DefaultLLMService.LOA_REQUIRED_FIELDS; rewrite !elem_of_cons; auto 10.
  - intros field Hin. unfold DefaultLLMService.LOA_REQUIRED_FIELDS in Hin.
    rewrite !elem_of_cons, elem_of_nil in Hin.
    repeat destruct Hin as [-> | Hin]; try done; by vm_compute.
Qed.
End Canonical.

(** ** Completing a task *)

Lemma head_fmap {A B} (f : A -> B) (l : list A) : head (f <$> l) = f <$> head l.
Proof. by destruct l. Qed.

Lemma find_task_by_title_run (title : string) (case_id : option string) (w : World) :
  outages w = [] ->
  let collection := if truthy_str case_id then case_id else None in
  exists found,
    CaseRepository.find_task_by_title (PyStr title) case_id w = (Ok found, w)
    /\ match found with
       | Some task =>
           exists key,
             tasks w !! key = Some task /\ key.1 = collection
             /\ Task.title task = title /\ Task.status task <> COMPLETE
       | None =>
           forall key task,
             tasks w !! key = Some task -> key.1 = collection ->
             Task.title task = title -> Task.status task = COMPLETE
       end.
Proof.
  intros Hout collection.
  unfold CaseRepository.find_task_by_title, try_except, bind, get_state, ret.
  rewrite (firestore_call_ok w Hout). cbv zeta. fold collection.
  eexists. split; [reflexivity|]. rewrite head_fmap.
  destruct (head _) as [[key task]|] eqn:Hhead; cbn.
  - apply head_filter_Some in Hhead as [Hin Hf]. apply elem_of_map_to_list in Hin.
    cbn in Hf. rewrite !andb_true_iff, bool_decide_eq_true, String.eqb_eq,
      negb_true_iff, bool_decide_eq_false in Hf.
    exists key. tauto.
  - intros key task Hlookup Hcollection Htitle.
    apply elem_of_map_to_list in Hlookup.
    pose proof (head_filter_None _ _ Hhead _ Hlookup) as Hf. cbn in Hf.
    rewrite (bool_decide_eq_true_2 _ Hcollection) in Hf.
    apply String.eqb_eq in Htitle. rewrite Htitle in Hf. cbn in Hf.
    apply negb_false_iff, bool_decide_eq_true in Hf. exact Hf.
Qed.

(** X26.  COMPLETE_TASK looks the task up by its title, among the tasks
    of the case of the action, or among the stand-alone tasks when the
    action has no case, and only among the tasks that are not COMPLETE yet.
    While the database answers and the documents are stored under their
    keys: when there is no such task it raises "Failed to complete task:
    Task not found: <title>" and changes no task, so that a task cannot be
    completed twice; when there is one it returns [True] and exactly one
    such task is stored again, as COMPLETE and with its completion time.
    The cases are never touched. *)
Theorem complete_task_outcome (action : Action.t) (w : World) (title : string) :
  outages w = [] -> tasks_keyed w ->
  dict_get (Action.parameters action) "task_title" PyNone = PyStr title ->
  title <> "" ->
  let collection :=
    if truthy_str (Action.case_id action) then Action.case_id action else None in
  let open_task key task :=
    tasks w !! key = Some task /\ key.1 = collection
    /\ Task.title task = title /\ Task.status task <> COMPLETE in
  exists r action' w',
    TaskActionHandler._complete_task (action, w) = (r, (action', w'))
    /\ cases w' = cases w
    /\ ((forall key task, ~ open_task key task) ->
        r = Raise (ActionExecutionError
                     ("Failed to complete task: Task not found: " +:+ title))
        /\ tasks w' = tasks w)
    /\ ((exists key task, open_task key task) ->
        r = Ok true
        /\ exists key task,
             open_task key task
             /\ tasks w'
                = <[key := Task.set_updated_at (S (clock w))
                             (Task.set_completed_at (Some (clock w))
                                (Task.set_status COMPLETE task))]> (tasks w)).
Proof.
  intros Hout Hkeyed Htitle Hne collection open_task.
  destruct (find_task_by_title_run title (Action.case_id action) w Hout)
    as (found & Hfind & Hfound).
  fold collection in Hfound.
  apply String.eqb_neq in Hne.
  destruct found as [task|].
  - destruct Hfound as (key & Hlookup & Hcollection & Htask_title & Hstatus).
    assert (TaskActionHandler._complete_task (action, w)
            = (Ok true,
               (Action.set_executed_at (Some (S (S (clock w))))
                  (Action.set_success (Some true) action),
                set_audit_logs
                  (audit_logs w
                   ++ [audit_entry
                         (Action.set_executed_at (Some (S (S (clock w))))
                            (Action.set_success (Some true) action))
                         (S (S (S (clock w)))) true (TaskDump task)
                         (TaskDump
                            (Task.set_updated_at (S (clock w))
                               (Task.set_completed_at (Some (clock w))
                                  (Task.set_status COMPLETE task))))
                         None])
                  (set_clock (S (S (S (S (S (clock w))))))
                     (set_tasks
                        (<[key := Task.set_updated_at (S (clock w))
                                    (Task.set_completed_at (Some (clock w))
                                       (Task.set_status COMPLETE task))]> (tasks w))
                        w))))) as Hrun.
    { unfold TaskActionHandler._complete_task, ActionHandler.audited.
      apply try_except_ok.
      run_step. rewrite Htitle. cbn [truthy negb]. rewrite Hne. cbn [negb].
      run_step.
      erewrite bind_ok by (apply in_world_run, Hfind). cbv beta iota zeta.
      run_step.
      erewrite bind_ok; cycle 1.
      { apply in_world_run.
        unfold CaseRepository.update_task, try_except, bind, utcnow, modify, ret.
        cbn [fst snd]. rewrite firestore_call_ok by exact Hout.
        replace (CaseRepository.task_key _) with key; [reflexivity|].
        rewrite <- (Hkeyed key task Hlookup). reflexivity. }
      cbv beta.
      erewrite bind_ok by reflexivity. cbv beta.
      erewrite bind_ok by (apply log_action_ok; exact Hout).
      reflexivity. }
    eexists _, _, _. split; [exact Hrun|]. cbn. split; [reflexivity|]. split.
    + intros Hnone. destruct (Hnone key task). by repeat split.
    + intros _. split; [reflexivity|]. exists key, task. by repeat split.
  - lazymatch goal with
    | |- context [TaskActionHandler._complete_task] =>
        unfold TaskActionHandler._complete_task
    end.
    lazymatch goal with
    | |- context [ActionHandler.audited ?what ?body] =>
        assert (body (action, w)
                = (Raise (ActionExecutionError ("Task not found: " +:+ title)),
                   (action, w))) as Hbody
    end.
    { run_step. rewrite Htitle. cbn [truthy negb]. rewrite Hne. cbn [negb].
      run_step.
      erewrite bind_ok by (apply in_world_run, Hfind). reflexivity. }
    destruct (audited_raise "Failed to complete task: " _ _ _ _ Hbody)
      as (e' & w' & Hrun & Hcases & Htasks & Hexc).
    cbn [fst snd] in *. destruct (Hexc Hout) as [-> _].
    eexists _, _, _. split; [exact Hrun|]. split; [exact Hcases|]. split.
    + intros _. split; [reflexivity | exact Htasks].
    + intros (key & task & Hlookup & Hcollection & Htask_title & Hstatus).
      destruct Hstatus. by apply (Hfound key task).
Qed.

(** ** Follow-up emails *)

Section Followup.
Variable from_llm_name : nat -> Res unit.
Variable generate_text : nat -> string -> string -> Res (option string).

(** X27.  The default [generate_followup_email] never hands back an
    empty email.  Given a list of fields, and once the client of the model
    is built, it returns the reply of the model stripped of white space
    when that is not empty, and the template otherwise: when the model
    raises, times out or answers nothing.  The template has one line
    "- <field>" for each missing field.  Only the construction of the
    client can make it raise. *)
Theorem followup_email_never_empty (n : nat) (case : Case.t) (fields : list string) :
  let bullets := join newline (map (fun f => "- " +:+ f) fields) in
  let email :=
    DefaultLLMService.generate_followup_email from_llm_name generate_text n case
      (PyList fields) in
  (forall e, from_llm_name n = Raise e -> email = Raise e)
  /\ (forall u, from_llm_name n = Ok u ->
        exists text,
          email = Ok text /\ text <> ""
          /\ match generate_text n DefaultLLMService.followup_system_message
                     (DefaultLLMService.followup_user_prompt case bullets) with
             | Ok (Some reply) =>
                 text = if String.eqb (strip reply) ""
                        then DefaultLLMService.followup_fallback case bullets
                        else strip reply
             | _ => text = DefaultLLMService.followup_fallback case bullets
             end).
Proof.
  intros bullets email. subst email.
  unfold DefaultLLMService.generate_followup_email. cbn [py_iter]. cbv zeta.
  fold bullets. split.
  - by intros e ->.
  - intros u ->.
    assert (DefaultLLMService.followup_fallback case bullets <> "") as Hfallback
      by discriminate.
    destruct (generate_text n _ _) as [[reply|] | e].
    + destruct (String.eqb (strip reply) "") eqn:Hempty.
      * by eexists.
      * apply String.eqb_neq in Hempty. by eexists.
    + by eexists.
    + by eexists.
Qed.
End Followup.

Lemma audited_raise_calls (what : string) (body : M (Action.t * World) bool)
    (s s1 s' : Action.t * World) (e : Exc) (r : Res bool) :
  body s = (Raise e, s1) -> ActionHandler.audited what body s = (r, s') ->
  llm_calls s'.2 = llm_calls s1.2.
Proof.
  intros Hbody. destruct s1 as [action w1].
  unfold ActionHandler.audited. erewrite try_except_raise by exact Hbody.
  unfold ActionHandler.log_action, AuditRepository.log_action, bind, self, utcnow_,
    in_world, utcnow, try_except, modify, ret, firestore_call, raise.
  cbn. rewrite audit_id_not_empty. cbn.
  destruct (outages w1) as [|[] rest]; cbn; by intros [= _ <-].
Qed.


(** ** The default decision to create a task *)

(** X29.  What becomes of a client task about an existing case.  The
    default [determine_action] decides CREATE_TASK for the case, and gives
    the task the title of the case as it was extracted, or "Client task"
    when none was, and the first 500 characters of the message as its
    description.  While the database answers the handler returns [True]:
    one task is stored for that case, OPEN, under an id made of the clock,
    and the id is written back to the action as "task_id".  No case is
    changed. *)
Theorem default_decision_creates_task (llm_service : option LLMService)
    (message : Message.t) (classification : Classification.t)
    (entities : ExtractedEntities.t) (existing : Case.t) (w : World) :
  Classification.category classification = CLIENT_TASK ->
  outages w = [] ->
  exists action w1 action' w' task,
    DefaultLLMService.determine_action message classification entities (Some existing) w
    = (Ok action, w1)
    /\ Action.type action = CREATE_TASK
    /\ Action.case_id action = Some (Case.id existing)
    /\ ActionRouter.route_action llm_service (action, w1) = (Ok true, (action', w'))
    /\ tasks w' = <[CaseRepository.task_key task := task]> (tasks w)
    /\ cases w' = cases w
    /\ Task.id task = "task_" +:+ timestamp_str (S (S (clock w)))
    /\ Task.case_id task = Some (Case.id existing)
    /\ Task.title task
       = match ExtractedEntities.case_title entities with
         | Some title => if String.eqb title "" then "Client task" else title
         | None => "Client task"
         end
    /\ Task.description task
       = String.substring 0 500 (Message.get_text_content message)
    /\ Task.status task = OPEN
    /\ Action.parameters action' !! "task_id" = Some (PyStr (Task.id task)).
Proof.
  intros Hcategory Hout.
  destruct (determine_action_runs message classification entities (Some existing) w)
    as (action & Hrun & _ & Hid & _).
  set (title := match ExtractedEntities.case_title entities with
                | Some title => if String.eqb title "" then "Client task" else title
                | None => "Client task"
                end).
  assert (Action.type action = CREATE_TASK
          /\ Action.parameters action !! "task_title" = Some (PyStr title)
          /\ Action.parameters action !! "task_description"
             = Some (PyStr (String.substring 0 500 (Message.get_text_content message))))
    as (Htype & Htitle & Hdescription).
  { revert Hrun. unfold DefaultLLMService.determine_action. rewrite Hcategory.
    decide_closed. cbv beta iota zeta. decide_closed. cbv beta iota zeta.
    destruct (ExtractedEntities.field_updates entities);
      intros [= <-]; cbn; (split; [reflexivity|]); split; try reflexivity;
      subst title; destruct (ExtractedEntities.case_title entities) as [t|];
      cbn; try reflexivity; by destruct (String.eqb t ""). }
  exists action, (set_clock (S (S (clock w))) w).
  rewrite route_action_dispatch, Htype.
  unfold TaskActionHandler._create_task, ActionHandler.audited.
  erewrite try_except_ok; cycle 1.
  { do 2 run_step. unfold dict_get. rewrite Htitle, Hdescription.
    cbn [as_str]. do 4 run_step.
    erewrite bind_ok; cycle 1.
    { apply in_world_run. unfold CaseRepository.create_task.
      apply try_except_ok. cbn [Task.id String.eqb String.append Ascii.eqb].
      erewrite bind_ok by reflexivity.
      erewrite bind_ok by (apply firestore_call_ok; exact Hout).
      reflexivity. }
    cbv beta. do 2 run_step.
    erewrite bind_ok by (apply log_action_ok; exact Hout).
    reflexivity. }
  eexists _, _, _. split; [exact Hrun|]. split; [reflexivity|].
  split; [exact Hid|]. split; [reflexivity|]. cbn.
  split; [reflexivity|]. split; [reflexivity|]. split; [reflexivity|].
  split; [by rewrite Hid|]. split_and!; try reflexivity. apply lookup_insert_eq.
Qed.

(** ** Snake case *)

Lemma chars_rev_app (s1 s2 : string) :
  String.list_ascii_of_string (String.rev_app s1 s2)
  = (List.rev (String.list_ascii_of_string s1) ++ String.list_ascii_of_string s2)%list.
Proof.
  revert s2. induction s1 as [|a s1 IH]; intros s2; cbn; [reflexivity|].
  rewrite IH. cbn. by rewrite <- app_assoc.
Qed.

Lemma chars_rev (s : string) :
  String.list_ascii_of_string (String.rev s) = List.rev (String.list_ascii_of_string s).
Proof. unfold String.rev. rewrite chars_rev_app. cbn. apply app_nil_r. Qed.

Lemma chars_append (s1 s2 : string) :
  String.list_ascii_of_string (s1 +:+ s2)
  = (String.list_ascii_of_string s1 ++ String.list_ascii_of_string s2)%list.
Proof.
  induction s1 as [|a s1 IH]; [reflexivity|].
  change (String.list_ascii_of_string (String a s1 +:+ s2))
    with (a :: String.list_ascii_of_string (s1 +:+ s2)).
  by rewrite IH.
Qed.

Lemma chars_map_string (f : ascii -> ascii) (s : string) :
  String.list_ascii_of_string (map_string f s) = List.map f (String.list_ascii_of_string s).
Proof. induction s as [|a s IH]; cbn; [reflexivity | by rewrite IH]. Qed.

Lemma lstrip_chars_suffix (in_chars : ascii -> bool) (s : string) :
  exists stripped,
    String.list_ascii_of_string s
    = (stripped ++ String.list_ascii_of_string (lstrip_chars in_chars s))%list.
Proof.
  induction s as [|a s [stripped IH]]; cbn.
  - by exists [].
  - destruct (in_chars a); [|by exists []].
    exists (a :: stripped). cbn. by rewrite IH.
Qed.

Lemma lstrip_chars_head (in_chars : ascii -> bool) (s : string) (a : ascii)
    (rest : list ascii) :
  String.list_ascii_of_string (lstrip_chars in_chars s) = a :: rest -> in_chars a = false.
Proof.
  induction s as [|b s IH]; cbn; [discriminate|].
  destruct (in_chars b) eqn:Hb; [exact IH|]. cbn. by intros [= <- _].
Qed.

Lemma strip_chars_inside (in_chars : ascii -> bool) (s : string) :
  exists before after,
    String.list_ascii_of_string s
    = (before ++ String.list_ascii_of_string (strip_chars in_chars s) ++ after)%list
    /\ (forall a rest,
          String.list_ascii_of_string (strip_chars in_chars s) = a :: rest ->
          in_chars a = false)
    /\ (forall a rest,
          String.list_ascii_of_string (strip_chars in_chars s) = (rest ++ [a])%list ->
          in_chars a = false).
Proof.
  unfold strip_chars.
  destruct (lstrip_chars_suffix in_chars s) as [before Hbefore].
  destruct (lstrip_chars_suffix in_chars (String.rev (lstrip_chars in_chars s)))
    as [after Hafter].
  rewrite chars_rev in Hafter.
  set (t := lstrip_chars in_chars (String.rev (lstrip_chars in_chars s))) in *.
  assert (String.list_ascii_of_string (lstrip_chars in_chars s)
          = (List.rev (String.list_ascii_of_string t) ++ List.rev after)%list) as Hinner.
  { rewrite <- rev_app_distr, <- Hafter. by rewrite rev_involutive. }
  rewrite chars_rev.
  exists before, (List.rev after). split_and!.
  - by rewrite Hbefore, Hinner.
  - intros a rest Hhead. rewrite Hhead in Hinner. cbn in Hinner.
    by apply lstrip_chars_head in Hinner.
  - intros a rest Hlast.
    assert (String.list_ascii_of_string t = a :: List.rev rest) as Hhead.
    { rewrite <- (rev_involutive (String.list_ascii_of_string t)), Hlast.
      by rewrite rev_app_distr. }
    by apply lstrip_chars_head in Hhead.
Qed.

Lemma sub_runs_chars (in_class : ascii -> bool) (in_run : bool) (s : string) (a : ascii) :
  a ∈ String.list_ascii_of_string (sub_runs in_class in_run s) ->
  a = "_"%char \/ (a ∈ String.list_ascii_of_string s /\ in_class a = false).
Proof.
  revert in_run. induction s as [|b s IH]; intros in_run; cbn.
  - intros Hin. by apply elem_of_nil in Hin.
  - destruct (in_class b) eqn:Hb.
    + destruct in_run; cbn; rewrite ?elem_of_cons; intros Hin.
      * destruct (IH _ Hin) as [-> | [Hs Ha]]; [by left | right; split; [by right | done]].
      * destruct Hin as [-> | Hin]; [by left|].
        destruct (IH _ Hin) as [-> | [Hs Ha]]; [by left | right; split; [by right | done]].
    + cbn. rewrite !elem_of_cons. intros [-> | Hin].
      * right. split; [by left | done].
      * destruct (IH _ Hin) as [-> | [Hs Ha]]; [by left | right; split; [by right | done]].
Qed.

Lemma lower_ascii_snake (a : ascii) :
  a = "_"%char \/ is_alnum a = true ->
  is_digit (lower_ascii a) || is_lower (lower_ascii a) || Ascii.eqb (lower_ascii a) "_"
  = true.
Proof. destruct a as [[] [] [] [] [] [] [] []]; cbn; intuition discriminate. Qed.

Lemma lower_ascii_underscore (a : ascii) :
  lower_ascii a = "_"%char -> a = "_"%char.
Proof. by destruct a as [[] [] [] [] [] [] [] []]. Qed.

(** X30.  [_to_snake] yields a lower snake-case name, whatever it is
    given: every character of the result is a digit, a small letter or an
    underscore, and the result neither begins nor ends with an
    underscore. *)
Theorem to_snake_is_snake_case (s : string) :
  let name := DefaultLLMService._to_snake s in
  (forall a, a ∈ String.list_ascii_of_string name ->
     is_digit a || is_lower a || Ascii.eqb a "_" = true)
  /\ (forall rest, name <> String "_" rest)
  /\ (forall rest, name <> rest +:+ "_").
Proof.
  intros name. subst name. unfold DefaultLLMService._to_snake. cbv zeta.
  set (first := sub_runs (fun a => negb (is_alnum a)) false (strip s)).
  set (second := sub_runs (Ascii.eqb "_") false first).
  destruct (strip_chars_inside (Ascii.eqb "_") second)
    as (before & after & Hinside & Hhead & Hlast).
  unfold lower. split_and!.
  - intros a. rewrite chars_map_string. intros Hin.
    apply list_elem_of_In, in_map_iff in Hin as (b & <- & Hb).
    apply list_elem_of_In in Hb.
    apply lower_ascii_snake.
    assert (b ∈ String.list_ascii_of_string second) as Hsecond.
    { rewrite Hinside, !elem_of_app. auto. }
    apply sub_runs_chars in Hsecond as [-> | [Hfirst _]]; [by left|].
    apply sub_runs_chars in Hfirst as [-> | [_ Halnum]]; [by left|].
    right. by apply negb_false_iff.
  - intros rest Heq. apply (f_equal String.list_ascii_of_string) in Heq.
    rewrite chars_map_string in Heq. cbn in Heq.
    destruct (String.list_ascii_of_string (strip_chars _ second)) as [|a l] eqn:Hchars;
      [discriminate|].
    cbn in Heq. injection Heq as Ha _. apply lower_ascii_underscore in Ha. subst a.
    by specialize (Hhead _ _ eq_refl).
  - intros rest Heq. apply (f_equal String.list_ascii_of_string) in Heq.
    rewrite chars_map_string, chars_append in Heq. cbn in Heq.
    destruct (String.list_ascii_of_string (strip_chars _ second)) as [|a l _] eqn:Hchars
      using rev_ind.
    { by destruct (String.list_ascii_of_string rest). }
    rewrite map_app in Heq. cbn in Heq. apply app_inj_tail in Heq as [_ Ha].
    apply lower_ascii_underscore in Ha. subst a.
    by specialize (Hlast _ _ eq_refl).
Qed.

(** ** The further properties on sample data *)

Lemma default_decision_creates_case_witness :
  exists action w1 e action' w',
    DefaultLLMService.determine_action (sample_message "msg_1" "Plan value attached")
      (sample_classification LOA_RESPONSE) ExtractedEntities.blank None
      (sample_world (sample_case OPEN []) [])
    = (Ok action, w1)
    /\ Action.type action = CREATE_CASE
    /\ ActionRouter.route_action None (action, w1) = (Raise e, (action', w'))
    /\ cases w' = cases (sample_world (sample_case OPEN []) []).
Proof.
  destruct (default_decision_creates_case None
              (sample_message "msg_1" "Plan value attached")
              (sample_classification LOA_RESPONSE) ExtractedEntities.blank
              (sample_world (sample_case OPEN []) []))
    as (action & w1 & r & action' & w' & Hrun & Htype & Hroute & _ & Hrest).
  { cbn. intros Hin. absurd_membership Hin. }
  cbn in Hrest. destruct Hrest as ([e ->] & Hcases & _).
  exists action, w1, e, action', w'. split_and!; assumption.
Defined.

Lemma update_case_all_or_nothing_witness :
  exists action' w',
    CaseActionHandler._update_case
      (sample_action_with UPDATE_CASE (Some "case_1")
         {[ "field_updates" := PyDict [("DOB", PyStr "01/01/1980")] ]},
       sample_world (sample_case IN_PROGRESS ["DOB"]) [])
    = (Ok true, (action', w'))
    /\ tasks w' = ∅.
Proof.
  destruct (update_case_all_or_nothing
              (sample_action_with UPDATE_CASE (Some "case_1")
                 {[ "field_updates" := PyDict [("DOB", PyStr "01/01/1980")] ]})
              (sample_world (sample_case IN_PROGRESS ["DOB"]) [])
              "case_1" (sample_case IN_PROGRESS ["DOB"])
              [("DOB", PyStr "01/01/1980")])
    as (r & action' & w' & Hrun & Htasks & _ & Hgood);
    [reflexivity | reflexivity | discriminate | apply lookup_singleton_eq | reflexivity
    | reflexivity |].
  destruct (Hgood [("DOB", "01/01/1980")] eq_refl) as [-> _].
  exists action', w'. split; [exact Hrun | exact Htasks].
Defined.

Lemma closing_actions_by_status_witness :
  exists msg w',
    CaseActionHandler._cancel_case
      (sample_action CANCEL_CASE (Some "case_1"), sample_world (sample_case COMPLETE []) [])
    = (Raise (ActionExecutionError
                ("Failed to cancel case: Invalid state transition for case " +:+ msg)),
       (sample_action CANCEL_CASE (Some "case_1"), w'))
    /\ cases w' = cases (sample_world (sample_case COMPLETE []) []).
Proof.
  destruct (closing_actions_by_status (sample_action CANCEL_CASE (Some "case_1"))
              (sample_world (sample_case COMPLETE []) []) "case_1"
              (sample_case COMPLETE []))
    as (_ & Hcomplete & _);
    [reflexivity | reflexivity | discriminate | apply lookup_singleton_eq | reflexivity |].
  destruct (Hcomplete eq_refl) as (msg & w' & Hrun & Hcases & _).
  exists msg, w'. split; [exact Hrun | exact Hcases].
Defined.

Lemma complete_task_outcome_witness :
  exists action' w',
    TaskActionHandler._complete_task
      (sample_action_with COMPLETE_TASK None {[ "task_title" := PyStr "Call client" ]},
       sample_world (sample_case OPEN []) [])
    = (Raise (ActionExecutionError
                "Failed to complete task: Task not found: Call client"),
       (action', w'))
    /\ tasks w' = ∅.
Proof.
  destruct (complete_task_outcome
              (sample_action_with COMPLETE_TASK None
                 {[ "task_title" := PyStr "Call client" ]})
              (sample_world (sample_case OPEN []) []) "Call client")
    as (r & action' & w' & Hrun & _ & Hnone & _).
  - reflexivity.
  - intros key task Hlookup. cbn in Hlookup. by rewrite lookup_empty in Hlookup.
  - reflexivity.
  - discriminate.
  - destruct Hnone as [-> Htasks].
    { intros key task (Hlookup & _). cbn in Hlookup. by rewrite lookup_empty in Hlookup. }
    exists action', w'. split; [exact Hrun | exact Htasks].
Defined.


Lemma default_decision_creates_task_witness :
  exists action w1 action' w' task,
    DefaultLLMService.determine_action (sample_message "msg_1" "Please call the client")
      (sample_classification CLIENT_TASK) ExtractedEntities.blank
      (Some (sample_case OPEN [])) (sample_world (sample_case OPEN []) [])
    = (Ok action, w1)
    /\ ActionRouter.route_action None (action, w1) = (Ok true, (action', w'))
    /\ tasks w' = {[ CaseRepository.task_key task := task ]}
    /\ Task.title task = "Client task"
    /\ Task.case_id task = Some "case_1".
Proof.
  destruct (default_decision_creates_task None
              (sample_message "msg_1" "Please call the client")
              (sample_classification CLIENT_TASK) ExtractedEntities.blank
              (sample_case OPEN []) (sample_world (sample_case OPEN []) []))
    as (action & w1 & action' & w' & task & Hrun & _ & _ & Hroute & Htasks & _ & _
        & Hcase & Htitle & _); [reflexivity | reflexivity |].
  exists action, w1, action', w', task.
  split_and!; [exact Hrun | exact Hroute | | exact Htitle | exact Hcase].
  rewrite Htasks. apply insert_empty.
Defined.
